(** * The shared data-structures library ([shared/python/ds.py])

    A shallow embedding of [ArrayList], [LinkedList], [Stack], [Queue],
    [MinHeap] and [MaxHeap], and the properties the specification states
    about them.

    Python integers are unbounded, so they are [Z].  A Python value held by
    a container is a [cell]: [None] is Python's [None], [Some v] any other
    value.  A method is a function from the object's state to an [outcome]:
    a returned value with the new state, or a raised exception. *)

From Stdlib Require Import ZArith Lia Sorting.Sorted.
From stdpp Require Import base numbers list.

Open Scope Z_scope.

(** ** Outcomes and the method monad *)

Inductive exn := IndexError | TypeError.

(** [Stuck] is no behaviour of Python: it marks a loop whose iteration
    budget ran out, or a reference to a node that is not in the store.  The
    theorems show that it never arises. *)
Inductive outcome (A : Type) : Type :=
| Ret (a : A)
| Raise (e : exn)
| Stuck.
Arguments Ret {A} a.
Arguments Raise {A} e.
Arguments Stuck {A}.

Definition M (St A : Type) : Type := St -> outcome (A * St).

Definition ret {St A} (a : A) : M St A := fun s => Ret (a, s).

Definition bind {St A B} (m : M St A) (k : A -> M St B) : M St B :=
  fun s =>
    match m s with
    | Ret (a, s') => k a s'
    | Raise e => Raise e
    | Stuck => Stuck
    end.

Definition raise {St A} (e : exn) : M St A := fun _ => Raise e.
Definition stuck {St A} : M St A := fun _ => Stuck.
Definition gets {St A} (f : St -> A) : M St A := fun s => Ret (f s, s).
Definition modify {St} (f : St -> St) : M St unit := fun s => Ret (tt, f s).
Definition when {St} (b : bool) (m : M St unit) : M St unit :=
  if b then m else ret tt.

(** What a call returns or raises, without the state it leaves. *)
Definition result {St A} (o : outcome (A * St)) : outcome A :=
  match o with
  | Ret (x, _) => Ret x
  | Raise e => Raise e
  | Stuck => Stuck
  end.

Declare Scope py_scope.
Delimit Scope py_scope with py.
Notation "x <- m ;; k" := (bind m (fun x => k))
  (at level 20, m at level 99, k at level 200, only parsing) : py_scope.
Notation "m ;; k" := (bind m (fun _ => k))
  (at level 100, k at level 200, right associativity, only parsing) : py_scope.
Open Scope py_scope.

(** [for x in l: f(x)] *)
Fixpoint for_each {St A} (f : A -> M St unit) (l : list A) : M St unit :=
  match l with
  | [] => ret tt
  | x :: l => f x ;; for_each f l
  end.

(** [n] calls of [m] in a row, with the values they return, in order. *)
Fixpoint repeat_call {St A} (n : nat) (m : M St A) : M St (list A) :=
  match n with
  | O => ret []
  | S n => x <- m ;; xs <- repeat_call n m ;; ret (x :: xs)
  end.

(** ** Python lists *)

(** [l[i]] and [l[i] = x]: a negative index counts from the end, and an
    index outside the list raises [IndexError]. *)
Definition py_index {St A} (l : list A) (i : Z) : M St nat :=
  let n := Z.of_nat (length l) in
  let j := if i <? 0 then i + n else i in
  if (j <? 0) || (j >=? n) then raise IndexError else ret (Z.to_nat j).

Definition py_getitem {St A} (l : list A) (i : Z) : M St A :=
  j <- py_index l i ;;
  match l !! j with
  | Some x => ret x
  | None => raise IndexError
  end.

Definition py_setitem {St A} (l : list A) (i : Z) (x : A) : M St (list A) :=
  j <- py_index l i ;;
  ret (<[j := x]> l).

(** [[x] * n] *)
Definition py_repeat {A} (x : A) (n : Z) : list A := replicate (Z.to_nat n) x.

(** A method of an object kept in a field: [self._items.add(value)] runs
    [add] on the field [_items] of [self] and stores the changed object
    back. *)
Definition on_field {St Fld A} (proj : St -> Fld) (inj : Fld -> St)
  (m : M Fld A) : M St A :=
  fun self =>
    match m (proj self) with
    | Ret (x, fld) => Ret (x, inj fld)
    | Raise e => Raise e
    | Stuck => Stuck
    end.

(** [x <= y] and the like on Python values: integers compare, [None] does
    not. *)
Definition py_compare {St} (op : Z -> Z -> bool) (x y : option Z)
  : M St bool :=
  match x, y with
  | Some a, Some b => ret (op a b)
  | _, _ => raise TypeError
  end.

(** ** ArrayList *)

Module ArrayList.
Section ArrayList.
Context {V : Type}.
Abbreviation cell := (option V).

Record t : Type := mk {
  _capacity : Z;
  _size : Z;
  _data : list cell
}.

Definition put_capacity (c : Z) : M t unit :=
  modify (fun self => mk c (_size self) (_data self)).
Definition put_size (n : Z) : M t unit :=
  modify (fun self => mk (_capacity self) n (_data self)).
Definition put_data (d : list cell) : M t unit :=
  modify (fun self => mk (_capacity self) (_size self) d).

Definition default_capacity : Z := 4.

Definition __init__ (capacity : Z) : t :=
  let capacity := if capacity <? 1 then 1 else capacity in
  {| _capacity := capacity;
     _size := 0;
     _data := py_repeat None capacity |}.

(** [ArrayList()] *)
Definition new : t := __init__ default_capacity.

(** The [while i < self._size] loop of [_grow]. *)
Fixpoint _grow_loop (fuel : nat) (new_data : list cell) (i : Z)
  : M t (list cell) :=
  size <- gets _size ;;
  if i <? size then
    match fuel with
    | O => stuck
    | S fuel =>
        data <- gets _data ;;
        x <- py_getitem data i ;;
        new_data <- py_setitem new_data i x ;;
        _grow_loop fuel new_data (i + 1)
    end
  else ret new_data.

Definition _grow : M t unit :=
  capacity <- gets _capacity ;;
  let new_capacity := capacity * 2 in
  let new_data := py_repeat None new_capacity in
  size <- gets _size ;;
  new_data <- _grow_loop (Z.to_nat size) new_data 0 ;;
  put_data new_data ;;
  put_capacity new_capacity.

Definition add (value : cell) : M t unit :=
  size <- gets _size ;;
  capacity <- gets _capacity ;;
  when (size >=? capacity) _grow ;;
  data <- gets _data ;;
  size <- gets _size ;;
  data <- py_setitem data size value ;;
  put_data data ;;
  put_size (size + 1).

Definition get (index : Z) : M t cell :=
  size <- gets _size ;;
  if (index <? 0) || (index >=? size) then raise IndexError
  else
    data <- gets _data ;;
    py_getitem data index.

Definition set (index : Z) (value : cell) : M t unit :=
  size <- gets _size ;;
  if (index <? 0) || (index >=? size) then raise IndexError
  else
    data <- gets _data ;;
    data <- py_setitem data index value ;;
    put_data data.

Definition size : M t Z := gets _size.

Definition remove_last : M t cell :=
  size <- gets _size ;;
  if size =? 0 then ret None
  else
    data <- gets _data ;;
    value <- py_getitem data (size - 1) ;;
    data <- py_setitem data (size - 1) None ;;
    put_data data ;;
    put_size (size - 1) ;;
    ret value.

(** The [while i < self._size] loop of [to_list]. *)
Fixpoint to_list_loop (fuel : nat) (result : list cell) (i : Z)
  : M t (list cell) :=
  size <- gets _size ;;
  if i <? size then
    match fuel with
    | O => stuck
    | S fuel =>
        data <- gets _data ;;
        x <- py_getitem data i ;;
        result <- py_setitem result i x ;;
        to_list_loop fuel result (i + 1)
    end
  else ret result.

Definition to_list : M t (list cell) :=
  size <- gets _size ;;
  to_list_loop (Z.to_nat size) (py_repeat None size) 0.

(** *** The representation invariant

    The buffer has [_capacity] slots, of which the first [_size] hold
    the elements. *)
Definition wf (a : t) : Prop :=
  1 <= _capacity a /\
  0 <= _size a <= _capacity a /\
  length (_data a) = Z.to_nat (_capacity a).

Definition contents (a : t) : list cell :=
  take (Z.to_nat (_size a)) (_data a).

(** The states an array goes through: constructed with any requested
    capacity, then changed by [add], [set] and [remove_last] only. *)
Inductive reachable : t -> Prop :=
| reach_init (capacity : Z) : reachable (__init__ capacity)
| reach_add (value : cell) (a a' : t) :
    reachable a -> add value a = Ret (tt, a') -> reachable a'
| reach_set (index : Z) (value : cell) (a a' : t) :
    reachable a -> set index value a = Ret (tt, a') -> reachable a'
| reach_remove_last (x : cell) (a a' : t) :
    reachable a -> remove_last a = Ret (x, a') -> reachable a'.

End ArrayList.
Arguments t : clear implicits.
End ArrayList.

(** ** ListNode and LinkedList

    Nodes are shared mutable objects ([self.tail.next = node] changes a node
    that [self.head] reaches), so they live in a store and [head], [tail]
    and [next] hold addresses.  The state of a method is the store with the
    list object. *)

Module LinkedList.
Section LinkedList.
Context {V : Type}.
Abbreviation cell := (option V).

Abbreviation addr := nat.

Record ListNode : Type := mkNode {
  val : cell;
  next : option addr
}.

Record t : Type := mk {
  head : option addr;
  tail : option addr;
  _size : Z
}.

Abbreviation store := (list ListNode).
Abbreviation state := (store * t)%type.

(** [ListNode(val, next_node)]: a new object, at a fresh address. *)
Definition ListNode__init__ (val : cell) (next_node : option addr)
  : M state addr :=
  fun '(h, self) => Ret (length h, (h ++ [mkNode val next_node], self)).

(** [node.val], [node.next] and [node.next = nx] *)
Definition load (a : addr) : M state ListNode :=
  fun '(h, self) =>
    match h !! a with
    | Some n => Ret (n, (h, self))
    | None => Stuck
    end.

Definition put_next (a : addr) (nx : option addr) : M state unit :=
  fun '(h, self) =>
    match h !! a with
    | Some n => Ret (tt, (<[a := mkNode (val n) nx]> h, self))
    | None => Stuck
    end.

Definition field {A} (f : t -> A) : M state A := gets (fun s => f (snd s)).
Definition put_head (x : option addr) : M state unit :=
  modify (fun '(h, self) => (h, mk x (tail self) (_size self))).
Definition put_tail (x : option addr) : M state unit :=
  modify (fun '(h, self) => (h, mk (head self) x (_size self))).
Definition put_size (n : Z) : M state unit :=
  modify (fun '(h, self) => (h, mk (head self) (tail self) n)).

Definition __init__ : t := {| head := None; tail := None; _size := 0 |}.

Definition add_last (value : cell) : M state unit :=
  node <- ListNode__init__ value None ;;
  tl <- field tail ;;
  match tl with
  | None =>
      put_head (Some node) ;;
      put_tail (Some node)
  | Some tl =>
      put_next tl (Some node) ;;
      put_tail (Some node)
  end ;;
  size <- field _size ;;
  put_size (size + 1).

Definition remove_first : M state cell :=
  hd <- field head ;;
  match hd with
  | None => ret None
  | Some hd =>
      n <- load hd ;;
      let value := val n in
      n <- load hd ;;
      put_head (next n) ;;
      hd <- field head ;;
      match hd with
      | None => put_tail None
      | Some _ => ret tt
      end ;;
      size <- field _size ;;
      put_size (size - 1) ;;
      ret value
  end.

Definition size : M state Z := field _size.

(** *** The representation invariant

    [lseg h p l e]: from pointer [p], the nodes at the addresses of [l]
    hold the values of [l] and are linked in this order, the last one to
    [e]. *)
Fixpoint lseg (h : store) (p : option addr) (l : list (addr * cell))
  (e : option addr) : Prop :=
  match l with
  | [] => p = e
  | (a, v) :: l =>
      p = Some a /\ exists nx, h !! a = Some (mkNode v nx) /\ lseg h nx l e
  end.

Definition inv (s : state) (l : list (addr * cell)) : Prop :=
  lseg (fst s) (head (snd s)) l None /\
  tail (snd s) = last (l.*1) /\
  _size (snd s) = Z.of_nat (length l) /\
  NoDup (l.*1).

(** The states a list goes through: constructed in any store, then
    changed by [add_last] and [remove_first] only. *)
Inductive reachable : state -> Prop :=
| reach_init (h : store) : reachable (h, __init__)
| reach_add_last (value : cell) (s s' : state) :
    reachable s -> add_last value s = Ret (tt, s') -> reachable s'
| reach_remove_first (x : cell) (s s' : state) :
    reachable s -> remove_first s = Ret (x, s') -> reachable s'.

End LinkedList.
Arguments ListNode : clear implicits.
Abbreviation state V := (list (ListNode V) * t)%type.
End LinkedList.

(** ** Stack *)

Module Stack.
Section Stack.
Context {V : Type}.
Abbreviation cell := (option V).

Record t : Type := mk { _items : ArrayList.t V }.

Definition items {A} (m : M (ArrayList.t V) A) : M t A :=
  on_field _items mk m.

Definition __init__ : t := {| _items := ArrayList.new |}.

Definition push (value : cell) : M t unit :=
  items (ArrayList.add value).

Definition pop : M t cell :=
  items ArrayList.remove_last.

Definition peek : M t cell :=
  size <- items ArrayList.size ;;
  if size =? 0 then ret None
  else
    size <- items ArrayList.size ;;
    items (ArrayList.get (size - 1)).

Definition is_empty : M t bool :=
  size <- items ArrayList.size ;;
  ret (size =? 0).

(** [rep s l]: the stack [s] holds the values [l], bottom first. *)
Definition rep (s : t) (l : list cell) : Prop :=
  ArrayList.wf (_items s) /\ ArrayList.contents (_items s) = l.

End Stack.
Arguments t : clear implicits.
End Stack.

(** ** Queue *)

Module Queue.
Section Queue.
Context {V : Type}.
Abbreviation cell := (option V).

(** The queue object, whose only field is the list object [_items]; the
    store holds the nodes. *)
Record t : Type := mk { _items : LinkedList.t }.

Abbreviation state := (list (LinkedList.ListNode V) * t)%type.

Definition items {A} (m : M (LinkedList.state V) A) : M state A :=
  on_field (fun s => (fst s, _items (snd s)))
           (fun s => (fst s, mk (snd s))) m.

Definition __init__ : t := {| _items := LinkedList.__init__ |}.

Definition enqueue (value : cell) : M state unit :=
  items (LinkedList.add_last value).

Definition dequeue : M state cell :=
  items LinkedList.remove_first.

Definition is_empty : M state bool :=
  size <- items LinkedList.size ;;
  ret (size =? 0).

Definition rep (s : state) (l : list (nat * cell)) : Prop :=
  LinkedList.inv (fst s, _items (snd s)) l.

End Queue.
Abbreviation state V := (list (LinkedList.ListNode V) * t)%type.
End Queue.

(** ** MinHeap and MaxHeap

    The two classes are the same code up to the comparisons: [<=] and [<]
    in [MinHeap] are [>=] and [>] in [MaxHeap].  [Heap] is that code over
    the two comparisons; the elements are integers. *)

Module Heap.
Section Heap.
(** [le_op] is the comparison of [_sift_up], [lt_op] that of
    [_sift_down]. *)
Variable le_op lt_op : Z -> Z -> bool.

Record t : Type := mk { _data : ArrayList.t Z }.

Definition data {A} (m : M (ArrayList.t Z) A) : M t A :=
  on_field _data mk m.

Definition __init__ : t := {| _data := ArrayList.new |}.

Definition size : M t Z := data ArrayList.size.

Definition peek : M t (option Z) :=
  size <- data ArrayList.size ;;
  if size =? 0 then ret None
  else data (ArrayList.get 0).

Definition _swap (i j : Z) : M t unit :=
  temp <- data (ArrayList.get i) ;;
  x <- data (ArrayList.get j) ;;
  data (ArrayList.set i x) ;;
  data (ArrayList.set j temp).

(** [while idx > 0]; [//] rounds down, as [/] on [Z] does. *)
Fixpoint _sift_up_loop (fuel : nat) (idx : Z) : M t unit :=
  if idx >? 0 then
    match fuel with
    | O => stuck
    | S fuel =>
        let parent := (idx - 1) / 2 in
        x <- data (ArrayList.get parent) ;;
        y <- data (ArrayList.get idx) ;;
        b <- py_compare le_op x y ;;
        if b then ret tt
        else
          _swap parent idx ;;
          _sift_up_loop fuel parent
    end
  else ret tt.

Definition _sift_up (idx : Z) : M t unit :=
  _sift_up_loop (Z.to_nat idx) idx.

(** [child < size and get(child) < get(smallest)]: the right operand
    runs only when the left one holds. *)
Definition closer (size child smallest : Z) : M t bool :=
  if child <? size then
    x <- data (ArrayList.get child) ;;
    y <- data (ArrayList.get smallest) ;;
    py_compare lt_op x y
  else ret false.

(** [while True] *)
Fixpoint _sift_down_loop (fuel : nat) (size idx : Z) : M t unit :=
  match fuel with
  | O => stuck
  | S fuel =>
      let left := idx * 2 + 1 in
      let right := idx * 2 + 2 in
      let smallest := idx in
      b <- closer size left smallest ;;
      let smallest := if b then left else smallest in
      b <- closer size right smallest ;;
      let smallest := if b then right else smallest in
      if smallest =? idx then ret tt
      else
        _swap idx smallest ;;
        _sift_down_loop fuel size smallest
  end.

Definition _sift_down (idx : Z) : M t unit :=
  size <- data ArrayList.size ;;
  _sift_down_loop (S (Z.to_nat size)) size idx.

Definition push (value : option Z) : M t unit :=
  data (ArrayList.add value) ;;
  size <- data ArrayList.size ;;
  _sift_up (size - 1).

Definition pop : M t (option Z) :=
  size <- data ArrayList.size ;;
  if size =? 0 then ret None
  else
    top <- data (ArrayList.get 0) ;;
    last <- data ArrayList.remove_last ;;
    size <- data ArrayList.size ;;
    when (size >? 0)
      (data (ArrayList.set 0 last) ;;
       _sift_down 0) ;;
    ret top.

(** *** Lists as heaps *)

Definition len (l : list Z) : Z := Z.of_nat (length l).
Definition at_ (l : list Z) (i : Z) : Z := default 0 (l !! Z.to_nat i).
Definition swap (l : list Z) (i j : Z) : list Z :=
  <[Z.to_nat j := at_ l i]> (<[Z.to_nat i := at_ l j]> l).

Definition le (x y : Z) : Prop := le_op x y = true.

(** Every element but the root is no closer to the top than its parent. *)
Definition heap (l : list Z) : Prop :=
  forall i, 0 < i < len l -> le (at_ l ((i - 1) / 2)) (at_ l i).

(** The heap order but for the element at [k], which may be closer to
    the top than its parent. *)
Definition up_inv (l : list Z) (k : Z) : Prop :=
  (forall i, 0 < i < len l -> i <> k -> le (at_ l ((i - 1) / 2)) (at_ l i)) /\
  (forall i, 0 < i < len l -> (i - 1) / 2 = k -> 0 < k ->
             le (at_ l ((k - 1) / 2)) (at_ l i)).

(** The heap order but for the element at [k], whose children may be
    closer to the top than it is. *)
Definition down_inv (l : list Z) (k : Z) : Prop :=
  (forall i, 0 < i < len l -> (i - 1) / 2 <> k ->
             le (at_ l ((i - 1) / 2)) (at_ l i)) /\
  (forall i, 0 < i < len l -> (i - 1) / 2 = k -> 0 < k ->
             le (at_ l ((k - 1) / 2)) (at_ l i)).

(** The object [h] holds the integers [l], in this order. *)
Definition rep (h : t) (l : list Z) : Prop :=
  ArrayList.wf (_data h) /\ ArrayList.contents (_data h) = Some <$> l.

(** The index [_sift_down] moves to from [k]: [smallest] after the two
    tests. *)
Definition pick (l : list Z) (k : Z) : Z :=
  let s :=
    if (k * 2 + 1 <? len l) && lt_op (at_ l (k * 2 + 1)) (at_ l k)
    then k * 2 + 1 else k in
  if (k * 2 + 2 <? len l) && lt_op (at_ l (k * 2 + 2)) (at_ l s)
  then k * 2 + 2 else s.

(** *** Sequences of operations *)

Inductive op : Type := Push (v : Z) | Pop.

(** The operations of [ops] in order, with what the pops return. *)
Fixpoint run (ops : list op) : M t (list (option Z)) :=
  match ops with
  | [] => ret []
  | Push v :: ops => push (Some v) ;; run ops
  | Pop :: ops => x <- pop ;; xs <- run ops ;; ret (x :: xs)
  end.

Fixpoint pushed (ops : list op) : list Z :=
  match ops with
  | [] => []
  | Push v :: ops => v :: pushed ops
  | Pop :: ops => pushed ops
  end.

Definition push_all (vs : list Z) : M t unit :=
  for_each (fun v => push (Some v)) vs.

End Heap.
End Heap.

Module MinHeap.
Abbreviation t := Heap.t.
Abbreviation __init__ := Heap.__init__.
Abbreviation size := Heap.size.
Abbreviation peek := Heap.peek.
Abbreviation push := (Heap.push Z.leb).
Abbreviation pop := (Heap.pop Z.ltb).
Abbreviation _sift_up := (Heap._sift_up Z.leb).
Abbreviation _sift_down := (Heap._sift_down Z.ltb).
Abbreviation _swap := Heap._swap.
Abbreviation run := (Heap.run Z.leb Z.ltb).
Abbreviation push_all := (Heap.push_all Z.leb).
End MinHeap.

Module MaxHeap.
Abbreviation t := Heap.t.
Abbreviation __init__ := Heap.__init__.
Abbreviation size := Heap.size.
Abbreviation peek := Heap.peek.
Abbreviation push := (Heap.push Z.geb).
Abbreviation pop := (Heap.pop Z.gtb).
Abbreviation _sift_up := (Heap._sift_up Z.geb).
Abbreviation _sift_down := (Heap._sift_down Z.gtb).
Abbreviation _swap := Heap._swap.
Abbreviation run := (Heap.run Z.geb Z.gtb).
Abbreviation push_all := (Heap.push_all Z.geb).
End MaxHeap.

(** ** Sequences of calls on a Stack and on a Queue

    What a call answers: the value a method returns ([None] for a method
    without [return]), or the truth value of [is_empty]. *)

Inductive answer (V : Type) : Type :=
| Returned (c : option V)
| Truth (b : bool).
Arguments Returned {V} c.
Arguments Truth {V} b.

Module StackRun.
Section StackRun.
Context {V : Type}.
Abbreviation cell := (option V).

Inductive call : Type :=
| Push (v : cell)
| Pop
| Peek
| IsEmpty.

Definition do_call (c : call) : M (Stack.t V) (answer V) :=
  match c with
  | Push v => Stack.push v ;; ret (Returned None)
  | Pop => x <- Stack.pop ;; ret (Returned x)
  | Peek => x <- Stack.peek ;; ret (Returned x)
  | IsEmpty => b <- Stack.is_empty ;; ret (Truth b)
  end.

Fixpoint calls (cs : list call) : M (Stack.t V) (list (answer V)) :=
  match cs with
  | [] => ret []
  | c :: cs => x <- do_call c ;; xs <- calls cs ;; ret (x :: xs)
  end.

(** The same calls on a list whose head is the top of the stack: the
    last-in first-out discipline, written out. *)
Definition model_call (c : call) (l : list cell) : answer V * list cell :=
  match c, l with
  | Push v, _ => (Returned None, v :: l)
  | Pop, [] => (Returned None, [])
  | Pop, x :: l => (Returned x, l)
  | Peek, [] => (Returned None, [])
  | Peek, x :: _ => (Returned x, l)
  | IsEmpty, [] => (Truth true, l)
  | IsEmpty, _ :: _ => (Truth false, l)
  end.

Fixpoint model (cs : list call) (l : list cell) : list (answer V) :=
  match cs with
  | [] => []
  | c :: cs => (model_call c l).1 :: model cs (model_call c l).2
  end.

End StackRun.
Arguments call : clear implicits.
End StackRun.

Module QueueRun.
Section QueueRun.
Context {V : Type}.
Abbreviation cell := (option V).

Inductive call : Type :=
| Enqueue (v : cell)
| Dequeue
| IsEmpty.

Definition do_call (c : call) : M (Queue.state V) (answer V) :=
  match c with
  | Enqueue v => Queue.enqueue v ;; ret (Returned None)
  | Dequeue => x <- Queue.dequeue ;; ret (Returned x)
  | IsEmpty => b <- Queue.is_empty ;; ret (Truth b)
  end.

Fixpoint calls (cs : list call) : M (Queue.state V) (list (answer V)) :=
  match cs with
  | [] => ret []
  | c :: cs => x <- do_call c ;; xs <- calls cs ;; ret (x :: xs)
  end.

(** The same calls on a list whose head is the front of the queue: the
    first-in first-out discipline, written out. *)
Definition model_call (c : call) (l : list cell) : answer V * list cell :=
  match c, l with
  | Enqueue v, _ => (Returned None, l ++ [v])
  | Dequeue, [] => (Returned None, [])
  | Dequeue, x :: l => (Returned x, l)
  | IsEmpty, [] => (Truth true, l)
  | IsEmpty, _ :: _ => (Truth false, l)
  end.

Fixpoint model (cs : list call) (l : list cell) : list (answer V) :=
  match cs with
  | [] => []
  | c :: cs => (model_call c l).1 :: model cs (model_call c l).2
  end.

End QueueRun.
Arguments call : clear implicits.
End QueueRun.

(** ** Sequences of calls on a heap *)

Inductive reply : Type :=
| Value (c : option Z)
| Count (n : Z).

Module HeapRun.
Section HeapRun.
Variable le_op lt_op : Z -> Z -> bool.

Inductive call : Type :=
| Push (v : Z)
| Pop
| Peek
| Size.

Definition do_call (c : call) : M Heap.t reply :=
  match c with
  | Push v => Heap.push le_op (Some v) ;; ret (Value None)
  | Pop => x <- Heap.pop lt_op ;; ret (Value x)
  | Peek => x <- Heap.peek ;; ret (Value x)
  | Size => n <- Heap.size ;; ret (Count n)
  end.

Fixpoint calls (cs : list call) : M Heap.t (list reply) :=
  match cs with
  | [] => ret []
  | c :: cs => x <- do_call c ;; xs <- calls cs ;; ret (x :: xs)
  end.

(** The same calls on a list kept in the order of the heap, its head the
    element that comes first: a priority queue, written out. *)
Fixpoint insert (v : Z) (l : list Z) : list Z :=
  match l with
  | [] => [v]
  | x :: l' => if le_op v x then v :: l else x :: insert v l'
  end.

Definition model_call (c : call) (l : list Z) : reply * list Z :=
  match c, l with
  | Push v, _ => (Value None, insert v l)
  | Pop, [] => (Value None, [])
  | Pop, x :: l => (Value (Some x), l)
  | Peek, [] => (Value None, [])
  | Peek, x :: _ => (Value (Some x), l)
  | Size, _ => (Count (Z.of_nat (length l)), l)
  end.

Fixpoint model (cs : list call) (l : list Z) : list reply :=
  match cs with
  | [] => []
  | c :: cs => (model_call c l).1 :: model cs (model_call c l).2
  end.

End HeapRun.
End HeapRun.

(** ** Callers of the library

    [kth_largest_in_array]
    ([questions/arrays-hashing/heap/kth-largest-in-array/solution.py]):
    [nums] is a list of integers, [k] an integer. *)

Module KthLargest.

(** The [while i < len(nums)] loop. *)
Fixpoint loop (fuel : nat) (nums : list Z) (k : Z) (i : Z) : M Heap.t unit :=
  if i <? Z.of_nat (length nums) then
    match fuel with
    | O => stuck
    | S fuel =>
        x <- py_getitem nums i ;;
        MinHeap.push (Some x) ;;
        size <- MinHeap.size ;;
        when (size >? k) (MinHeap.pop ;; ret tt) ;;
        loop fuel nums k (i + 1)
    end
  else ret tt.

Definition kth_largest_in_array (nums : list Z) (k : Z)
  : outcome (option Z) :=
  result ((loop (length nums) nums k 0 ;; MinHeap.peek) MinHeap.__init__).

End KthLargest.

(** [valid_parentheses]
    ([questions/strings/stack/valid-parentheses/solution.py]): [s] is a
    string, here the list of its characters. *)

From Stdlib Require Import Ascii.

Module ValidParentheses.

(** [pairs = {")": "(", "]": "[", "}": "{"}] *)
Definition pairs : list (ascii * ascii) :=
  [(")"%char, "("%char); ("]"%char, "["%char); ("}"%char, "{"%char)].

(** [d[k]] when [k in d] *)
Fixpoint dict_get (d : list (ascii * ascii)) (k : ascii) : option ascii :=
  match d with
  | [] => None
  | (k', v) :: d => if Ascii.eqb k k' then Some v else dict_get d k
  end.

(** [top is None or top != opener] *)
Definition mismatch (top : option ascii) (opener : ascii) : bool :=
  match top with
  | None => true
  | Some c => negb (Ascii.eqb c opener)
  end.

(** The [while i < len(s)] loop, with the [return] statements. *)
Fixpoint loop (fuel : nat) (s : list ascii) (i : Z)
  : M (Stack.t ascii) bool :=
  if i <? Z.of_nat (length s) then
    match fuel with
    | O => stuck
    | S fuel =>
        ch <- py_getitem s i ;;
        match dict_get pairs ch with
        | Some opener =>
            top <- Stack.pop ;;
            if mismatch top opener then ret false
            else loop fuel s (i + 1)
        | None =>
            Stack.push (Some ch) ;;
            loop fuel s (i + 1)
        end
    end
  else Stack.is_empty.

Definition valid_parentheses (s : list ascii) : outcome bool :=
  result (loop (length s) s 0 Stack.__init__).

(** The strings of well-nested brackets: the three pairs of [pairs],
    nested and put side by side. *)
Inductive balanced : list ascii -> Prop :=
| balanced_nil : balanced []
| balanced_wrap (o c : ascii) (b : list ascii) :
    (c, o) ∈ pairs -> balanced b -> balanced (o :: b ++ [c])
| balanced_app (b1 b2 : list ascii) :
    balanced b1 -> balanced b2 -> balanced (b1 ++ b2).

(** The loop on the characters still to read, with the stack as a list
    whose head is the top. *)
Fixpoint check (s : list ascii) (st : list ascii) : bool :=
  match s with
  | [] => match st with [] => true | _ => false end
  | ch :: s =>
      match dict_get pairs ch with
      | Some opener =>
          match st with
          | [] => false
          | top :: st => if Ascii.eqb top opener then check s st else false
          end
      | None => check s (ch :: st)
      end
  end.

End ValidParentheses.

(** [MedianFinder]
    ([questions/heap/heap/median-from-data-stream/solution.py]): its
    constructor and [add_num]; [num] is an integer. *)

Module MedianFinder.

Record t : Type := mk { low : Heap.t; high : Heap.t }.

(** A method of [self.low], of [self.high]. *)
Definition on_low {A} (m : M Heap.t A) : M t A :=
  fun self =>
    match m (low self) with
    | Ret (x, h) => Ret (x, mk h (high self))
    | Raise e => Raise e
    | Stuck => Stuck
    end.

Definition on_high {A} (m : M Heap.t A) : M t A :=
  fun self =>
    match m (high self) with
    | Ret (x, h) => Ret (x, mk (low self) h)
    | Raise e => Raise e
    | Stuck => Stuck
    end.

Definition __init__ : t :=
  {| low := MaxHeap.__init__; high := MinHeap.__init__ |}.

Definition add_num (num : Z) : M t unit :=
  size <- on_low MaxHeap.size ;;
  b <- (if size =? 0 then ret true
        else
          top <- on_low MaxHeap.peek ;;
          py_compare Z.leb (Some num) top) ;;
  (if b then on_low (MaxHeap.push (Some num))
   else on_high (MinHeap.push (Some num))) ;;
  low_size <- on_low MaxHeap.size ;;
  high_size <- on_high MinHeap.size ;;
  if low_size >? high_size + 1 then
    x <- on_low MaxHeap.pop ;;
    on_high (MinHeap.push x)
  else
    high_size <- on_high MinHeap.size ;;
    low_size <- on_low MaxHeap.size ;;
    if high_size >? low_size then
      x <- on_high MinHeap.pop ;;
      on_low (MaxHeap.push x)
    else ret tt.

(** What [add_num] keeps: [low] holds [L] as a max-heap and [high] holds
    [H] as a min-heap, [low] has as many numbers as [high] or one more,
    and no number of [low] is greater than one of [high]. *)
Definition inv (s : t) (L H : list Z) : Prop :=
  Heap.rep (low s) L /\ Heap.heap Z.geb L /\
  Heap.rep (high s) H /\ Heap.heap Z.leb H /\
  (length L = length H \/ length L = S (length H)) /\
  forall a b, a ∈ L -> b ∈ H -> a <= b.

End MedianFinder.

(** ** Graph

    [adj] is a Python list whose slots hold [None] until the constructor
    has filled them with a new [ArrayList] each; no two slots share one. *)

Module Graph.
Section Graph.
Context {V : Type}.
Abbreviation cell := (option V).

Record t : Type := mk {
  n : Z;
  adj : list (option (ArrayList.t V))
}.

(** [self.adj[i] = a] *)
Definition set_adj (i : Z) (a : ArrayList.t V) : M t unit :=
  d <- gets adj ;;
  d <- py_setitem d i (Some a) ;;
  modify (fun self => mk (n self) d).

(** The [while i < n] loop of the constructor. *)
Fixpoint __init__loop (fuel : nat) (n i : Z) : M t unit :=
  if i <? n then
    match fuel with
    | O => stuck
    | S fuel =>
        set_adj i ArrayList.new ;;
        __init__loop fuel n (i + 1)
    end
  else ret tt.

Definition __init__ (n : Z) : outcome t :=
  match __init__loop (Z.to_nat n) n 0 (mk n (py_repeat None n)) with
  | Ret (_, self) => Ret self
  | Raise e => Raise e
  | Stuck => Stuck
  end.

(** What a call of [add_edge] does: an outcome of the library, or the
    [AttributeError] of [None.add(v)]. *)
Inductive call_outcome : Type :=
| Outcome (o : outcome (unit * t))
| AttributeError.

(** [self.adj[u].add(v)]: the [ArrayList] in slot [u] is changed in
    place. *)
Definition add_edge (u : Z) (v : cell) (self : t) : call_outcome :=
  match py_index (adj self) u self with
  | Ret (j, _) =>
      match adj self !! j with
      | Some (Some a) =>
          match ArrayList.add v a with
          | Ret (_, a') =>
              Outcome (Ret (tt, mk (n self) (<[j := Some a']> (adj self))))
          | Raise e => Outcome (Raise e)
          | Stuck => Outcome Stuck
          end
      | Some None => AttributeError
      | None => Outcome (Raise IndexError)
      end
  | Raise e => Outcome (Raise e)
  | Stuck => Outcome Stuck
  end.

(** The graphs built by [Graph(n0)] and then the calls [add_edge(u, v)]
    that returned, for the pairs [(u, v)] of the list, in order. *)
Inductive reachable (n0 : Z) : list (Z * cell) -> t -> Prop :=
| reach_init (g : t) : __init__ n0 = Ret g -> reachable n0 [] g
| reach_add_edge (u : Z) (v : cell) (es : list (Z * cell)) (g g' : t) :
    reachable n0 es g ->
    add_edge u v g = Outcome (Ret (tt, g')) ->
    reachable n0 (es ++ [(u, v)]) g'.

(** The second components of the pairs of [es] whose first component
    names the node [w], counted from the front or from the back. *)
Definition neighbours (n0 w : Z) (es : list (Z * cell)) : list cell :=
  snd <$> filter (fun e => e.1 = w \/ e.1 = w - n0) es.

End Graph.
Arguments t : clear implicits.
Arguments call_outcome : clear implicits.
End Graph.

(** * Lemmas

    What the methods do on states that satisfy the representation
    invariants. *)

Lemma bind_ret {St A B} (m : M St A) (k : A -> M St B) (s s' : St) (x : A) :
  m s = Ret (x, s') -> bind m k s = k x s'.
Proof. unfold bind. now intros ->. Qed.

Lemma on_field_ret {St Fld A} (proj : St -> Fld) (inj : Fld -> St)
  (m : M Fld A) (s : St) (x : A) (f : Fld) :
  m (proj s) = Ret (x, f) -> on_field proj inj m s = Ret (x, inj f).
Proof. unfold on_field. now intros ->. Qed.

Lemma StronglySorted_strict (R S : relation Z) (l : list Z) :
  (forall x y, R x y -> x <> y -> S x y) ->
  NoDup l -> StronglySorted R l -> StronglySorted S l.
Proof.
  intros HRS Hnd Hs. induction Hs as [|x l Hs IH Hx]; constructor.
  - apply IH. now apply NoDup_cons in Hnd as [_ ?].
  - apply NoDup_cons in Hnd as [Hx' _].
    apply Forall_forall. intros y Hy. apply HRS.
    + rewrite Forall_forall in Hx. now apply Hx.
    + intros ->. contradiction.
Qed.

Module ArrayListFacts.
Section Facts.
Import ArrayList.
Context {V : Type}.
Local Abbreviation cell := (option V).
Local Abbreviation t := (ArrayList.t V).
Local Abbreviation __init__ := (@ArrayList.__init__ V).

(** *** What each method does to a well-formed array *)

Ltac run :=
  cbv [bind ret gets modify when raise stuck
       put_capacity put_size put_data]; simpl.

Lemma py_getitem_ok {St A} (l : list A) (i : Z) (x : A) (s : St) :
  0 <= i -> l !! Z.to_nat i = Some x -> py_getitem l i s = Ret (x, s).
Proof.
  intros Hi Hx. apply lookup_lt_Some in Hx as Hlt.
  unfold py_getitem, py_index. run.
  destruct (i <? 0) eqn:E1; [lia|].
  destruct (i <? 0) eqn:E1'; [lia|].
  destruct (i >=? Z.of_nat (length l)) eqn:E2; [lia|].
  simpl. now rewrite Hx.
Qed.

Lemma py_setitem_ok {St A} (l : list A) (i : Z) (x : A) (s : St) :
  0 <= i < Z.of_nat (length l) ->
  py_setitem l i x s = Ret (<[Z.to_nat i := x]> l, s).
Proof.
  intros Hi. unfold py_setitem, py_index. run.
  destruct (i <? 0) eqn:E1; [lia|].
  destruct (i <? 0) eqn:E1'; [lia|].
  destruct (i >=? Z.of_nat (length l)) eqn:E2; [lia|].
  reflexivity.
Qed.

Lemma wf_init (capacity : Z) : wf (__init__ capacity).
Proof.
  unfold wf, __init__, py_repeat. simpl.
  rewrite length_replicate. destruct (capacity <? 1) eqn:E; lia.
Qed.

Lemma contents_init (capacity : Z) : contents (__init__ capacity) = [].
Proof. reflexivity. Qed.

Lemma length_contents (a : t) :
  wf a -> Z.of_nat (length (contents a)) = _size a.
Proof.
  intros (Hc & Hs & Hl). unfold contents. rewrite length_take. lia.
Qed.

Lemma grow_loop_spec (fuel : nat) :
  forall (new_data : list cell) (i : Z) (a : t),
    0 <= i ->
    _size a - i <= Z.of_nat fuel ->
    _size a <= Z.of_nat (length (_data a)) ->
    _size a <= Z.of_nat (length new_data) ->
    take (Z.to_nat i) new_data = take (Z.to_nat i) (_data a) ->
    exists new_data',
      _grow_loop fuel new_data i a = Ret (new_data', a) /\
      length new_data' = length new_data /\
      take (Z.to_nat (_size a)) new_data' = contents a.
Proof.
  induction fuel as [|fuel IH]; intros nd i a Hi Hf Hd Hn Ht.
  - exists nd. simpl. run.
    destruct (i <? _size a) eqn:E; [lia|].
    repeat split; try reflexivity. unfold contents.
    replace (Z.to_nat (_size a))
      with (Z.to_nat (_size a) `min` Z.to_nat i)%nat by lia.
    rewrite <- !take_take. now rewrite Ht.
  - simpl. run.
    destruct (i <? _size a) eqn:E.
    + destruct (lookup_lt_is_Some_2 (_data a) (Z.to_nat i)) as [x Hx]; [lia|].
      rewrite (py_getitem_ok _ _ x) by (assumption || lia).
      rewrite py_setitem_ok by lia.
      destruct (IH (<[Z.to_nat i := x]> nd) (i + 1) a) as (nd' & E' & L' & T').
      * lia.
      * lia.
      * assumption.
      * rewrite length_insert. lia.
      * replace (Z.to_nat (i + 1)) with (S (Z.to_nat i)) by lia.
        rewrite (take_S_r (_data a) _ x) by assumption.
        rewrite (take_S_r _ _ x).
        -- rewrite take_insert_ge by lia. now rewrite Ht.
        -- apply list_lookup_insert_eq. lia.
      * exists nd'. rewrite length_insert in L'. auto.
    + exists nd. repeat split; try reflexivity. unfold contents.
      replace (Z.to_nat (_size a))
        with (Z.to_nat (_size a) `min` Z.to_nat i)%nat by lia.
      rewrite <- !take_take. now rewrite Ht.
Qed.

Lemma grow_spec (a : t) :
  wf a ->
  exists a',
    _grow a = Ret (tt, a') /\ wf a' /\
    _capacity a' = _capacity a * 2 /\
    _size a' = _size a /\ contents a' = contents a.
Proof.
  intros (Hc & Hs & Hl). unfold _grow. run.
  destruct (grow_loop_spec (Z.to_nat (_size a))
              (py_repeat None (_capacity a * 2)) 0 a)
    as (nd' & E & L & T); try lia.
  - unfold py_repeat. rewrite length_replicate. lia.
  - reflexivity.
  - rewrite E. eexists. split; [reflexivity|].
    unfold py_repeat in L. rewrite length_replicate in L.
    unfold wf, contents; simpl. repeat split; try lia. exact T.
Qed.

Lemma to_list_loop_grow_loop (fuel : nat) :
  forall (result : list cell) (i : Z) (a : t),
    to_list_loop fuel result i a = _grow_loop fuel result i a.
Proof.
  induction fuel as [|fuel IH]; intros result i a; [reflexivity|].
  simpl. unfold bind, gets.
  destruct (i <? _size a); [|reflexivity].
  destruct (py_getitem (_data a) i a) as [[x a1]| |]; [|reflexivity..].
  destruct (py_setitem result i x a1) as [[r a2]| |]; [|reflexivity..].
  apply IH.
Qed.

(** [to_list] returns the contents and changes nothing. *)
Lemma to_list_spec (a : t) :
  wf a -> to_list a = Ret (contents a, a).
Proof.
  intros (Hc & Hs & Hl). unfold to_list. run.
  rewrite to_list_loop_grow_loop.
  destruct (grow_loop_spec (Z.to_nat (_size a)) (py_repeat None (_size a)) 0 a)
    as (r & E & L & T); try lia.
  - unfold py_repeat. rewrite length_replicate. lia.
  - reflexivity.
  - rewrite E. do 2 f_equal. rewrite <- T. symmetry. apply take_ge.
    rewrite L. unfold py_repeat. now rewrite length_replicate.
Qed.

Lemma add_spec (value : cell) (a : t) :
  wf a ->
  exists a',
    add value a = Ret (tt, a') /\ wf a' /\
    _size a' = _size a + 1 /\
    contents a' = contents a ++ [value].
Proof.
  intros Hwf.
  assert (exists b, when (_size a >=? _capacity a) _grow a = Ret (tt, b) /\
                    wf b /\ _size b < _capacity b /\
                    _size b = _size a /\ contents b = contents a)
    as (b & Eb & Hb & Hlt & Hsz & Hcb).
  { unfold when. destruct (_size a >=? _capacity a) eqn:E.
    - destruct (grow_spec a Hwf) as (b & E1 & Wb & Cb & Sb & Kb).
      exists b. destruct Hwf as (? & ? & ?).
      split; [exact E1|]. split; [exact Wb|]. repeat split; auto; lia.
    - exists a. run. split; [reflexivity|]. split; [exact Hwf|].
      repeat split; auto; lia. }
  unfold add. unfold bind at 1 2 3. unfold gets at 1 2. rewrite Eb.
  destruct Hb as (Hc & Hs & Hl). run.
  rewrite py_setitem_ok by lia.
  eexists. split; [reflexivity|].
  unfold wf, contents in *; simpl. rewrite length_insert.
  repeat split; try lia.
  replace (Z.to_nat (_size b + 1)) with (S (Z.to_nat (_size b))) by lia.
  rewrite (take_S_r _ _ value) by (apply list_lookup_insert_eq; lia).
  rewrite take_insert_ge by lia. now rewrite Hcb.
Qed.

Lemma get_ok (index : Z) (x : cell) (a : t) :
  0 <= index -> contents a !! Z.to_nat index = Some x ->
  get index a = Ret (x, a).
Proof.
  intros Hi Hx. unfold contents in Hx.
  apply lookup_take_Some in Hx as [Hx Hlt].
  unfold get. run.
  destruct (index <? 0) eqn:E1; [lia|].
  destruct (index >=? _size a) eqn:E2; [lia|]. simpl.
  now apply py_getitem_ok.
Qed.

Lemma get_raises (index : Z) (a : t) :
  index < 0 \/ index >= _size a -> get index a = Raise IndexError.
Proof.
  intros H. unfold get. run.
  destruct (index <? 0) eqn:E1; [reflexivity|].
  destruct (index >=? _size a) eqn:E2; [reflexivity|]. lia.
Qed.

Lemma set_raises (index : Z) (value : cell) (a : t) :
  index < 0 \/ index >= _size a -> set index value a = Raise IndexError.
Proof.
  intros H. unfold set. run.
  destruct (index <? 0) eqn:E1; [reflexivity|].
  destruct (index >=? _size a) eqn:E2; [reflexivity|]. lia.
Qed.

Lemma set_spec (index : Z) (value : cell) (a : t) :
  wf a -> 0 <= index < _size a ->
  exists a',
    set index value a = Ret (tt, a') /\ wf a' /\
    _size a' = _size a /\
    contents a' = <[Z.to_nat index := value]> (contents a).
Proof.
  intros (Hc & Hs & Hl) Hi. unfold set. run.
  destruct (index <? 0) eqn:E1; [lia|].
  destruct (index >=? _size a) eqn:E2; [lia|]. simpl.
  rewrite py_setitem_ok by lia.
  eexists. split; [reflexivity|].
  unfold wf, contents; simpl. rewrite length_insert.
  repeat split; try lia.
  rewrite take_insert_lt by lia. reflexivity.
Qed.

Lemma remove_last_empty (a : t) :
  _size a = 0 -> remove_last a = Ret (None, a).
Proof. intros H. unfold remove_last. run. now rewrite H. Qed.

Lemma remove_last_spec (l : list cell) (x : cell) (a : t) :
  wf a -> contents a = l ++ [x] ->
  exists a',
    remove_last a = Ret (x, a') /\ wf a' /\
    _size a' = _size a - 1 /\ contents a' = l.
Proof.
  intros Hwf Hl. pose proof (length_contents a Hwf) as Hlen.
  destruct Hwf as (Hc & Hs & Hd).
  rewrite Hl, length_app in Hlen. simpl in Hlen.
  assert (Hx : _data a !! Z.to_nat (_size a - 1) = Some x).
  { assert (contents a !! Z.to_nat (_size a - 1) = Some x) as H.
    { rewrite Hl. replace (Z.to_nat (_size a - 1)) with (length l) by lia.
      apply list_lookup_middle. reflexivity. }
    unfold contents in H. now apply lookup_take_Some in H as [H _]. }
  unfold remove_last. run.
  destruct (_size a =? 0) eqn:E; [lia|].
  rewrite (py_getitem_ok _ _ x) by (assumption || lia).
  rewrite py_setitem_ok by lia.
  eexists. split; [reflexivity|].
  unfold wf, contents in *; simpl. rewrite length_insert.
  repeat split; try lia.
  rewrite take_insert_ge by lia.
  replace (Z.to_nat (_size a - 1)) with (length l) by lia.
  replace (take (length l) (_data a))
    with (take (length l) (take (Z.to_nat (_size a)) (_data a))).
  - rewrite Hl. now rewrite take_app_length.
  - rewrite take_take. f_equal. lia.
Qed.

Lemma reachable_wf (a : t) : reachable a -> wf a.
Proof.
  induction 1 as [c|v a a' _ IH E|i v a a' _ IH E|x a a' _ IH E].
  - apply wf_init.
  - destruct (add_spec v a IH) as (a1 & E1 & W1 & _).
    rewrite E in E1. now injection E1 as <-.
  - destruct (decide (0 <= i < _size a)) as [Hi|Hi].
    + destruct (set_spec i v a IH Hi) as (a1 & E1 & W1 & _).
      rewrite E in E1. now injection E1 as <-.
    + rewrite set_raises in E by lia. discriminate E.
  - destruct (decide (_size a = 0)) as [Hz|Hz].
    + rewrite remove_last_empty in E by exact Hz. now injection E as _ <-.
    + pose proof (length_contents a IH) as Hlen.
      destruct (contents a) as [|y l _] eqn:Hc using rev_ind.
      * simpl in Hlen. lia.
      * destruct (remove_last_spec l y a IH Hc) as (a1 & E1 & W1 & _).
        rewrite E in E1. now injection E1 as _ <-.
Qed.

End Facts.
End ArrayListFacts.

Module LinkedListFacts.
Section Facts.
Import LinkedList.
Context {V : Type}.
Local Abbreviation cell := (option V).
Local Abbreviation addr := nat.
Local Abbreviation ListNode := (LinkedList.ListNode V).
Local Abbreviation store := (list ListNode).
Local Abbreviation state := (store * t)%type.

Ltac run :=
  cbv [bind ret gets modify when raise stuck field
       put_head put_tail put_size put_next load ListNode__init__]; simpl.

Lemma lseg_app (h : store) p l1 l2 e :
  lseg h p (l1 ++ l2) e <-> exists m, lseg h p l1 m /\ lseg h m l2 e.
Proof.
  revert p. induction l1 as [|[a v] l1 IH]; intros p; simpl.
  - split.
    + intros H. exists p. auto.
    + intros (m & -> & H). exact H.
  - split.
    + intros (-> & nx & Ha & H). apply IH in H as (m & H1 & H2).
      exists m. eauto.
    + intros (m & (-> & nx & Ha & H1) & H2). split; [reflexivity|].
      exists nx. split; [exact Ha|]. apply IH. eauto.
Qed.

Lemma lseg_frame (h h' : store) p l e :
  (forall a, a ∈ l.*1 -> h' !! a = h !! a) ->
  lseg h p l e -> lseg h' p l e.
Proof.
  revert p. induction l as [|[a v] l IH]; intros p Hf; simpl; [auto|].
  intros (-> & nx & Ha & H). split; [reflexivity|]. exists nx. split.
  - rewrite Hf; [exact Ha|]. simpl. apply list_elem_of_here.
  - apply IH; [|exact H]. intros b Hb. apply Hf. simpl.
    now apply list_elem_of_further.
Qed.

Lemma lseg_bound (h : store) p l e a :
  lseg h p l e -> a ∈ l.*1 -> (a < length h)%nat.
Proof.
  revert p. induction l as [|[b v] l IH]; intros p; simpl.
  - intros _ H. inversion H.
  - intros (-> & nx & Hb & H) Ha. apply elem_of_cons in Ha as [->|Ha].
    + now apply lookup_lt_Some in Hb.
    + eauto.
Qed.

Lemma inv_init (h : store) : inv (h, __init__) [].
Proof. repeat split; simpl; auto. apply NoDup_nil_2. Qed.

Lemma add_last_spec (value : cell) (s : state) (l : list (addr * cell)) :
  inv s l ->
  exists s',
    add_last value s = Ret (tt, s') /\
    inv s' (l ++ [(length (fst s), value)]).
Proof.
  destruct s as [h [hd tl sz]]. intros (Hseg & Htl & Hsz & Hnd).
  simpl in *.
  assert (Hfresh : length h ∉ l.*1).
  { intros Hin. apply (lseg_bound _ _ _ _ _ Hseg) in Hin. lia. }
  assert (Hnd' : NoDup ((l ++ [(length h, value)]).*1)).
  { rewrite fmap_app. simpl. apply NoDup_app. split; [exact Hnd|].
    split; [|apply NoDup_singleton].
    intros a Ha Hb. apply list_elem_of_singleton in Hb as ->. auto. }
  destruct l as [|x l0 _] using rev_ind.
  - simpl in *. subst hd tl. unfold add_last. run.
    eexists. split; [reflexivity|]. unfold inv; simpl.
    repeat split; auto.
    + exists None. split; [|reflexivity]. now apply list_lookup_middle.
    + f_equal. lia.
  - destruct x as [a v]. rewrite fmap_app in Htl, Hnd, Hfresh. simpl in *.
    rewrite last_snoc in Htl. subst tl.
    apply lseg_app in Hseg as (m & H1 & H2). simpl in H2.
    destruct H2 as (-> & nx & Ha & ->).
    apply NoDup_app in Hnd as (Hnd0 & Hdisj & _).
    assert (Hlt : (a < length h)%nat) by now apply lookup_lt_Some in Ha.
    unfold add_last. run.
    rewrite lookup_app_l by exact Hlt. rewrite Ha. simpl.
    eexists. split; [reflexivity|]. unfold inv; simpl.
    repeat split; auto.
    + rewrite <- app_assoc. apply lseg_app. exists (Some a). split.
      * eapply lseg_frame; [|exact H1]. intros b Hb.
        assert (b <> a).
        { intros ->. apply (Hdisj a Hb). apply list_elem_of_here. }
        rewrite list_lookup_insert_ne by auto.
        apply lookup_app_l. eapply lseg_bound; eauto.
      * simpl. split; [reflexivity|]. exists (Some (length h)). split.
        -- apply list_lookup_insert_eq. rewrite length_app. lia.
        -- split; [reflexivity|]. exists None. split; [|reflexivity].
           rewrite list_lookup_insert_ne by lia.
           now apply list_lookup_middle.
    + rewrite fmap_app. simpl. now rewrite last_snoc.
    + rewrite !length_app in *. simpl in *. lia.
Qed.

Lemma remove_first_empty (s : state) :
  head (snd s) = None -> remove_first s = Ret (None, s).
Proof. destruct s as [h [hd tl sz]]. simpl. intros ->. reflexivity. Qed.

Lemma remove_first_spec (s : state) (a : addr) (v : cell)
  (l : list (addr * cell)) :
  inv s ((a, v) :: l) ->
  exists s', remove_first s = Ret (v, s') /\ inv s' l /\ fst s' = fst s.
Proof.
  destruct s as [h [hd tl sz]]. intros (Hseg & Htl & Hsz & Hnd).
  simpl in *. destruct Hseg as (-> & nx & Ha & Hseg).
  apply NoDup_cons in Hnd as [_ Hnd].
  unfold remove_first. run. repeat (rewrite Ha; simpl).
  destruct nx as [b|].
  - destruct l as [|[b' v'] l]; [discriminate Hseg|].
    simpl in Htl. eexists. split; [reflexivity|]. unfold inv; simpl.
    split; [|reflexivity]. split; [exact Hseg|]. split; [exact Htl|].
    split; [|exact Hnd]. simpl in Hsz. lia.
  - destruct l as [|[b' v'] l]; [|destruct Hseg as [? _]; discriminate].
    eexists. split; [reflexivity|]. unfold inv; simpl.
    split; [|reflexivity]. split; [reflexivity|]. split; [reflexivity|].
    split; [|exact Hnd]. simpl in Hsz. lia.
Qed.

Lemma reachable_inv (s : state) :
  reachable s -> exists l, inv s l.
Proof.
  induction 1 as [h|value s s' _ [l IH] E|x s s' _ [l IH] E].
  - exists []. apply inv_init.
  - destruct (add_last_spec value s l IH) as (s1 & E1 & H1).
    rewrite E in E1. injection E1 as <-. eauto.
  - destruct l as [|[a v] l].
    + rewrite remove_first_empty in E by (destruct IH as [H _]; exact H).
      injection E as _ <-. eauto.
    + destruct (remove_first_spec s a v l IH) as (s1 & E1 & H1 & _).
      rewrite E in E1. injection E1 as _ <-. eauto.
Qed.

End Facts.
End LinkedListFacts.

Module StackFacts.
Section Facts.
Import Stack.
Context {V : Type}.
Local Abbreviation cell := (option V).
Local Abbreviation t := (Stack.t V).
Local Abbreviation __init__ := (@Stack.__init__ V).

Lemma stack_rep_init : rep __init__ [].
Proof. split; [apply ArrayListFacts.wf_init|reflexivity]. Qed.

Lemma stack_push_spec (value : cell) (s : t) (l : list cell) :
  rep s l -> exists s', push value s = Ret (tt, s') /\ rep s' (l ++ [value]).
Proof.
  intros [Hwf Hl].
  destruct (ArrayListFacts.add_spec value (_items s) Hwf) as (a & E & W & _ & C).
  exists (mk a). unfold Stack.push, items, on_field. rewrite E.
  split; [reflexivity|]. split; [exact W|]. simpl. now rewrite C, Hl.
Qed.

Lemma stack_pop_spec (value : cell) (s : t) (l : list cell) :
  rep s (l ++ [value]) -> exists s', pop s = Ret (value, s') /\ rep s' l.
Proof.
  intros [Hwf Hl].
  destruct (ArrayListFacts.remove_last_spec l value (_items s) Hwf Hl)
    as (a & E & W & _ & C).
  exists (mk a). unfold Stack.pop, items, on_field. rewrite E.
  split; [reflexivity|]. split; assumption.
Qed.

Lemma stack_push_all (vs : list cell) :
  forall (s : t) (l : list cell),
    rep s l ->
    exists s', for_each push vs s = Ret (tt, s') /\ rep s' (l ++ vs).
Proof.
  induction vs as [|v vs IH]; intros s l Hs; simpl.
  - exists s. rewrite app_nil_r. auto.
  - destruct (stack_push_spec v s l Hs) as (s1 & E1 & H1).
    destruct (IH s1 _ H1) as (s2 & E2 & H2).
    exists s2. unfold bind. rewrite E1. rewrite <- app_assoc in H2. auto.
Qed.

Lemma stack_pop_all (vs : list cell) :
  forall (s : t),
    rep s vs ->
    exists s', repeat_call (length vs) pop s = Ret (reverse vs, s') /\
               rep s' [].
Proof.
  induction vs as [|v vs IH] using rev_ind; intros s Hs; simpl.
  - exists s. auto.
  - destruct (stack_pop_spec v s vs Hs) as (s1 & E1 & H1).
    destruct (IH s1 H1) as (s2 & E2 & H2).
    exists s2. rewrite length_app, Nat.add_comm. simpl.
    unfold bind at 1. rewrite E1. unfold bind at 1. rewrite E2.
    rewrite reverse_snoc. auto.
Qed.

End Facts.
End StackFacts.

Module QueueFacts.
Section Facts.
Import Queue.
Context {V : Type}.
Local Abbreviation cell := (option V).
Local Abbreviation state := (list (LinkedList.ListNode V) * t)%type.

Lemma queue_rep_init (h : list (LinkedList.ListNode V)) : rep (h, __init__) [].
Proof. apply LinkedListFacts.inv_init. Qed.

Lemma enqueue_spec (value : cell) (s : state) (l : list (nat * cell)) :
  rep s l ->
  exists s' a, enqueue value s = Ret (tt, s') /\ rep s' (l ++ [(a, value)]).
Proof.
  destruct s as [h [q]]. unfold rep. simpl. intros H.
  destruct (LinkedListFacts.add_last_spec value _ l H) as ([h' q'] & E & H').
  exists (h', mk q'), (length h). unfold enqueue, items, on_field.
  cbn [fst snd _items]. rewrite E. auto.
Qed.

Lemma dequeue_spec (s : state) (a : nat) (v : cell)
  (l : list (nat * cell)) :
  rep s ((a, v) :: l) ->
  exists s', dequeue s = Ret (v, s') /\ rep s' l.
Proof.
  destruct s as [h [q]]. unfold rep. simpl. intros H.
  destruct (LinkedListFacts.remove_first_spec _ a v l H) as ([h' q'] & E & H' & _).
  exists (h', mk q'). unfold dequeue, items, on_field.
  cbn [fst snd _items]. rewrite E. auto.
Qed.

Lemma enqueue_all_spec (vs : list cell) :
  forall (s : state) (l : list (nat * cell)),
    rep s l ->
    exists s' l',
      for_each enqueue vs s = Ret (tt, s') /\
      rep s' (l ++ l') /\ l'.*2 = vs.
Proof.
  induction vs as [|v vs IH]; intros s l Hs; simpl.
  - exists s, []. rewrite app_nil_r. auto.
  - destruct (enqueue_spec v s l Hs) as (s1 & a & E1 & H1).
    destruct (IH s1 _ H1) as (s2 & l2 & E2 & H2 & Hv).
    exists s2, ((a, v) :: l2). unfold bind. rewrite E1.
    rewrite <- app_assoc in H2. split; [exact E2|]. split; [exact H2|].
    rewrite fmap_cons, Hv. reflexivity.
Qed.

Lemma dequeue_all_spec (l : list (nat * cell)) :
  forall (s : state),
    rep s l ->
    exists s', repeat_call (length l) dequeue s = Ret (l.*2, s') /\
               rep s' [].
Proof.
  induction l as [|[a v] l IH]; intros s Hs; simpl.
  - exists s. auto.
  - destruct (dequeue_spec s a v l Hs) as (s1 & E1 & H1).
    destruct (IH s1 H1) as (s2 & E2 & H2).
    exists s2. unfold bind at 1. rewrite E1. unfold bind at 1. rewrite E2.
    auto.
Qed.

End Facts.
End QueueFacts.

Module HeapFacts.
Section Facts.
Import Heap.
Variable le_op lt_op : Z -> Z -> bool.
Local Abbreviation _sift_up_loop := (Heap._sift_up_loop le_op).
Local Abbreviation _sift_up := (Heap._sift_up le_op).
Local Abbreviation closer := (Heap.closer lt_op).
Local Abbreviation _sift_down_loop := (Heap._sift_down_loop lt_op).
Local Abbreviation _sift_down := (Heap._sift_down lt_op).
Local Abbreviation push := (Heap.push le_op).
Local Abbreviation pop := (Heap.pop lt_op).
Local Abbreviation le := (Heap.le le_op).
Local Abbreviation heap := (Heap.heap le_op).
Local Abbreviation up_inv := (Heap.up_inv le_op).
Local Abbreviation down_inv := (Heap.down_inv le_op).
Local Abbreviation pick := (Heap.pick lt_op).
Local Abbreviation run := (Heap.run le_op lt_op).
Local Abbreviation push_all := (Heap.push_all le_op).

Lemma lookup_at (l : list Z) (i : Z) :
  0 <= i < len l -> l !! Z.to_nat i = Some (at_ l i).
Proof.
  unfold len, at_. intros Hi.
  destruct (lookup_lt_is_Some_2 l (Z.to_nat i)) as [x Hx]; [lia|].
  now rewrite Hx.
Qed.

Lemma len_swap (l : list Z) (i j : Z) : len (swap l i j) = len l.
Proof. unfold len, swap. now rewrite !length_insert. Qed.

Lemma at_insert (l : list Z) (i k v : Z) :
  0 <= i < len l -> 0 <= k ->
  at_ (<[Z.to_nat i := v]> l) k = if decide (k = i) then v else at_ l k.
Proof.
  unfold len, at_. intros Hi Hk. destruct (decide (k = i)) as [->|Hne].
  - rewrite list_lookup_insert_eq by lia. reflexivity.
  - rewrite list_lookup_insert_ne by lia. reflexivity.
Qed.

Lemma at_swap (l : list Z) (i j k : Z) :
  0 <= i < len l -> 0 <= j < len l -> 0 <= k ->
  at_ (swap l i j) k =
    if decide (k = j) then at_ l i
    else if decide (k = i) then at_ l j
    else at_ l k.
Proof.
  intros Hi Hj Hk. unfold swap.
  rewrite at_insert; [|unfold len in *; rewrite length_insert; lia|lia].
  destruct (decide (k = j)); [reflexivity|].
  now rewrite at_insert.
Qed.

Lemma lookup_swap (l : list Z) (i j : Z) (n : nat) :
  0 <= i < len l -> 0 <= j < len l ->
  swap l i j !! n =
    l !! (if decide (n = Z.to_nat j) then Z.to_nat i
          else if decide (n = Z.to_nat i) then Z.to_nat j else n).
Proof.
  intros Hi Hj. unfold swap.
  destruct (decide (n = Z.to_nat j)) as [->|Hj'].
  - rewrite list_lookup_insert_eq
      by (unfold len in *; rewrite length_insert; lia).
    now rewrite lookup_at.
  - rewrite list_lookup_insert_ne by lia.
    destruct (decide (n = Z.to_nat i)) as [->|Hi'].
    + rewrite list_lookup_insert_eq by (unfold len in *; lia).
      now rewrite lookup_at.
    + now rewrite list_lookup_insert_ne by lia.
Qed.

Lemma swap_perm (l : list Z) (i j : Z) :
  0 <= i < len l -> 0 <= j < len l -> swap l i j ≡ₚ l.
Proof.
  intros Hi Hj. apply Permutation_inj. split.
  - unfold swap. now rewrite !length_insert.
  - exists (fun n => if decide (n = Z.to_nat j) then Z.to_nat i
                     else if decide (n = Z.to_nat i) then Z.to_nat j else n).
    split.
    + intros n m. repeat case_decide; lia.
    + intros n. now apply lookup_swap.
Qed.

(** *** The order of the heap

    What the proofs need of the two comparisons: [le_op] is a total
    preorder and [lt_op] is its strict part. *)
Hypothesis le_total : forall x y, le x y \/ le y x.
Hypothesis le_trans : forall x y z, le x y -> le y z -> le x z.
Hypothesis lt_op_spec : forall x y, lt_op x y = negb (le_op y x).

Ltac zdiv := Z.div_mod_to_equations; lia.

Lemma le_refl (x : Z) : le x x.
Proof. destruct (le_total x x); assumption. Qed.

Lemma not_le (x y : Z) : le_op x y = false -> le y x.
Proof.
  intros H. destruct (le_total x y) as [H'|H']; [|exact H'].
  unfold Heap.le in H'. congruence.
Qed.

Lemma lt_op_true (x y : Z) : lt_op x y = true -> le x y.
Proof.
  rewrite lt_op_spec. intros H. apply not_le.
  now destruct (le_op y x).
Qed.

Lemma lt_op_false (x y : Z) : lt_op x y = false -> le y x.
Proof.
  rewrite lt_op_spec. unfold Heap.le. now destruct (le_op y x).
Qed.

Lemma heap_nil : heap [].
Proof. intros i Hi. unfold len in Hi. simpl in Hi. lia. Qed.

Lemma heap_root (l : list Z) :
  heap l -> forall i, 0 <= i < len l -> le (at_ l 0) (at_ l i).
Proof.
  intros Hh i Hi.
  remember (Z.to_nat i) as n eqn:En. revert i Hi En.
  induction n as [n IH] using lt_wf_ind. intros i Hi En.
  destruct (decide (i = 0)) as [->|Hne]; [apply le_refl|].
  apply le_trans with (at_ l ((i - 1) / 2)).
  - apply (IH (Z.to_nat ((i - 1) / 2))); [zdiv|zdiv|reflexivity].
  - apply Hh. lia.
Qed.

Lemma up_inv_done (l : list Z) (k : Z) :
  up_inv l k ->
  k <= 0 \/ le (at_ l ((k - 1) / 2)) (at_ l k) ->
  heap l.
Proof.
  intros [H1 _] Hk i Hi.
  destruct (decide (i = k)) as [->|Hne]; [|now apply H1].
  destruct Hk as [Hk|Hk]; [lia|exact Hk].
Qed.

Lemma up_inv_step (l : list Z) (k : Z) :
  up_inv l k -> 0 < k < len l ->
  le_op (at_ l ((k - 1) / 2)) (at_ l k) = false ->
  up_inv (swap l ((k - 1) / 2) k) ((k - 1) / 2).
Proof.
  intros [H1 H2] Hk Hlt. apply not_le in Hlt.
  assert (Hp : 0 <= (k - 1) / 2 < k) by zdiv.
  set (p := (k - 1) / 2) in *.
  assert (Hpk : 0 < p -> le (at_ l ((p - 1) / 2)) (at_ l p)).
  { intros H. apply H1; lia. }
  split; intros i Hi; rewrite len_swap in Hi.
  - intros Hip.
    assert (Hq : 0 <= (i - 1) / 2 < i) by zdiv.
    rewrite !at_swap by lia.
    destruct (decide (i = k)) as [->|Hik].
    + fold p. rewrite decide_False by lia. rewrite decide_True by lia.
      exact Hlt.
    + rewrite (decide_False (P := i = p)) by assumption.
      destruct (decide ((i - 1) / 2 = k)) as [Eq|Nq].
      * now apply H2.
      * destruct (decide ((i - 1) / 2 = p)) as [Eq'|Nq'].
        -- apply le_trans with (at_ l p); [exact Hlt|].
           rewrite <- Eq'. now apply H1.
        -- now apply H1.
  - intros Hip Hp0.
    assert (Hg : 0 <= (p - 1) / 2 < p) by zdiv.
    rewrite !at_swap by lia.
    rewrite (decide_False (P := (p - 1) / 2 = k)) by lia.
    rewrite (decide_False (P := (p - 1) / 2 = p)) by lia.
    destruct (decide (i = k)) as [->|Hik]; [now apply Hpk|].
    rewrite decide_False by (clear - Hip Hp0; zdiv).
    apply le_trans with (at_ l p); [now apply Hpk|].
    rewrite <- Hip. now apply H1.
Qed.

Lemma down_inv_done (l : list Z) (k : Z) :
  down_inv l k ->
  (forall c, c = k * 2 + 1 \/ c = k * 2 + 2 -> c < len l ->
             le (at_ l k) (at_ l c)) ->
  heap l.
Proof.
  intros [H1 _] Hc i Hi.
  destruct (decide ((i - 1) / 2 = k)) as [Eq|Nq]; [|now apply H1].
  rewrite Eq. apply Hc; [zdiv|lia].
Qed.

Lemma down_inv_step (l : list Z) (k s : Z) :
  down_inv l k -> 0 <= k ->
  s = k * 2 + 1 \/ s = k * 2 + 2 -> s < len l ->
  le (at_ l s) (at_ l k) ->
  (forall c, c = k * 2 + 1 \/ c = k * 2 + 2 -> c < len l ->
             le (at_ l s) (at_ l c)) ->
  down_inv (swap l k s) s.
Proof.
  intros [H1 H2] Hk Hs Hlen Hsk Hc.
  assert (Hps : (s - 1) / 2 = k) by zdiv.
  split; intros i Hi; rewrite len_swap in Hi.
  - intros Hq.
    assert (Hqi : 0 <= (i - 1) / 2 < i) by zdiv.
    rewrite !at_swap by lia.
    destruct (decide ((i - 1) / 2 = k)) as [Eq|Nq].
    + rewrite (decide_False (P := (i - 1) / 2 = s)) by assumption.
      destruct (decide (i = s)) as [->|Nis]; [exact Hsk|].
      rewrite decide_False by lia. apply Hc; [zdiv|lia].
    + rewrite (decide_False (P := (i - 1) / 2 = s)) by assumption.
      rewrite (decide_False (P := i = s)) by congruence.
      destruct (decide (i = k)) as [->|Nik].
      * apply H2; [lia|exact Hps|lia].
      * now apply H1.
  - intros Hq Hs0.
    rewrite !at_swap by lia. rewrite Hps.
    rewrite (decide_False (P := k = s)) by lia.
    rewrite (decide_True (P := k = k)) by reflexivity.
    rewrite (decide_False (P := i = s)) by zdiv.
    rewrite (decide_False (P := i = k)) by zdiv.
    rewrite <- Hq. apply H1; [lia|lia].
Qed.

Lemma at_app_l (l l' : list Z) (i : Z) :
  0 <= i < len l -> at_ (l ++ l') i = at_ l i.
Proof.
  unfold len, at_. intros Hi. now rewrite lookup_app_l by lia.
Qed.

Lemma len_snoc (l : list Z) (v : Z) : len (l ++ [v]) = len l + 1.
Proof. unfold len. rewrite length_app. simpl. lia. Qed.

Lemma len_insert (l : list Z) (n : nat) (v : Z) : len (<[n := v]> l) = len l.
Proof. unfold len. now rewrite length_insert. Qed.

Lemma heap_snoc (l : list Z) (v : Z) :
  heap l -> up_inv (l ++ [v]) (len l).
Proof.
  intros Hh. split; intros i Hi; rewrite len_snoc in Hi.
  - intros Hne. rewrite !at_app_l by zdiv. apply Hh. lia.
  - intros Hp _. zdiv.
Qed.

Lemma heap_new_root (l : list Z) (y : Z) :
  heap (l ++ [y]) -> 0 < len l -> down_inv (<[Z.to_nat 0 := y]> l) 0.
Proof.
  intros Hh Hl. split; intros i Hi; [|lia].
  intros Hne. rewrite len_insert in Hi.
  rewrite !at_insert by zdiv.
  rewrite !decide_False by lia.
  rewrite <- !(at_app_l l [y]) by zdiv.
  apply Hh. rewrite len_snoc. lia.
Qed.

(** *** The methods on a represented heap *)

Lemma data_ret {A} (m : M (ArrayList.t Z) A) (h : t) (x : A)
  (a : ArrayList.t Z) :
  m (_data h) = Ret (x, a) -> data m h = Ret (x, mk a).
Proof. unfold data, on_field. now intros ->. Qed.

Lemma rep_size (h : t) (l : list Z) :
  rep h l -> ArrayList._size (_data h) = len l.
Proof.
  intros [Hwf Hc]. rewrite <- (ArrayListFacts.length_contents _ Hwf), Hc.
  unfold len. now rewrite length_fmap.
Qed.

Lemma heap_rep_init : rep __init__ [].
Proof. split; [apply ArrayListFacts.wf_init|reflexivity]. Qed.

Lemma data_size (h : t) (l : list Z) :
  rep h l -> data ArrayList.size h = Ret (len l, h).
Proof.
  intros Hr. rewrite <- (rep_size h l Hr). now destruct h.
Qed.

Lemma data_get (h : t) (l : list Z) (i : Z) :
  rep h l -> 0 <= i < len l ->
  data (ArrayList.get i) h = Ret (Some (at_ l i), h).
Proof.
  intros [Hwf Hc] Hi. destruct h as [a]. apply data_ret. simpl in *.
  apply ArrayListFacts.get_ok; [lia|].
  rewrite Hc, list_lookup_fmap, lookup_at by assumption. reflexivity.
Qed.

Lemma data_set (h : t) (l : list Z) (i v : Z) :
  rep h l -> 0 <= i < len l ->
  exists h',
    data (ArrayList.set i (Some v)) h = Ret (tt, h') /\
    rep h' (<[Z.to_nat i := v]> l).
Proof.
  intros Hr Hi. pose proof (rep_size h l Hr) as Hs. destruct Hr as [Hwf Hc].
  destruct (ArrayListFacts.set_spec i (Some v) (_data h) Hwf)
    as (a & E & W & _ & C); [lia|].
  exists (mk a). split; [now apply data_ret|]. split; [exact W|].
  simpl. now rewrite C, Hc, list_fmap_insert.
Qed.

Lemma swap_spec (h : t) (l : list Z) (i j : Z) :
  rep h l -> 0 <= i < len l -> 0 <= j < len l ->
  exists h', _swap i j h = Ret (tt, h') /\ rep h' (swap l i j).
Proof.
  intros Hr Hi Hj. unfold _swap.
  rewrite (bind_ret _ _ _ _ _ (data_get h l i Hr Hi)).
  rewrite (bind_ret _ _ _ _ _ (data_get h l j Hr Hj)).
  destruct (data_set h l i (at_ l j) Hr Hi) as (h1 & E1 & R1).
  rewrite (bind_ret _ _ _ _ _ E1).
  destruct (data_set h1 _ j (at_ l i) R1) as (h2 & E2 & R2).
  { rewrite len_insert. lia. }
  exists h2. split; [exact E2|exact R2].
Qed.

Lemma sift_up_loop_S (fuel : nat) (idx : Z) :
  _sift_up_loop (S fuel) idx =
    if idx >? 0 then
      x <- data (ArrayList.get ((idx - 1) / 2)) ;;
      y <- data (ArrayList.get idx) ;;
      b <- py_compare le_op x y ;;
      if b then ret tt
      else
        _swap ((idx - 1) / 2) idx ;;
        _sift_up_loop fuel ((idx - 1) / 2)
    else ret tt.
Proof. reflexivity. Qed.

Lemma sift_up_loop_spec (fuel : nat) :
  forall (k : Z) (h : t) (l : list Z),
    rep h l -> up_inv l k -> k < len l -> k <= Z.of_nat fuel ->
    exists h' l',
      _sift_up_loop fuel k h = Ret (tt, h') /\
      rep h' l' /\ heap l' /\ l' ≡ₚ l.
Proof.
  induction fuel as [|fuel IH]; intros k h l Hr Hinv Hk Hf.
  - exists h, l. simpl. destruct (k >? 0) eqn:E; [lia|].
    split; [reflexivity|]. split; [exact Hr|]. split; [|reflexivity].
    apply (up_inv_done l k Hinv). lia.
  - rewrite sift_up_loop_S. destruct (k >? 0) eqn:E.
    + assert (Hp : 0 <= (k - 1) / 2 < k) by zdiv.
      rewrite (bind_ret _ _ _ _ _ (data_get h l ((k - 1) / 2) Hr ltac:(lia))).
      rewrite (bind_ret _ _ _ _ _ (data_get h l k Hr ltac:(lia))).
      cbv [py_compare]. unfold bind at 1, ret at 1.
      destruct (le_op (at_ l ((k - 1) / 2)) (at_ l k)) eqn:Ecmp.
      * exists h, l.
        split; [reflexivity|]. split; [exact Hr|]. split; [|reflexivity].
        apply (up_inv_done l k Hinv). now right.
      * destruct (swap_spec h l ((k - 1) / 2) k Hr) as (h1 & E1 & R1);
          [lia|lia|].
        rewrite (bind_ret _ _ _ _ _ E1).
        destruct (IH ((k - 1) / 2) h1 _ R1) as (h2 & l2 & E2 & R2 & H2 & P2).
        -- apply up_inv_step; [assumption|lia|assumption].
        -- rewrite len_swap. lia.
        -- lia.
        -- exists h2, l2.
           split; [exact E2|]. split; [exact R2|]. split; [exact H2|].
           rewrite P2. apply swap_perm; lia.
    + exists h, l.
      split; [reflexivity|]. split; [exact Hr|]. split; [|reflexivity].
      apply (up_inv_done l k Hinv). lia.
Qed.

Lemma closer_spec (h : t) (l : list Z) (child smallest : Z) :
  rep h l -> 0 <= child -> 0 <= smallest < len l ->
  closer (len l) child smallest h =
    Ret ((child <? len l) && lt_op (at_ l child) (at_ l smallest), h).
Proof.
  intros Hr Hc Hs. unfold Heap.closer. destruct (child <? len l) eqn:E.
  - rewrite (bind_ret _ _ _ _ _ (data_get h l child Hr ltac:(lia))).
    rewrite (bind_ret _ _ _ _ _ (data_get h l smallest Hr Hs)).
    reflexivity.
  - reflexivity.
Qed.

Lemma pick_spec (l : list Z) (k : Z) :
  0 <= k < len l ->
  le (at_ l (pick l k)) (at_ l k) /\
  (forall c, c = k * 2 + 1 \/ c = k * 2 + 2 -> c < len l ->
             le (at_ l (pick l k)) (at_ l c)) /\
  (pick l k = k \/
   (pick l k = k * 2 + 1 \/ pick l k = k * 2 + 2) /\ pick l k < len l).
Proof.
  intros Hk. unfold Heap.pick.
  destruct (k * 2 + 1 <? len l) eqn:E1; simpl.
  - destruct (lt_op (at_ l (k * 2 + 1)) (at_ l k)) eqn:C1.
    + apply lt_op_true in C1.
      destruct (k * 2 + 2 <? len l) eqn:E2; simpl.
      * destruct (lt_op (at_ l (k * 2 + 2)) (at_ l (k * 2 + 1))) eqn:C2.
        -- apply lt_op_true in C2. split; [eauto|]. split; [|right; lia].
           intros c [->| ->] _; [exact C2|apply le_refl].
        -- apply lt_op_false in C2. split; [exact C1|]. split; [|right; lia].
           intros c [->| ->] _; [apply le_refl|exact C2].
      * split; [exact C1|]. split; [|right; lia].
        intros c [->| ->] Hc; [apply le_refl|lia].
    + apply lt_op_false in C1.
      destruct (k * 2 + 2 <? len l) eqn:E2; simpl.
      * destruct (lt_op (at_ l (k * 2 + 2)) (at_ l k)) eqn:C2.
        -- apply lt_op_true in C2. split; [exact C2|]. split; [|right; lia].
           intros c [->| ->] _; [eauto|apply le_refl].
        -- apply lt_op_false in C2. split; [apply le_refl|].
           split; [|now left].
           intros c [->| ->] _; assumption.
      * split; [apply le_refl|]. split; [|now left].
        intros c [->| ->] Hc; [exact C1|lia].
  - destruct (k * 2 + 2 <? len l) eqn:E2; [lia|]. simpl.
    split; [apply le_refl|]. split; [|now left].
    intros c [->| ->] Hc; lia.
Qed.

Lemma sift_down_loop_S (fuel : nat) (size idx : Z) :
  _sift_down_loop (S fuel) size idx =
    (b <- closer size (idx * 2 + 1) idx ;;
     let smallest := if b then idx * 2 + 1 else idx in
     b <- closer size (idx * 2 + 2) smallest ;;
     let smallest := if b then idx * 2 + 2 else smallest in
     if smallest =? idx then ret tt
     else
       _swap idx smallest ;;
       _sift_down_loop fuel size smallest).
Proof. reflexivity. Qed.

Lemma sift_down_loop_spec (fuel : nat) :
  forall (k : Z) (h : t) (l : list Z),
    rep h l -> down_inv l k -> 0 <= k < len l ->
    len l - k <= Z.of_nat fuel ->
    exists h' l',
      _sift_down_loop fuel (len l) k h = Ret (tt, h') /\
      rep h' l' /\ heap l' /\ l' ≡ₚ l.
Proof.
  induction fuel as [|fuel IH]; intros k h l Hr Hinv Hk Hf; [lia|].
  rewrite sift_down_loop_S.
  rewrite (bind_ret _ _ _ _ _
             (closer_spec h l (k * 2 + 1) k Hr ltac:(lia) Hk)).
  cbv zeta.
  assert (Hs1 : 0 <= (if (k * 2 + 1 <? len l) &&
                         lt_op (at_ l (k * 2 + 1)) (at_ l k)
                      then k * 2 + 1 else k) < len l).
  { destruct (k * 2 + 1 <? len l) eqn:E1; simpl; [|lia].
    destruct (lt_op _ _); lia. }
  rewrite (bind_ret _ _ _ _ _
             (closer_spec h l (k * 2 + 2) _ Hr ltac:(lia) Hs1)).
  fold (pick l k).
  destruct (pick_spec l k Hk) as (Hle & Hch & Hcase).
  destruct (pick l k =? k) eqn:E.
  - exists h, l.
    split; [reflexivity|]. split; [exact Hr|]. split; [|reflexivity].
    apply (down_inv_done l k Hinv). intros c Hc Hlen.
    replace k with (pick l k) at 1 by lia. now apply Hch.
  - destruct Hcase as [Hcase|[Hcase Hlt]]; [lia|].
    destruct (swap_spec h l k (pick l k) Hr) as (h1 & E1 & R1); [lia|lia|].
    rewrite (bind_ret _ _ _ _ _ E1).
    rewrite <- (len_swap l k (pick l k)).
    destruct (IH (pick l k) h1 _ R1) as (h2 & l2 & E2 & R2 & H2 & P2).
    + apply down_inv_step; auto. lia.
    + rewrite len_swap. lia.
    + rewrite len_swap. lia.
    + exists h2, l2.
      split; [exact E2|]. split; [exact R2|]. split; [exact H2|].
      rewrite P2. apply swap_perm; lia.
Qed.

Lemma peek_empty (h : t) :
  ArrayList._size (_data h) = 0 -> peek h = Ret (None, h).
Proof.
  intros H. destruct h as [a]. unfold peek, bind, data, on_field. simpl in *.
  unfold ArrayList.size, gets. now rewrite H.
Qed.

Lemma pop_empty (h : t) :
  ArrayList._size (_data h) = 0 -> pop h = Ret (None, h).
Proof.
  intros H. destruct h as [a]. unfold Heap.pop, bind, data, on_field. simpl in *.
  unfold ArrayList.size, gets. now rewrite H.
Qed.

Lemma peek_spec (h : t) (l : list Z) :
  rep h l -> 0 < len l -> peek h = Ret (Some (at_ l 0), h).
Proof.
  intros Hr Hl. unfold peek.
  rewrite (bind_ret _ _ _ _ _ (data_size h l Hr)).
  destruct (len l =? 0) eqn:E; [lia|].
  apply data_get; [exact Hr|lia].
Qed.

Lemma heap_push_spec (v : Z) (h : t) (l : list Z) :
  rep h l -> heap l ->
  exists h' l',
    push (Some v) h = Ret (tt, h') /\
    rep h' l' /\ heap l' /\ l' ≡ₚ v :: l.
Proof.
  intros [Hwf Hc] Hh.
  destruct (ArrayListFacts.add_spec (Some v) (_data h) Hwf) as (a & E & W & _ & C).
  assert (R1 : rep (mk a) (l ++ [v])).
  { split; [exact W|]. simpl. now rewrite C, Hc, fmap_app. }
  unfold Heap.push.
  rewrite (bind_ret _ _ _ _ _ (data_ret _ h _ _ E)).
  rewrite (bind_ret _ _ _ _ _ (data_size _ _ R1)).
  rewrite len_snoc. replace (len l + 1 - 1) with (len l) by lia.
  destruct (sift_up_loop_spec (Z.to_nat (len l)) (len l) _ _ R1)
    as (h2 & l2 & E2 & R2 & H2 & P2).
  - now apply heap_snoc.
  - rewrite len_snoc. lia.
  - unfold len. lia.
  - exists h2, l2.
    split; [exact E2|]. split; [exact R2|]. split; [exact H2|].
    rewrite P2. symmetry. apply Permutation_cons_append.
Qed.

Lemma heap_pop_spec (h : t) (l : list Z) :
  rep h l -> heap l -> 0 < len l ->
  exists h' l',
    pop h = Ret (Some (at_ l 0), h') /\
    rep h' l' /\ heap l' /\ l ≡ₚ at_ l 0 :: l'.
Proof.
  intros Hr Hh Hl. unfold Heap.pop.
  rewrite (bind_ret _ _ _ _ _ (data_size h l Hr)).
  destruct (len l =? 0) eqn:E; [lia|].
  rewrite (bind_ret _ _ _ _ _ (data_get h l 0 Hr ltac:(lia))).
  destruct l as [|y l _] using rev_ind; [unfold len in Hl; simpl in Hl; lia|].
  destruct Hr as [Hwf Hc]. rewrite fmap_app in Hc. simpl in Hc.
  destruct (ArrayListFacts.remove_last_spec _ _ (_data h) Hwf Hc)
    as (a & E1 & W1 & _ & C1).
  assert (R1 : rep (mk a) l) by (split; assumption).
  rewrite (bind_ret _ _ _ _ _ (data_ret _ h _ _ E1)).
  rewrite (bind_ret _ _ _ _ _ (data_size _ _ R1)).
  unfold when. destruct (len l >? 0) eqn:E2.
  - destruct (data_set _ l 0 y R1) as (h2 & E3 & R2); [lia|].
    unfold bind at 1 2. rewrite E3.
    unfold Heap._sift_down.
    rewrite (bind_ret _ _ _ _ _ (data_size _ _ R2)).
    destruct (sift_down_loop_spec (S (Z.to_nat (len (<[Z.to_nat 0 := y]> l))))
                0 h2 _ R2) as (h3 & l3 & E4 & R3 & H3 & P3).
    + apply heap_new_root; [exact Hh|lia].
    + rewrite len_insert. lia.
    + lia.
    + rewrite E4.
      exists h3, l3.
      split; [reflexivity|]. split; [exact R3|]. split; [exact H3|].
      rewrite P3. destruct l as [|x l]; [cbv in E2; discriminate|].
      change (at_ ((x :: l) ++ [y]) 0) with x. simpl.
      constructor. symmetry. apply Permutation_cons_append.
  - assert (l = []) as ->.
    { destruct l; [reflexivity|]. exfalso.
      rewrite Z.gtb_ltb in E2. apply Z.ltb_ge in E2.
      unfold len in E2. cbn [length] in E2. lia. }
    exists (mk a), [].
    split; [reflexivity|]. split; [exact R1|]. split; [apply heap_nil|].
    reflexivity.
Qed.

Lemma run_spec (ops : list op) :
  forall (h : t) (l : list Z),
    rep h l -> heap l ->
    exists outs h' l',
      run ops h = Ret (outs, h') /\
      rep h' l' /\ heap l' /\
      l ++ pushed ops ≡ₚ l' ++ omap id outs.
Proof.
  induction ops as [|[v|] ops IH]; intros h l Hr Hh; simpl.
  - exists [], h, l. auto.
  - destruct (heap_push_spec v h l Hr Hh) as (h1 & l1 & E1 & R1 & H1 & P1).
    destruct (IH h1 l1 R1 H1) as (outs & h2 & l2 & E2 & R2 & H2 & P2).
    exists outs, h2, l2. rewrite (bind_ret _ _ _ _ _ E1).
    split; [exact E2|]. split; [exact R2|]. split; [exact H2|].
    rewrite <- P2, P1. simpl. symmetry. apply Permutation_middle.
  - destruct (decide (len l = 0)) as [Hz|Hnz].
    + assert (E1 : pop h = Ret (None, h)).
      { apply pop_empty. now rewrite (rep_size h l Hr). }
      destruct (IH h l Hr Hh) as (outs & h2 & l2 & E2 & R2 & H2 & P2).
      exists (None :: outs), h2, l2. rewrite (bind_ret _ _ _ _ _ E1).
      rewrite (bind_ret _ _ _ _ _ E2). auto.
    + destruct (heap_pop_spec h l Hr Hh) as (h1 & l1 & E1 & R1 & H1 & P1).
      { unfold len in *. lia. }
      destruct (IH h1 l1 R1 H1) as (outs & h2 & l2 & E2 & R2 & H2 & P2).
      exists (Some (at_ l 0) :: outs), h2, l2.
      rewrite (bind_ret _ _ _ _ _ E1). rewrite (bind_ret _ _ _ _ _ E2).
      split; [reflexivity|]. split; [exact R2|]. split; [exact H2|].
      simpl. rewrite <- Permutation_middle, <- P2.
      now apply (Permutation_app_tail (pushed ops)) in P1.
Qed.

Lemma heap_push_all (vs : list Z) :
  forall (h : t) (l : list Z),
    rep h l -> heap l ->
    exists h' l',
      push_all vs h = Ret (tt, h') /\
      rep h' l' /\ heap l' /\ l' ≡ₚ l ++ vs.
Proof.
  unfold Heap.push_all.
  induction vs as [|v vs IH]; intros h l Hr Hh; simpl.
  - exists h, l. rewrite app_nil_r. auto.
  - destruct (heap_push_spec v h l Hr Hh) as (h1 & l1 & E1 & R1 & H1 & P1).
    destruct (IH h1 l1 R1 H1) as (h2 & l2 & E2 & R2 & H2 & P2).
    exists h2, l2. rewrite (bind_ret _ _ _ _ _ E1).
    split; [exact E2|]. split; [exact R2|]. split; [exact H2|].
    rewrite P2, P1. simpl. apply Permutation_middle.
Qed.

Lemma heap_pop_all (n : nat) :
  forall (h : t) (l : list Z),
    rep h l -> heap l -> length l = n ->
    exists out h',
      repeat_call n pop h = Ret (Some <$> out, h') /\
      rep h' [] /\ out ≡ₚ l /\ StronglySorted le out.
Proof.
  induction n as [|n IH]; intros h l Hr Hh Hn; simpl.
  - destruct l; [|discriminate]. exists [], h.
    split; [reflexivity|]. split; [exact Hr|]. split; [reflexivity|].
    constructor.
  - destruct (heap_pop_spec h l Hr Hh) as (h1 & l1 & E1 & R1 & H1 & P1).
    { unfold len. lia. }
    destruct (IH h1 l1 R1 H1) as (out & h2 & E2 & R2 & P2 & S2).
    { apply Permutation_length in P1. simpl in P1. lia. }
    exists (at_ l 0 :: out), h2.
    rewrite (bind_ret _ _ _ _ _ E1). rewrite (bind_ret _ _ _ _ _ E2).
    split; [reflexivity|]. split; [exact R2|].
    split; [rewrite P2; now symmetry|].
    constructor; [exact S2|].
    apply Forall_forall. intros x Hx.
    assert (Hin : x ∈ l) by (rewrite P1, <- P2; now right).
    apply list_elem_of_lookup in Hin as [i Hi].
    pose proof (lookup_lt_Some _ _ _ Hi) as Hlt.
    replace x with (at_ l (Z.of_nat i)).
    + apply heap_root; [exact Hh|unfold len; lia].
    + unfold at_. now rewrite Nat2Z.id, Hi.
Qed.

Lemma elem_of_at (l : list Z) (x : Z) :
  x ∈ l -> exists i, 0 <= i < len l /\ at_ l i = x.
Proof.
  intros Hin. apply list_elem_of_lookup in Hin as [i Hi].
  pose proof (lookup_lt_Some _ _ _ Hi) as Hlt.
  exists (Z.of_nat i). split; [unfold len; lia|].
  unfold at_. now rewrite Nat2Z.id, Hi.
Qed.

(** After any operations on a new heap, [peek] returns an element that
    no other element of the heap comes before. *)
Lemma run_peek (ops : list op) :
  exists outs h l,
    run ops __init__ = Ret (outs, h) /\
    rep h l /\
    pushed ops ≡ₚ l ++ omap id outs /\
    (l <> [] ->
     exists m, peek h = Ret (Some m, h) /\ m ∈ l /\
               forall x, x ∈ l -> le m x).
Proof.
  destruct (run_spec ops __init__ [] heap_rep_init heap_nil)
    as (outs & h & l & E & R & H & P).
  exists outs, h, l.
  split; [exact E|]. split; [exact R|]. split; [exact P|].
  intros Hne.
  assert (Hl : 0 < len l) by (destruct l; [done|unfold len; simpl; lia]).
  exists (at_ l 0). split; [now apply peek_spec|]. split.
  - apply list_elem_of_lookup. exists (Z.to_nat 0). apply lookup_at. lia.
  - intros x Hx. apply elem_of_at in Hx as (i & Hi & <-).
    now apply heap_root.
Qed.

(** Pushing [vs] onto a new heap and popping as many times yields [vs]
    in the order of the heap. *)
Lemma push_pop_sorted (vs : list Z) :
  exists out h,
    (push_all vs ;; repeat_call (length vs) pop) __init__ =
      Ret (Some <$> out, h) /\
    out ≡ₚ vs /\ StronglySorted le out.
Proof.
  destruct (heap_push_all vs __init__ [] heap_rep_init heap_nil)
    as (h1 & l1 & E1 & R1 & H1 & P1). simpl in P1.
  destruct (heap_pop_all (length vs) h1 l1 R1 H1)
    as (out & h2 & E2 & _ & P2 & S2).
  { now rewrite P1. }
  exists out, h2. rewrite (bind_ret _ _ _ _ _ E1).
  split; [exact E2|]. split; [now rewrite P2|exact S2].
Qed.

End Facts.
End HeapFacts.

Module MinHeapFacts.
Lemma leb_total (x y : Z) : Heap.le Z.leb x y \/ Heap.le Z.leb y x.
Proof. unfold Heap.le. lia. Qed.

Lemma leb_trans (x y z : Z) :
  Heap.le Z.leb x y -> Heap.le Z.leb y z -> Heap.le Z.leb x z.
Proof. unfold Heap.le. lia. Qed.

Lemma ltb_spec (x y : Z) : (x <? y) = negb (y <=? x).
Proof. apply Z.ltb_antisym. Qed.
End MinHeapFacts.

Module MaxHeapFacts.
Lemma geb_total (x y : Z) : Heap.le Z.geb x y \/ Heap.le Z.geb y x.
Proof. unfold Heap.le. lia. Qed.

Lemma geb_trans (x y z : Z) :
  Heap.le Z.geb x y -> Heap.le Z.geb y z -> Heap.le Z.geb x z.
Proof. unfold Heap.le. lia. Qed.

Lemma gtb_spec (x y : Z) : (x >? y) = negb (y >=? x).
Proof. rewrite Z.gtb_ltb, Z.geb_leb. apply Z.ltb_antisym. Qed.
End MaxHeapFacts.

(** * The properties of the specification *)

(** C1: after any interleaved sequence of [push] and [pop] on a new
    [MinHeap] (resp. [MaxHeap]), the heap holds the pushed integers that the
    pops have not returned, and when it is not empty [peek] returns one of
    them that is a minimum (resp. maximum) of them all. *)
Theorem heap_peek_extremum (ops : list Heap.op) :
  (exists outs h l,
     MinHeap.run ops MinHeap.__init__ = Ret (outs, h) /\
     Heap.rep h l /\
     Heap.pushed ops ≡ₚ l ++ omap id outs /\
     (l <> [] ->
      exists m, MinHeap.peek h = Ret (Some m, h) /\ m ∈ l /\
                forall x, x ∈ l -> m <= x)) /\
  (exists outs h l,
     MaxHeap.run ops MaxHeap.__init__ = Ret (outs, h) /\
     Heap.rep h l /\
     Heap.pushed ops ≡ₚ l ++ omap id outs /\
     (l <> [] ->
      exists m, MaxHeap.peek h = Ret (Some m, h) /\ m ∈ l /\
                forall x, x ∈ l -> x <= m)).
Proof.
  split.
  - destruct (HeapFacts.run_peek Z.leb Z.ltb MinHeapFacts.leb_total
                MinHeapFacts.leb_trans MinHeapFacts.ltb_spec ops)
      as (outs & h & l & E & R & P & Hm).
    exists outs, h, l. repeat (split; [assumption|]).
    intros Hne. destruct (Hm Hne) as (m & Em & Hin & Hle).
    exists m. repeat (split; [assumption|]).
    intros x Hx. apply Hle in Hx. unfold Heap.le in Hx. lia.
  - destruct (HeapFacts.run_peek Z.geb Z.gtb MaxHeapFacts.geb_total
                MaxHeapFacts.geb_trans MaxHeapFacts.gtb_spec ops)
      as (outs & h & l & E & R & P & Hm).
    exists outs, h, l. repeat (split; [assumption|]).
    intros Hne. destruct (Hm Hne) as (m & Em & Hin & Hle).
    exists m. repeat (split; [assumption|]).
    intros x Hx. apply Hle in Hx. unfold Heap.le in Hx. lia.
Qed.

Lemma heap_peek_extremum_witness :
  let ops := [Heap.Push 5; Heap.Push 3; Heap.Pop; Heap.Push 8] in
  (exists outs h l,
     MinHeap.run ops MinHeap.__init__ = Ret (outs, h) /\
     Heap.rep h l /\ l <> [] /\
     exists m, MinHeap.peek h = Ret (Some m, h) /\ m ∈ l /\
               forall x, x ∈ l -> m <= x) /\
  (exists outs h l,
     MaxHeap.run ops MaxHeap.__init__ = Ret (outs, h) /\
     Heap.rep h l /\ l <> [] /\
     exists m, MaxHeap.peek h = Ret (Some m, h) /\ m ∈ l /\
               forall x, x ∈ l -> x <= m).
Proof.
  intros ops.
  destruct (heap_peek_extremum ops)
    as [(o1 & h1 & l1 & E1 & R1 & P1 & M1) (o2 & h2 & l2 & E2 & R2 & P2 & M2)].
  assert (N1 : l1 <> []).
  { pose proof E1 as E. vm_compute in E. injection E as <- _. intros ->.
    apply Permutation_length in P1. discriminate P1. }
  assert (N2 : l2 <> []).
  { pose proof E2 as E. vm_compute in E. injection E as <- _. intros ->.
    apply Permutation_length in P2. discriminate P2. }
  split.
  - exists o1, h1, l1. split; [exact E1|]. split; [exact R1|].
    split; [exact N1|]. exact (M1 N1).
  - exists o2, h2, l2. split; [exact E2|]. split; [exact R2|].
    split; [exact N2|]. exact (M2 N2).
Defined.

(** C2: [add] called once per value of [vs] on a new [ArrayList] of any
    requested capacity returns every time, leaves [size()] equal to the
    number of values, and makes [get(i)] return the [i]-th of them. *)
Theorem arraylist_add_all (V : Type) (capacity : Z) (vs : list (option V)) :
  exists a,
    for_each ArrayList.add vs (ArrayList.__init__ capacity) = Ret (tt, a) /\
    ArrayList.size a = Ret (Z.of_nat (length vs), a) /\
    forall (i : nat) (v : option V),
      vs !! i = Some v -> ArrayList.get (Z.of_nat i) a = Ret (v, a).
Proof.
  assert (H : forall (vs : list (option V)) (a : ArrayList.t V),
             ArrayList.wf a ->
             exists a', for_each ArrayList.add vs a = Ret (tt, a') /\
                        ArrayList.wf a' /\
                        ArrayList.contents a' = ArrayList.contents a ++ vs).
  { clear. induction vs as [|v vs IH]; intros a Hwf; simpl.
    - exists a. rewrite app_nil_r. auto.
    - destruct (ArrayListFacts.add_spec v a Hwf) as (a1 & E1 & W1 & _ & C1).
      destruct (IH a1 W1) as (a2 & E2 & W2 & C2).
      exists a2. rewrite (bind_ret _ _ _ _ _ E1).
      split; [exact E2|]. split; [exact W2|].
      now rewrite C2, C1, <- app_assoc. }
  destruct (H vs _ (ArrayListFacts.wf_init capacity)) as (a & E & W & C).
  rewrite ArrayListFacts.contents_init in C. simpl in C.
  exists a. split; [exact E|]. split.
  - unfold ArrayList.size, gets.
    now rewrite <- (ArrayListFacts.length_contents a W), C.
  - intros i v Hi. apply ArrayListFacts.get_ok; [lia|].
    now rewrite Nat2Z.id, C.
Qed.

Lemma arraylist_add_all_witness :
  exists a,
    for_each ArrayList.add [Some 10; Some 20; Some 30; Some 40; Some 50]
      (ArrayList.__init__ 1) = Ret (tt, a) /\
    ArrayList.size a = Ret (5, a) /\
    ArrayList.get 4 a = Ret (Some 50, a).
Proof.
  destruct (arraylist_add_all Z 1
              [Some 10; Some 20; Some 30; Some 40; Some 50])
    as (a & Ea & Hsize & Hget).
  exists a. split; [exact Ea|]. split; [exact Hsize|].
  apply (Hget 4%nat). reflexivity.
Defined.

(** C3: the values [vs] pushed in order onto a new [Stack], then as many
    pops, yield [vs] reversed. *)
Theorem stack_lifo (V : Type) (vs : list (option V)) :
  exists s,
    (for_each Stack.push vs ;; repeat_call (length vs) Stack.pop)
      Stack.__init__ = Ret (reverse vs, s).
Proof.
  destruct (StackFacts.stack_push_all vs _ [] StackFacts.stack_rep_init)
    as (s1 & E1 & R1).
  destruct (StackFacts.stack_pop_all vs s1 R1) as (s2 & E2 & _).
  exists s2. now rewrite (bind_ret _ _ _ _ _ E1).
Qed.

(** C4: the values [vs] enqueued in order onto a new [Queue], then as many
    dequeues, yield [vs] in the same order. *)
Theorem queue_fifo (V : Type) (h : list (LinkedList.ListNode V))
  (vs : list (option V)) :
  exists s,
    (for_each Queue.enqueue vs ;; repeat_call (length vs) Queue.dequeue)
      (h, Queue.__init__) = Ret (vs, s).
Proof.
  destruct (QueueFacts.enqueue_all_spec vs _ [] (QueueFacts.queue_rep_init h))
    as (s1 & l & E1 & R1 & Hl).
  destruct (QueueFacts.dequeue_all_spec l s1 R1) as (s2 & E2 & _).
  exists s2. rewrite (bind_ret _ _ _ _ _ E1).
  rewrite <- Hl at 1. rewrite length_fmap. now rewrite E2, Hl.
Qed.

(** C5: distinct integers [vs] pushed onto a new [MinHeap] (resp.
    [MaxHeap]), then as many pops, yield the integers of [vs] in ascending
    (resp. descending) order. *)
Theorem heap_sorts (vs : list Z) :
  NoDup vs ->
  (exists out h,
     (MinHeap.push_all vs ;; repeat_call (length vs) MinHeap.pop)
       MinHeap.__init__ = Ret (Some <$> out, h) /\
     out ≡ₚ vs /\ StronglySorted Z.lt out) /\
  (exists out h,
     (MaxHeap.push_all vs ;; repeat_call (length vs) MaxHeap.pop)
       MaxHeap.__init__ = Ret (Some <$> out, h) /\
     out ≡ₚ vs /\ StronglySorted Z.gt out).
Proof.
  intros Hnd. split.
  - destruct (HeapFacts.push_pop_sorted Z.leb Z.ltb MinHeapFacts.leb_total
                MinHeapFacts.leb_trans MinHeapFacts.ltb_spec vs)
      as (out & h & E & P & Hs).
    exists out, h. split; [exact E|]. split; [exact P|].
    apply (StronglySorted_strict (Heap.le Z.leb)); [|now rewrite P|exact Hs].
    unfold Heap.le. intros x y Hxy Hne. lia.
  - destruct (HeapFacts.push_pop_sorted Z.geb Z.gtb MaxHeapFacts.geb_total
                MaxHeapFacts.geb_trans MaxHeapFacts.gtb_spec vs)
      as (out & h & E & P & Hs).
    exists out, h. split; [exact E|]. split; [exact P|].
    apply (StronglySorted_strict (Heap.le Z.geb)); [|now rewrite P|exact Hs].
    unfold Heap.le. intros x y Hxy Hne. lia.
Qed.

Lemma heap_sorts_witness :
  NoDup [5; 3; 8; 1] /\
  (exists out h,
     (MinHeap.push_all [5; 3; 8; 1] ;; repeat_call 4 MinHeap.pop)
       MinHeap.__init__ = Ret (Some <$> out, h) /\
     out ≡ₚ [5; 3; 8; 1] /\ StronglySorted Z.lt out) /\
  (exists out h,
     (MaxHeap.push_all [5; 3; 8; 1] ;; repeat_call 4 MaxHeap.pop)
       MaxHeap.__init__ = Ret (Some <$> out, h) /\
     out ≡ₚ [5; 3; 8; 1] /\ StronglySorted Z.gt out).
Proof.
  assert (H : NoDup [5; 3; 8; 1]).
  { apply (bool_decide_unpack _). vm_compute. exact I. }
  split; [exact H|]. exact (heap_sorts [5; 3; 8; 1] H).
Defined.

(** C6: on an [ArrayList] of logical size [S], in any state it reaches,
    [get(i)] and [set(i, v)] raise [IndexError] exactly when [i < 0] or
    [i >= S], and return otherwise; so [get(-1)] and [get(size())] raise on
    every array. *)
Theorem arraylist_bounds (V : Type) (a : ArrayList.t V) (i : Z)
  (v : option V) :
  ArrayList.reachable a ->
  (ArrayList.get i a = Raise IndexError <->
   i < 0 \/ i >= ArrayList._size a) /\
  (ArrayList.set i v a = Raise IndexError <->
   i < 0 \/ i >= ArrayList._size a) /\
  (0 <= i < ArrayList._size a ->
   (exists x, ArrayList.get i a = Ret (x, a)) /\
   (exists a', ArrayList.set i v a = Ret (tt, a'))) /\
  ArrayList.get (-1) a = Raise IndexError /\
  ArrayList.get (ArrayList._size a) a = Raise IndexError.
Proof.
  intros Hwf. apply ArrayListFacts.reachable_wf in Hwf.
  assert (Hin : 0 <= i < ArrayList._size a ->
                (exists x, ArrayList.get i a = Ret (x, a)) /\
                (exists a', ArrayList.set i v a = Ret (tt, a'))).
  { intros Hi. split.
    - destruct (lookup_lt_is_Some_2 (ArrayList.contents a) (Z.to_nat i))
        as [x Hx].
      + pose proof (ArrayListFacts.length_contents a Hwf). lia.
      + exists x. apply ArrayListFacts.get_ok; [lia|exact Hx].
    - destruct (ArrayListFacts.set_spec i v a Hwf Hi) as (a' & E & _).
      now exists a'. }
  split; [|split; [|split; [exact Hin|split]]].
  - split; [|apply ArrayListFacts.get_raises].
    intros E. destruct (decide (0 <= i < ArrayList._size a)) as [Hi|Hi]; [|lia].
    destruct (Hin Hi) as [[x Ex] _]. congruence.
  - split; [|apply ArrayListFacts.set_raises].
    intros E. destruct (decide (0 <= i < ArrayList._size a)) as [Hi|Hi]; [|lia].
    destruct (Hin Hi) as [_ [a' Ea]]. congruence.
  - apply ArrayListFacts.get_raises. lia.
  - apply ArrayListFacts.get_raises. lia.
Qed.

Lemma arraylist_bounds_witness :
  let a := ArrayList.mk 4 2 [Some 7; Some 9; None; None] in
  ArrayList.reachable a /\
  (ArrayList.get 1 a = Raise IndexError <->
   1 < 0 \/ 1 >= ArrayList._size a) /\
  (ArrayList.set 1 (Some 5) a = Raise IndexError <->
   1 < 0 \/ 1 >= ArrayList._size a) /\
  (0 <= 1 < ArrayList._size a ->
   (exists x, ArrayList.get 1 a = Ret (x, a)) /\
   (exists a', ArrayList.set 1 (Some 5) a = Ret (tt, a'))) /\
  ArrayList.get (-1) a = Raise IndexError /\
  ArrayList.get (ArrayList._size a) a = Raise IndexError.
Proof.
  intros a.
  assert (H : ArrayList.reachable a).
  { apply (ArrayList.reach_add (Some 9)
             (ArrayList.mk 4 1 [Some 7; None; None; None]));
      [|reflexivity].
    apply (ArrayList.reach_add (Some 7) (ArrayList.__init__ 4));
      [|reflexivity].
    apply ArrayList.reach_init. }
  split; [exact H|]. exact (arraylist_bounds Z a 1 (Some 5) H).
Defined.

(** C7: on an empty container, [remove_last] of [ArrayList],
    [remove_first] of [LinkedList], [pop] and [peek] of [Stack], [dequeue]
    of [Queue], and [pop] and [peek] of [MinHeap] and [MaxHeap] return
    [None]; none raises. *)
Theorem empty_container_no_throw (V : Type) :
  (forall a : ArrayList.t V,
     ArrayList._size a = 0 ->
     exists a', ArrayList.remove_last a = Ret (None, a')) /\
  (forall s : LinkedList.state V,
     LinkedList.reachable s -> LinkedList._size (snd s) = 0 ->
     exists s', LinkedList.remove_first s = Ret (None, s')) /\
  (forall s : Stack.t V,
     ArrayList._size (Stack._items s) = 0 ->
     (exists s', Stack.pop s = Ret (None, s')) /\
     (exists s', Stack.peek s = Ret (None, s'))) /\
  (forall s : Queue.state V,
     LinkedList.reachable (fst s, Queue._items (snd s)) ->
     LinkedList._size (Queue._items (snd s)) = 0 ->
     exists s', Queue.dequeue s = Ret (None, s')) /\
  (forall h : Heap.t,
     ArrayList._size (Heap._data h) = 0 ->
     (exists h', MinHeap.pop h = Ret (None, h')) /\
     (exists h', MinHeap.peek h = Ret (None, h')) /\
     (exists h', MaxHeap.pop h = Ret (None, h')) /\
     (exists h', MaxHeap.peek h = Ret (None, h'))).
Proof.
  assert (Hll : forall s : LinkedList.state V,
            LinkedList.reachable s -> LinkedList._size (snd s) = 0 ->
            LinkedList.remove_first s = Ret (None, s)).
  { intros s Hs Hz. apply LinkedListFacts.remove_first_empty.
    destruct (LinkedListFacts.reachable_inv s Hs) as (l & Hseg & _ & Hsz & _).
    rewrite Hz in Hsz. destruct l; [exact Hseg|simpl in Hsz; lia]. }
  split; [|split; [|split; [|split]]].
  - intros a Hz. exists a. now apply ArrayListFacts.remove_last_empty.
  - intros s Hs Hz. exists s. now apply Hll.
  - intros [a] Hz. simpl in Hz. split; exists (Stack.mk a).
    + apply (on_field_ret Stack._items Stack.mk).
      now apply ArrayListFacts.remove_last_empty.
    + unfold Stack.peek, bind, Stack.items, on_field, ArrayList.size, gets.
      simpl. now rewrite Hz.
  - intros [h [q]] Hs Hz. simpl in *. exists (h, Queue.mk q).
    unfold Queue.dequeue, Queue.items, on_field. cbn [fst snd Queue._items].
    now rewrite (Hll (h, q) Hs Hz).
  - intros h Hz.
    split; [exists h; now apply HeapFacts.pop_empty|].
    split; [exists h; now apply HeapFacts.peek_empty|].
    split; [exists h; now apply HeapFacts.pop_empty|].
    exists h; now apply HeapFacts.peek_empty.
Qed.

Lemma empty_container_no_throw_witness :
  (exists a', ArrayList.remove_last (@ArrayList.new Z) = Ret (None, a')) /\
  (exists s', LinkedList.remove_first (V := Z) ([], LinkedList.__init__) =
              Ret (None, s')) /\
  ((exists s', Stack.pop (@Stack.__init__ Z) = Ret (None, s')) /\
   (exists s', Stack.peek (@Stack.__init__ Z) = Ret (None, s'))) /\
  (exists s', Queue.dequeue (V := Z) ([], Queue.__init__) = Ret (None, s')) /\
  ((exists h', MinHeap.pop MinHeap.__init__ = Ret (None, h')) /\
   (exists h', MinHeap.peek MinHeap.__init__ = Ret (None, h')) /\
   (exists h', MaxHeap.pop MaxHeap.__init__ = Ret (None, h')) /\
   (exists h', MaxHeap.peek MaxHeap.__init__ = Ret (None, h'))).
Proof.
  destruct (empty_container_no_throw Z) as (Ha & Hl & Hs & Hq & Hh).
  split; [apply Ha; reflexivity|].
  split; [apply Hl; [apply LinkedList.reach_init|reflexivity]|].
  split; [apply Hs; reflexivity|].
  split; [apply Hq; [apply LinkedList.reach_init|reflexivity]|].
  apply Hh; reflexivity.
Defined.

(** C8: the constructor of [ArrayList] yields an empty array whose
    capacity is the requested one when that is at least 1, and 1 otherwise;
    without an argument the capacity is 4. *)
Theorem arraylist_init_capacity (V : Type) (capacity : Z) :
  let a := @ArrayList.__init__ V capacity in
  ArrayList._size a = 0 /\
  ArrayList.contents a = [] /\
  ArrayList._capacity a = (if decide (1 <= capacity) then capacity else 1) /\
  Z.of_nat (length (ArrayList._data a)) = ArrayList._capacity a /\
  @ArrayList.new V = ArrayList.__init__ ArrayList.default_capacity /\
  ArrayList._capacity (@ArrayList.new V) = ArrayList.default_capacity /\
  1 <= ArrayList.default_capacity.
Proof.
  simpl. split; [reflexivity|]. split; [reflexivity|].
  split; [|split; [|split; [reflexivity|split; [reflexivity|]]]].
  - destruct (decide (1 <= capacity)); destruct (capacity <? 1) eqn:E; lia.
  - unfold py_repeat. rewrite length_replicate.
    destruct (capacity <? 1) eqn:E; lia.
  - unfold ArrayList.default_capacity. lia.
Qed.

(** C9: in every state a [LinkedList] reaches from its construction by
    [add_last] and [remove_first], the node at [tail] has no [next], and
    [head] is [None] exactly when the size is 0. *)
Theorem linked_list_invariant (V : Type) (s : LinkedList.state V) :
  LinkedList.reachable s ->
  (forall t, LinkedList.tail (snd s) = Some t ->
             exists n, fst s !! t = Some n /\ LinkedList.next n = None) /\
  (LinkedList.head (snd s) = None <-> LinkedList._size (snd s) = 0).
Proof.
  intros Hs.
  destruct (LinkedListFacts.reachable_inv s Hs) as (l & Hseg & Htl & Hsz & _).
  split.
  - intros t Ht. rewrite Ht in Htl. symmetry in Htl.
    apply last_Some in Htl as [l' Hl'].
    destruct l as [|[a v] l _] using rev_ind.
    + destruct l'; discriminate.
    + rewrite fmap_app in Hl'. simpl in Hl'.
      apply app_inj_tail in Hl' as [_ ->].
      apply LinkedListFacts.lseg_app in Hseg as (m & _ & H2). simpl in H2.
      destruct H2 as (_ & nx & Ha & ->). exists (LinkedList.mkNode v None).
      split; [exact Ha|reflexivity].
  - destruct l as [|[a v] l]; simpl in *.
    + rewrite Hseg, Hsz. split; reflexivity.
    + destruct Hseg as [-> _]. rewrite Hsz. split; [discriminate|lia].
Qed.

Lemma linked_list_invariant_witness :
  let s : LinkedList.state Z :=
    ([LinkedList.mkNode (Some 7) None],
     LinkedList.mk (Some 0%nat) (Some 0%nat) 1) in
  LinkedList.reachable s /\
  (forall t, LinkedList.tail (snd s) = Some t ->
             exists n, fst s !! t = Some n /\ LinkedList.next n = None) /\
  (LinkedList.head (snd s) = None <-> LinkedList._size (snd s) = 0).
Proof.
  intros s.
  assert (H : LinkedList.reachable s).
  { apply (LinkedList.reach_add_last (Some 7) ([], LinkedList.__init__));
      [apply LinkedList.reach_init|reflexivity]. }
  split; [exact H|]. exact (linked_list_invariant Z s H).
Defined.

(** C10: [remove_last] of [ArrayList], [remove_first] of [LinkedList] and
    [pop] of [MinHeap] and [MaxHeap] on an empty container return [None]
    and leave the container as it was, so whatever runs next runs as if
    the call had not been made. *)
Theorem remove_on_empty_unchanged (V : Type) :
  (forall a : ArrayList.t V,
     ArrayList._size a = 0 ->
     ArrayList.remove_last a = Ret (None, a) /\
     forall A (m : M (ArrayList.t V) A), (ArrayList.remove_last ;; m) a = m a) /\
  (forall s : LinkedList.state V,
     LinkedList.reachable s -> LinkedList._size (snd s) = 0 ->
     LinkedList.remove_first s = Ret (None, s) /\
     forall A (m : M (LinkedList.state V) A),
       (LinkedList.remove_first ;; m) s = m s) /\
  (forall h : Heap.t,
     ArrayList._size (Heap._data h) = 0 ->
     MinHeap.pop h = Ret (None, h) /\
     MaxHeap.pop h = Ret (None, h) /\
     forall A (m : M Heap.t A),
       (MinHeap.pop ;; m) h = m h /\ (MaxHeap.pop ;; m) h = m h).
Proof.
  split; [|split].
  - intros a Hz. pose proof (ArrayListFacts.remove_last_empty a Hz) as E.
    split; [exact E|]. intros A m. now rewrite (bind_ret _ _ _ _ _ E).
  - intros s Hs Hz.
    assert (E : LinkedList.remove_first s = Ret (None, s)).
    { apply LinkedListFacts.remove_first_empty.
      destruct (LinkedListFacts.reachable_inv s Hs) as (l & Hseg & _ & Hsz & _).
      rewrite Hz in Hsz. destruct l; [exact Hseg|simpl in Hsz; lia]. }
    split; [exact E|]. intros A m. now rewrite (bind_ret _ _ _ _ _ E).
  - intros h Hz.
    pose proof (HeapFacts.pop_empty Z.ltb h Hz) as E1.
    pose proof (HeapFacts.pop_empty Z.gtb h Hz) as E2.
    split; [exact E1|]. split; [exact E2|]. intros A m.
    now rewrite (bind_ret _ _ _ _ _ E1), (bind_ret _ _ _ _ _ E2).
Qed.

Lemma remove_on_empty_unchanged_witness :
  ArrayList.remove_last (@ArrayList.new Z) = Ret (None, ArrayList.new) /\
  LinkedList.remove_first (V := Z) ([], LinkedList.__init__) =
    Ret (None, ([], LinkedList.__init__)) /\
  MinHeap.pop MinHeap.__init__ = Ret (None, MinHeap.__init__) /\
  MaxHeap.pop MaxHeap.__init__ = Ret (None, MaxHeap.__init__).
Proof.
  destruct (remove_on_empty_unchanged Z) as (Ha & Hl & Hh).
  split; [apply Ha; reflexivity|].
  split; [apply Hl; [apply LinkedList.reach_init|reflexivity]|].
  split; apply Hh; reflexivity.
Defined.

(** * The scenarios of the specification, run on the model *)

Example minheap_scenario :
  result ((MinHeap.push_all [5; 3; 8; 1] ;; repeat_call 4 MinHeap.pop)
            MinHeap.__init__)
  = Ret [Some 1; Some 3; Some 5; Some 8].
Proof. vm_compute. reflexivity. Qed.

Example maxheap_scenario :
  result ((MaxHeap.push_all [5; 3; 8; 1] ;; repeat_call 5 MaxHeap.pop)
            MaxHeap.__init__)
  = Ret [Some 8; Some 5; Some 3; Some 1; None].
Proof. vm_compute. reflexivity. Qed.

Example queue_scenario :
  result ((for_each Queue.enqueue [Some 1%nat; Some 2%nat; Some 3%nat] ;;
           repeat_call 3 Queue.dequeue) ([], Queue.__init__))
  = Ret [Some 1%nat; Some 2%nat; Some 3%nat].
Proof. vm_compute. reflexivity. Qed.

Example arraylist_scenario :
  (for_each ArrayList.add [Some 10; Some 20; Some 30; Some 40; Some 50] ;;
   n <- ArrayList.size ;;
   x <- ArrayList.get 4 ;;
   l <- ArrayList.to_list ;;
   ret (n, x, l)) (ArrayList.__init__ 1)
  = Ret ((5, Some 50, [Some 10; Some 20; Some 30; Some 40; Some 50]),
         ArrayList.mk 8 5
           [Some 10; Some 20; Some 30; Some 40; Some 50; None; None; None]).
Proof. vm_compute. reflexivity. Qed.

Example stack_scenario :
  result ((for_each Stack.push [Some 1; None; Some 3] ;;
           top <- Stack.peek ;;
           xs <- repeat_call 4 Stack.pop ;;
           ret (top, xs)) Stack.__init__)
  = Ret (Some 3, [Some 3; None; Some 1; None]).
Proof. vm_compute. reflexivity. Qed.

Example heap_of_none_scenario :
  result ((MinHeap.push None ;; MinHeap.push (Some 1)) MinHeap.__init__)
  = Raise TypeError.
Proof. vm_compute. reflexivity. Qed.

(** * Further properties of the library and of its callers *)

Lemma StronglySorted_mono {A} (R S : relation A) (l : list A) :
  (forall x y, R x y -> S x y) -> StronglySorted R l -> StronglySorted S l.
Proof.
  intros HRS Hs. induction Hs as [|x l Hs IH Hx]; constructor.
  - exact IH.
  - eapply Forall_impl; [exact Hx|]. intros y. apply HRS.
Qed.

Module ArrayListMore.
Section Facts.
Import ArrayList.
Context {V : Type}.
Local Abbreviation cell := (option V).
Local Abbreviation t := (ArrayList.t V).

Ltac run :=
  cbv [bind ret gets modify when raise stuck
       put_capacity put_size put_data]; simpl.

(** The copy loop of [_grow] fills the first [_size] slots of the new
    buffer and leaves the others as they are. *)
Lemma grow_loop_exact (fuel : nat) :
  forall (new_data : list cell) (i : Z) (a : t),
    0 <= i ->
    _size a - i <= Z.of_nat fuel ->
    _size a <= Z.of_nat (length (_data a)) ->
    _size a <= Z.of_nat (length new_data) ->
    take (Z.to_nat i) new_data = take (Z.to_nat i) (_data a) ->
    _grow_loop fuel new_data i a =
      Ret (contents a ++ drop (Z.to_nat (_size a)) new_data, a).
Proof.
  assert (Hdone : forall (nd : list cell) (i : Z) (a : t),
             _size a <= i -> 0 <= i ->
             take (Z.to_nat i) nd = take (Z.to_nat i) (_data a) ->
             nd = contents a ++ drop (Z.to_nat (_size a)) nd).
  { intros nd i a Hle Hi Ht. unfold contents.
    rewrite <- (take_drop (Z.to_nat (_size a)) nd) at 1. f_equal.
    replace (Z.to_nat (_size a))
      with (Z.to_nat (_size a) `min` Z.to_nat i)%nat by lia.
    rewrite <- !take_take. now rewrite Ht. }
  induction fuel as [|fuel IH]; intros nd i a Hi Hf Hd Hn Ht.
  - simpl. run. destruct (i <? _size a) eqn:E; [lia|].
    do 2 f_equal. apply (Hdone nd i a); [lia|lia|exact Ht].
  - simpl. run. destruct (i <? _size a) eqn:E.
    + destruct (lookup_lt_is_Some_2 (_data a) (Z.to_nat i)) as [x Hx]; [lia|].
      rewrite (ArrayListFacts.py_getitem_ok _ _ x) by (assumption || lia).
      rewrite ArrayListFacts.py_setitem_ok by lia.
      rewrite IH.
      * rewrite drop_insert_lt by lia. reflexivity.
      * lia.
      * lia.
      * assumption.
      * rewrite length_insert. lia.
      * replace (Z.to_nat (i + 1)) with (S (Z.to_nat i)) by lia.
        rewrite (take_S_r (_data a) _ x) by assumption.
        rewrite (take_S_r _ _ x).
        -- rewrite take_insert_ge by lia. now rewrite Ht.
        -- apply list_lookup_insert_eq. lia.
    + do 2 f_equal. apply (Hdone nd i a); [lia|lia|exact Ht].
Qed.

Lemma grow_exact (a : t) :
  wf a ->
  _grow a =
    Ret (tt, mk (_capacity a * 2) (_size a)
               (contents a ++
                replicate (Z.to_nat (_capacity a * 2 - _size a)) None)).
Proof.
  intros (Hc & Hs & Hl). unfold _grow. run.
  rewrite grow_loop_exact; try lia.
  - unfold py_repeat. rewrite drop_replicate.
    do 5 f_equal. lia.
  - unfold py_repeat. rewrite length_replicate. lia.
  - reflexivity.
Qed.

Lemma add_room (value : cell) (a : t) :
  wf a -> _size a < _capacity a ->
  add value a =
    Ret (tt, mk (_capacity a) (_size a + 1)
               (<[Z.to_nat (_size a) := value]> (_data a))).
Proof.
  intros (Hc & Hs & Hl) Hlt. unfold add. run.
  destruct (_size a >=? _capacity a) eqn:E; [lia|]. simpl.
  rewrite ArrayListFacts.py_setitem_ok by lia. reflexivity.
Qed.

Lemma add_full (value : cell) (a : t) :
  wf a -> _size a = _capacity a ->
  add value a =
    Ret (tt, mk (_capacity a * 2) (_size a + 1)
               (_data a ++ value ::
                replicate (Z.to_nat (_capacity a - 1)) None)).
Proof.
  intros Hwf Heq. pose proof Hwf as (Hc & Hs & Hl). unfold add.
  unfold bind at 1 2 3. unfold gets at 1 2. unfold when.
  destruct (_size a >=? _capacity a) eqn:E; [|lia].
  rewrite (grow_exact a Hwf). run.
  assert (Hcont : contents a = _data a).
  { unfold contents. apply take_ge. lia. }
  rewrite Hcont.
  rewrite ArrayListFacts.py_setitem_ok
    by (rewrite length_app, length_replicate; lia).
  do 3 f_equal.
  replace (Z.to_nat (_size a)) with (length (_data a) + 0)%nat by lia.
  rewrite insert_app_r.
  replace (Z.to_nat (_capacity a * 2 - _size a))
    with (S (Z.to_nat (_capacity a - 1))) by lia.
  reflexivity.
Qed.

Lemma set_exact (index : Z) (value : cell) (a : t) :
  wf a -> 0 <= index < _size a ->
  set index value a =
    Ret (tt, mk (_capacity a) (_size a)
               (<[Z.to_nat index := value]> (_data a))).
Proof.
  intros (Hc & Hs & Hl) Hi. unfold set. run.
  destruct (index <? 0) eqn:E1; [lia|].
  destruct (index >=? _size a) eqn:E2; [lia|]. simpl.
  rewrite ArrayListFacts.py_setitem_ok by lia. reflexivity.
Qed.

Lemma remove_last_exact (a : t) :
  wf a -> 0 < _size a ->
  exists x,
    _data a !! Z.to_nat (_size a - 1) = Some x /\
    remove_last a =
      Ret (x, mk (_capacity a) (_size a - 1)
                (<[Z.to_nat (_size a - 1) := None]> (_data a))).
Proof.
  intros (Hc & Hs & Hl) Hpos.
  destruct (lookup_lt_is_Some_2 (_data a) (Z.to_nat (_size a - 1)))
    as [x Hx]; [lia|].
  exists x. split; [exact Hx|]. unfold remove_last. run.
  destruct (_size a =? 0) eqn:E; [lia|].
  rewrite (ArrayListFacts.py_getitem_ok _ _ x) by (assumption || lia).
  rewrite ArrayListFacts.py_setitem_ok by lia. reflexivity.
Qed.

(** The slots from [_size] on hold [None]. *)
Lemma reachable_clear (a : t) :
  reachable a ->
  forall j : nat,
    (Z.to_nat (_size a) <= j < length (_data a))%nat ->
    _data a !! j = Some None.
Proof.
  intros Hr. pose proof (ArrayListFacts.reachable_wf a Hr) as Hwf'. revert Hwf'.
  induction Hr as [c|v a a' Hr IH E|i v a a' Hr IH E|x a a' Hr IH E];
    intros Hwf' j Hj.
  - unfold __init__, py_repeat in *. simpl in *.
    rewrite length_replicate in Hj. apply lookup_replicate_2. lia.
  - pose proof (ArrayListFacts.reachable_wf a Hr) as Hwf.
    specialize (IH Hwf). pose proof Hwf as (Hc & Hs & Hl).
    destruct (decide (_size a < _capacity a)) as [Hlt|Hge].
    + rewrite add_room in E by assumption. injection E as <-.
      simpl in *. rewrite length_insert in Hj.
      rewrite list_lookup_insert_ne by lia. apply IH. lia.
    + rewrite add_full in E by (assumption || lia). injection E as <-.
      simpl in *. rewrite length_app in Hj. simpl in Hj.
      rewrite length_replicate in Hj.
      rewrite lookup_app_r by lia.
      destruct (j - length (_data a))%nat as [|n] eqn:En; [lia|].
      simpl. apply lookup_replicate_2. lia.
  - pose proof (ArrayListFacts.reachable_wf a Hr) as Hwf.
    specialize (IH Hwf).
    destruct (decide (0 <= i < _size a)) as [Hi|Hi].
    + rewrite set_exact in E by assumption. injection E as <-.
      simpl in *. rewrite length_insert in Hj.
      rewrite list_lookup_insert_ne by lia. apply IH. lia.
    + rewrite ArrayListFacts.set_raises in E by lia. discriminate E.
  - pose proof (ArrayListFacts.reachable_wf a Hr) as Hwf.
    specialize (IH Hwf). pose proof Hwf as (Hc & Hs & Hl).
    destruct (decide (_size a = 0)) as [Hz|Hz].
    + rewrite ArrayListFacts.remove_last_empty in E by exact Hz.
      injection E as _ <-. now apply IH.
    + destruct (remove_last_exact a Hwf) as (y & _ & E'); [lia|].
      rewrite E' in E. injection E as _ <-.
      simpl in *. rewrite length_insert in Hj.
      destruct (decide (j = Z.to_nat (_size a - 1))) as [->|Hne].
      * apply list_lookup_insert_eq. lia.
      * rewrite list_lookup_insert_ne by lia. apply IH. lia.
Qed.

End Facts.
End ArrayListMore.

(** X1: [to_list] after any number of [add] calls on a new [ArrayList], of
    any requested capacity, returns the added values in the order they
    were added. *)
Theorem arraylist_add_to_list (V : Type) (capacity : Z)
  (vs : list (option V)) :
  result ((for_each ArrayList.add vs ;; ArrayList.to_list)
            (ArrayList.__init__ capacity)) = Ret vs.
Proof.
  assert (H : forall (vs : list (option V)) (a : ArrayList.t V),
             ArrayList.wf a ->
             exists a', for_each ArrayList.add vs a = Ret (tt, a') /\
                        ArrayList.wf a' /\
                        ArrayList.contents a' = ArrayList.contents a ++ vs).
  { clear. induction vs as [|v vs IH]; intros a Hwf; simpl.
    - exists a. rewrite app_nil_r. auto.
    - destruct (ArrayListFacts.add_spec v a Hwf) as (a1 & E1 & W1 & _ & C1).
      destruct (IH a1 W1) as (a2 & E2 & W2 & C2).
      exists a2. rewrite (bind_ret _ _ _ _ _ E1).
      split; [exact E2|]. split; [exact W2|].
      now rewrite C2, C1, <- app_assoc. }
  destruct (H vs _ (ArrayListFacts.wf_init capacity)) as (a & E & W & C).
  rewrite (bind_ret _ _ _ _ _ E), (ArrayListFacts.to_list_spec a W), C.
  reflexivity.
Qed.

(** X2: in any state an [ArrayList] reaches, [to_list] returns a list of
    [size()] elements whose [i]-th element is what [get(i)] returns, and
    leaves the array as it was. *)
Theorem arraylist_to_list_get (V : Type) (a : ArrayList.t V) :
  ArrayList.reachable a ->
  exists l,
    ArrayList.to_list a = Ret (l, a) /\
    Z.of_nat (length l) = ArrayList._size a /\
    forall i : Z, 0 <= i < ArrayList._size a ->
      exists x, l !! Z.to_nat i = Some x /\ ArrayList.get i a = Ret (x, a).
Proof.
  intros Hr. apply ArrayListFacts.reachable_wf in Hr as Hwf.
  exists (ArrayList.contents a).
  split; [now apply ArrayListFacts.to_list_spec|].
  split; [now apply ArrayListFacts.length_contents|].
  intros i Hi.
  destruct (lookup_lt_is_Some_2 (ArrayList.contents a) (Z.to_nat i))
    as [x Hx].
  - pose proof (ArrayListFacts.length_contents a Hwf). lia.
  - exists x. split; [exact Hx|]. apply ArrayListFacts.get_ok; [lia|exact Hx].
Qed.

Lemma arraylist_to_list_get_witness :
  let a := ArrayList.mk 4 2 [Some 7; Some 9; None; None] in
  ArrayList.reachable a /\
  exists l,
    ArrayList.to_list a = Ret (l, a) /\
    Z.of_nat (length l) = ArrayList._size a /\
    forall i : Z, 0 <= i < ArrayList._size a ->
      exists x, l !! Z.to_nat i = Some x /\ ArrayList.get i a = Ret (x, a).
Proof.
  intros a.
  assert (H : ArrayList.reachable a).
  { apply (ArrayList.reach_add (Some 9)
             (ArrayList.mk 4 1 [Some 7; None; None; None]));
      [|reflexivity].
    apply (ArrayList.reach_add (Some 7) (ArrayList.__init__ 4));
      [|reflexivity].
    apply ArrayList.reach_init. }
  split; [exact H|]. exact (arraylist_to_list_get Z a H).
Defined.

(** X3: in any state an [ArrayList] reaches and for an index in range,
    [set(i, v)] returns, [get(i)] then returns [v], [get(j)] for every
    other [j] returns or raises what it did before, and the size and the
    capacity are unchanged. *)
Theorem arraylist_set_get (V : Type) (a : ArrayList.t V) (i : Z)
  (v : option V) :
  ArrayList.reachable a -> 0 <= i < ArrayList._size a ->
  exists a',
    ArrayList.set i v a = Ret (tt, a') /\
    ArrayList.get i a' = Ret (v, a') /\
    (forall j, j <> i ->
       result (ArrayList.get j a') = result (ArrayList.get j a)) /\
    ArrayList._size a' = ArrayList._size a /\
    ArrayList._capacity a' = ArrayList._capacity a.
Proof.
  intros Hr Hi. apply ArrayListFacts.reachable_wf in Hr as Hwf.
  pose proof (ArrayListFacts.length_contents a Hwf) as Hlen.
  destruct (ArrayListFacts.set_spec i v a Hwf Hi) as (a' & E & W & Hs & C).
  exists a'. split; [exact E|].
  pose proof E as E'. rewrite ArrayListMore.set_exact in E' by assumption.
  injection E' as <-.
  split; [|split; [|split; reflexivity]].
  - apply ArrayListFacts.get_ok; [lia|]. rewrite C.
    apply list_lookup_insert_eq. lia.
  - intros j Hj.
    destruct (decide (0 <= j < ArrayList._size a)) as [Hin|Hout].
    + destruct (lookup_lt_is_Some_2 (ArrayList.contents a) (Z.to_nat j))
        as [x Hx]; [lia|].
      rewrite (ArrayListFacts.get_ok j x a) by (lia || assumption).
      rewrite (ArrayListFacts.get_ok j x) by
        (try lia; rewrite C, list_lookup_insert_ne by lia; exact Hx).
      reflexivity.
    + rewrite !ArrayListFacts.get_raises by (simpl; lia). reflexivity.
Qed.

Lemma arraylist_set_get_witness :
  let a := ArrayList.mk 4 2 [Some 7; Some 9; None; None] in
  ArrayList.reachable a /\ 0 <= 1 < ArrayList._size a /\
  exists a',
    ArrayList.set 1 (Some 5) a = Ret (tt, a') /\
    ArrayList.get 1 a' = Ret (Some 5, a') /\
    (forall j, j <> 1 ->
       result (ArrayList.get j a') = result (ArrayList.get j a)) /\
    ArrayList._size a' = ArrayList._size a /\
    ArrayList._capacity a' = ArrayList._capacity a.
Proof.
  intros a.
  assert (H : ArrayList.reachable a).
  { apply (ArrayList.reach_add (Some 9)
             (ArrayList.mk 4 1 [Some 7; None; None; None]));
      [|reflexivity].
    apply (ArrayList.reach_add (Some 7) (ArrayList.__init__ 4));
      [|reflexivity].
    apply ArrayList.reach_init. }
  assert (Hi : 0 <= 1 < ArrayList._size a) by (simpl; lia).
  split; [exact H|]. split; [exact Hi|].
  exact (arraylist_set_get Z a 1 (Some 5) H Hi).
Defined.

(** X4: in any state an [ArrayList] reaches, [add(v)] followed by
    [remove_last()] returns [v] and restores the size and the elements;
    the array is exactly as before unless [add] had to grow it, and its
    capacity is never smaller than before. *)
Theorem arraylist_add_remove_last (V : Type) (a : ArrayList.t V)
  (v : option V) :
  ArrayList.reachable a ->
  exists a1 a2,
    ArrayList.add v a = Ret (tt, a1) /\
    ArrayList.remove_last a1 = Ret (v, a2) /\
    ArrayList._size a2 = ArrayList._size a /\
    result (ArrayList.to_list a2) = result (ArrayList.to_list a) /\
    ArrayList._capacity a <= ArrayList._capacity a2 /\
    (ArrayList._size a < ArrayList._capacity a -> a2 = a).
Proof.
  intros Hr. apply ArrayListFacts.reachable_wf in Hr as Hwf.
  destruct (ArrayListFacts.add_spec v a Hwf) as (a1 & E1 & W1 & S1 & C1).
  destruct (ArrayListFacts.remove_last_spec _ v a1 W1 C1)
    as (a2 & E2 & W2 & S2 & C2).
  exists a1, a2. split; [exact E1|]. split; [exact E2|].
  split; [lia|]. split.
  { rewrite !ArrayListFacts.to_list_spec by assumption. simpl.
    now rewrite C2. }
  pose proof Hwf as (Hc & Hs & Hl).
  destruct (decide (ArrayList._size a < ArrayList._capacity a)) as [Hlt|Hge].
  - pose proof E1 as E1'. rewrite ArrayListMore.add_room in E1' by assumption.
    injection E1' as <-.
    destruct (ArrayListMore.remove_last_exact _ W1) as (x & _ & E2');
      [simpl; lia|].
    rewrite E2' in E2. injection E2 as _ <-. simpl.
    split; [lia|]. intros _. destruct a as [c s d]. simpl in *.
    replace (s + 1 - 1) with s by lia. f_equal.
    rewrite list_insert_insert_eq. apply list_insert_id.
    apply (ArrayListMore.reachable_clear _ Hr). simpl. lia.
  - pose proof E1 as E1'.
    rewrite ArrayListMore.add_full in E1' by (assumption || lia).
    injection E1' as <-.
    destruct (ArrayListMore.remove_last_exact _ W1) as (x & _ & E2');
      [simpl; lia|].
    rewrite E2' in E2. injection E2 as _ <-. simpl.
    split; lia.
Qed.

Lemma arraylist_add_remove_last_witness :
  let a := ArrayList.mk 4 2 [Some 7; Some 9; None; None] in
  ArrayList.reachable a /\
  exists a1 a2,
    ArrayList.add (Some 5) a = Ret (tt, a1) /\
    ArrayList.remove_last a1 = Ret (Some 5, a2) /\
    ArrayList._size a2 = ArrayList._size a /\
    result (ArrayList.to_list a2) = result (ArrayList.to_list a) /\
    ArrayList._capacity a <= ArrayList._capacity a2 /\
    (ArrayList._size a < ArrayList._capacity a -> a2 = a).
Proof.
  intros a.
  assert (H : ArrayList.reachable a).
  { apply (ArrayList.reach_add (Some 9)
             (ArrayList.mk 4 1 [Some 7; None; None; None]));
      [|reflexivity].
    apply (ArrayList.reach_add (Some 7) (ArrayList.__init__ 4));
      [|reflexivity].
    apply ArrayList.reach_init. }
  split; [exact H|]. exact (arraylist_add_remove_last Z a (Some 5) H).
Defined.

(** X5: in any state an [ArrayList] reaches, [add] doubles the capacity
    when the array is full and leaves it otherwise, and adds one to the
    size; [set] and [remove_last] never change the capacity. *)
Theorem arraylist_capacity_growth (V : Type) (a : ArrayList.t V) :
  ArrayList.reachable a ->
  (forall v, exists a',
     ArrayList.add v a = Ret (tt, a') /\
     ArrayList._size a' = ArrayList._size a + 1 /\
     ArrayList._capacity a' =
       (if decide (ArrayList._size a = ArrayList._capacity a)
        then ArrayList._capacity a * 2 else ArrayList._capacity a)) /\
  (forall i v a', ArrayList.set i v a = Ret (tt, a') ->
     ArrayList._capacity a' = ArrayList._capacity a) /\
  (forall x a', ArrayList.remove_last a = Ret (x, a') ->
     ArrayList._capacity a' = ArrayList._capacity a).
Proof.
  intros Hr. apply ArrayListFacts.reachable_wf in Hr as Hwf.
  pose proof Hwf as (Hc & Hs & Hl).
  split; [|split].
  - intros v. destruct (decide (ArrayList._size a = ArrayList._capacity a))
      as [Heq|Hne].
    + eexists. split; [now apply ArrayListMore.add_full|]. auto.
    + eexists. split; [apply ArrayListMore.add_room; [exact Hwf|lia]|]. auto.
  - intros i v a' E.
    destruct (decide (0 <= i < ArrayList._size a)) as [Hi|Hi].
    + rewrite ArrayListMore.set_exact in E by assumption. now injection E as <-.
    + rewrite ArrayListFacts.set_raises in E by lia. discriminate E.
  - intros x a' E.
    destruct (decide (ArrayList._size a = 0)) as [Hz|Hz].
    + rewrite ArrayListFacts.remove_last_empty in E by exact Hz.
      now injection E as _ <-.
    + destruct (ArrayListMore.remove_last_exact a Hwf) as (y & _ & E'); [lia|].
      rewrite E' in E. now injection E as _ <-.
Qed.

Lemma arraylist_capacity_growth_witness :
  let a := ArrayList.mk 1 1 [Some 7] in
  ArrayList.reachable a /\
  exists a',
    ArrayList.add (Some 9) a = Ret (tt, a') /\
    ArrayList._size a' = 2 /\ ArrayList._capacity a' = 2.
Proof.
  intros a.
  assert (H : ArrayList.reachable a).
  { apply (ArrayList.reach_add (Some 7) (ArrayList.__init__ 1));
      [|reflexivity].
    apply ArrayList.reach_init. }
  split; [exact H|].
  destruct (arraylist_capacity_growth Z a H) as (Hadd & _ & _).
  exact (Hadd (Some 9)).
Defined.

(** X6: in every state an [ArrayList] reaches, the capacity is at least 1,
    the size is between 0 and the capacity, the buffer has exactly
    [_capacity] slots, and every slot from [_size] on holds [None]. *)
Theorem arraylist_invariant (V : Type) (a : ArrayList.t V) :
  ArrayList.reachable a ->
  1 <= ArrayList._capacity a /\
  0 <= ArrayList._size a <= ArrayList._capacity a /\
  Z.of_nat (length (ArrayList._data a)) = ArrayList._capacity a /\
  forall j : Z,
    ArrayList._size a <= j < ArrayList._capacity a ->
    ArrayList._data a !! Z.to_nat j = Some None.
Proof.
  intros Hr. pose proof (ArrayListFacts.reachable_wf a Hr) as (Hc & Hs & Hl).
  split; [exact Hc|]. split; [exact Hs|]. split; [lia|].
  intros j Hj. apply (ArrayListMore.reachable_clear a Hr). lia.
Qed.

Lemma arraylist_invariant_witness :
  let a := ArrayList.mk 4 1 [Some 7; None; None; None] in
  ArrayList.reachable a /\
  1 <= ArrayList._capacity a /\
  0 <= ArrayList._size a <= ArrayList._capacity a /\
  Z.of_nat (length (ArrayList._data a)) = ArrayList._capacity a /\
  forall j : Z,
    ArrayList._size a <= j < ArrayList._capacity a ->
    ArrayList._data a !! Z.to_nat j = Some None.
Proof.
  intros a.
  assert (H : ArrayList.reachable a).
  { apply (ArrayList.reach_remove_last (Some 9)
             (ArrayList.mk 4 2 [Some 7; Some 9; None; None]));
      [|reflexivity].
    apply (ArrayList.reach_add (Some 9)
             (ArrayList.mk 4 1 [Some 7; None; None; None]));
      [|reflexivity].
    apply (ArrayList.reach_add (Some 7) (ArrayList.__init__ 4));
      [|reflexivity].
    apply ArrayList.reach_init. }
  split; [exact H|]. exact (arraylist_invariant Z a H).
Defined.

Module StackMore.
Section Facts.
Import Stack.
Context {V : Type}.
Local Abbreviation cell := (option V).
Local Abbreviation t := (Stack.t V).

Lemma stack_size (s : t) (l : list cell) :
  rep s l -> ArrayList._size (_items s) = Z.of_nat (length l).
Proof.
  intros [Hwf Hl]. now rewrite <- (ArrayListFacts.length_contents _ Hwf), Hl.
Qed.

Lemma stack_pop_empty (s : t) : rep s [] -> pop s = Ret (None, s).
Proof.
  intros Hr. pose proof (stack_size s [] Hr) as Hz. destruct s as [a].
  unfold pop, items, on_field. simpl in *.
  now rewrite ArrayListFacts.remove_last_empty.
Qed.

Lemma stack_peek_empty (s : t) : rep s [] -> peek s = Ret (None, s).
Proof.
  intros Hr. pose proof (stack_size s [] Hr) as Hz. destruct s as [a].
  unfold peek, bind, items, on_field, ArrayList.size, gets. simpl in *.
  now rewrite Hz.
Qed.

Lemma stack_peek_spec (s : t) (l : list cell) (x : cell) :
  rep s (l ++ [x]) -> peek s = Ret (x, s).
Proof.
  intros Hr. pose proof (stack_size s _ Hr) as Hz. destruct Hr as [Hwf Hl].
  destruct s as [a]. rewrite length_app in Hz. simpl in *.
  unfold peek, bind, items, on_field, ArrayList.size, gets.
  change (_items {| _items := a |}) with a.
  destruct (ArrayList._size a =? 0) eqn:E; [lia|].
  rewrite (ArrayListFacts.get_ok _ x); [reflexivity|simpl; lia|simpl].
  rewrite Hl. replace (Z.to_nat (ArrayList._size a - 1)) with (length l) by lia.
  now apply list_lookup_middle.
Qed.

Lemma stack_is_empty_spec (s : t) (l : list cell) :
  rep s l ->
  is_empty s = Ret (match l with [] => true | _ => false end, s).
Proof.
  intros Hr. pose proof (stack_size s _ Hr) as Hz. destruct s as [a].
  unfold is_empty, bind, items, on_field, ArrayList.size, gets, ret.
  simpl in *. rewrite Hz. destruct l; reflexivity.
Qed.

Lemma stack_calls_model (cs : list (StackRun.call V)) :
  forall (s : t) (l : list cell),
    rep s (reverse l) ->
    result (StackRun.calls cs s) = Ret (StackRun.model cs l).
Proof.
  induction cs as [|c cs IH]; intros s l Hr; [reflexivity|].
  simpl. unfold StackRun.do_call.
  assert (Hstep : forall (x : answer V) (s' : t) (l' : list cell),
             StackRun.do_call c s = Ret (x, s') ->
             StackRun.model_call c l = (x, l') ->
             rep s' (reverse l') ->
             result
               (bind (StackRun.do_call c)
                  (fun x => bind (StackRun.calls cs)
                              (fun xs => ret (x :: xs))) s)
             = Ret ((StackRun.model_call c l).1 ::
                    StackRun.model cs (StackRun.model_call c l).2)).
  { intros x s' l' E Em Hr'. rewrite (bind_ret _ _ _ _ _ E), Em. simpl.
    specialize (IH s' l' Hr'). unfold bind, ret.
    destruct (StackRun.calls cs s') as [[xs s'']| |]; simpl in *;
      congruence. }
  destruct c as [v| | |].
  - destruct (StackFacts.stack_push_spec v s _ Hr) as (s' & E & Hr').
    rewrite <- reverse_cons in Hr'.
    apply (Hstep (Returned None) s' (v :: l)); [|reflexivity|exact Hr'].
    unfold StackRun.do_call. now rewrite (bind_ret _ _ _ _ _ E).
  - destruct l as [|x l].
    + apply (Hstep (Returned None) s []); [|reflexivity|exact Hr].
      unfold StackRun.do_call.
      now rewrite (bind_ret _ _ _ _ _ (stack_pop_empty s Hr)).
    + rewrite reverse_cons in Hr.
      destruct (StackFacts.stack_pop_spec x s _ Hr) as (s' & E & Hr').
      apply (Hstep (Returned x) s' l); [|reflexivity|exact Hr'].
      unfold StackRun.do_call. now rewrite (bind_ret _ _ _ _ _ E).
  - destruct l as [|x l].
    + apply (Hstep (Returned None) s []); [|reflexivity|exact Hr].
      unfold StackRun.do_call.
      now rewrite (bind_ret _ _ _ _ _ (stack_peek_empty s Hr)).
    + apply (Hstep (Returned x) s (x :: l)); [|reflexivity|exact Hr].
      rewrite reverse_cons in Hr. unfold StackRun.do_call.
      now rewrite (bind_ret _ _ _ _ _ (stack_peek_spec s _ x Hr)).
  - pose proof (stack_is_empty_spec s _ Hr) as E.
    destruct l as [|x l].
    + apply (Hstep (Truth true) s []); [|reflexivity|exact Hr].
      unfold StackRun.do_call. now rewrite (bind_ret _ _ _ _ _ E).
    + apply (Hstep (Truth false) s (x :: l)); [|reflexivity|exact Hr].
      unfold StackRun.do_call. rewrite (bind_ret _ _ _ _ _ E).
      rewrite reverse_cons. now destruct (reverse l).
Qed.

End Facts.
End StackMore.

Module QueueMore.
Section Facts.
Import Queue.
Context {V : Type}.
Local Abbreviation cell := (option V).
Local Abbreviation state := (list (LinkedList.ListNode V) * t)%type.

Lemma queue_dequeue_empty (s : state) : rep s [] -> dequeue s = Ret (None, s).
Proof.
  destruct s as [h [q]]. unfold rep. simpl. intros (Hseg & _).
  simpl in Hseg. unfold dequeue, items, on_field. cbn [fst snd _items].
  now rewrite LinkedListFacts.remove_first_empty.
Qed.

Lemma queue_is_empty_spec (s : state) (l : list (nat * cell)) :
  rep s l ->
  is_empty s = Ret (match l with [] => true | _ => false end, s).
Proof.
  destruct s as [h [q]]. unfold rep. simpl. intros (_ & _ & Hsz & _).
  simpl in Hsz.
  unfold is_empty, bind, items, on_field, LinkedList.size, LinkedList.field,
    gets, ret.
  cbn [fst snd _items]. rewrite Hsz. destruct l; reflexivity.
Qed.

Lemma queue_calls_model (cs : list (QueueRun.call V)) :
  forall (s : state) (l : list (nat * cell)),
    rep s l ->
    result (QueueRun.calls cs s) = Ret (QueueRun.model cs (l.*2)).
Proof.
  induction cs as [|c cs IH]; intros s l Hr; [reflexivity|].
  simpl.
  assert (Hstep : forall (x : answer V) (s' : state) (l' : list (nat * cell)),
             QueueRun.do_call c s = Ret (x, s') ->
             QueueRun.model_call c (l.*2) = (x, l'.*2) ->
             rep s' l' ->
             result
               (bind (QueueRun.do_call c)
                  (fun x => bind (QueueRun.calls cs)
                              (fun xs => ret (x :: xs))) s)
             = Ret ((QueueRun.model_call c (l.*2)).1 ::
                    QueueRun.model cs (QueueRun.model_call c (l.*2)).2)).
  { intros x s' l' E Em Hr'. rewrite (bind_ret _ _ _ _ _ E), Em. simpl.
    specialize (IH s' l' Hr'). unfold bind, ret.
    destruct (QueueRun.calls cs s') as [[xs s'']| |]; simpl in *;
      congruence. }
  destruct c as [v| |].
  - destruct (QueueFacts.enqueue_spec v s l Hr) as (s' & a & E & Hr').
    apply (Hstep (Returned None) s' (l ++ [(a, v)])); [| |exact Hr'].
    + unfold QueueRun.do_call. now rewrite (bind_ret _ _ _ _ _ E).
    + rewrite fmap_app. reflexivity.
  - destruct l as [|[a x] l].
    + apply (Hstep (Returned None) s []); [|reflexivity|exact Hr].
      unfold QueueRun.do_call.
      now rewrite (bind_ret _ _ _ _ _ (queue_dequeue_empty s Hr)).
    + destruct (QueueFacts.dequeue_spec s a x l Hr) as (s' & E & Hr').
      apply (Hstep (Returned x) s' l); [|reflexivity|exact Hr'].
      unfold QueueRun.do_call. now rewrite (bind_ret _ _ _ _ _ E).
  - pose proof (queue_is_empty_spec s _ Hr) as E.
    destruct l as [|[a x] l].
    + apply (Hstep (Truth true) s []); [|reflexivity|exact Hr].
      unfold QueueRun.do_call. now rewrite (bind_ret _ _ _ _ _ E).
    + apply (Hstep (Truth false) s ((a, x) :: l)); [|reflexivity|exact Hr].
      unfold QueueRun.do_call. now rewrite (bind_ret _ _ _ _ _ E).
Qed.

End Facts.
End QueueMore.

(** X7: any sequence of [push], [pop], [peek] and [is_empty] calls on a new
    [Stack] returns, and answers what the same calls answer on a list used
    last-in first-out; [pop] and [peek] answer [None] when it is empty. *)
Theorem stack_refines_list (V : Type) (cs : list (StackRun.call V)) :
  result (StackRun.calls cs Stack.__init__) = Ret (StackRun.model cs []).
Proof. apply StackMore.stack_calls_model. apply StackFacts.stack_rep_init. Qed.

(** X8: any sequence of [enqueue], [dequeue] and [is_empty] calls on a new
    [Queue] returns, and answers what the same calls answer on a list used
    first-in first-out; [dequeue] answers [None] when it is empty. *)
Theorem queue_refines_list (V : Type) (h : list (LinkedList.ListNode V))
  (cs : list (QueueRun.call V)) :
  result (QueueRun.calls cs (h, Queue.__init__)) = Ret (QueueRun.model cs []).
Proof.
  apply (QueueMore.queue_calls_model cs (h, Queue.__init__) []).
  apply QueueFacts.queue_rep_init.
Qed.

(** X9: after any sequence of [push] and [pop] on a new [MinHeap] (resp.
    [MaxHeap]), the backing array is in heap order: no element is greater
    (resp. smaller) than the elements at its two child positions
    [2i+1] and [2i+2]; and [size()] is the number of pushes minus the
    number of pops that returned a value. *)
Theorem heap_array_order (ops : list Heap.op) :
  (exists outs h l,
     MinHeap.run ops MinHeap.__init__ = Ret (outs, h) /\
     Heap.rep h l /\
     MinHeap.size h =
       Ret (Z.of_nat (length (Heap.pushed ops)) -
            Z.of_nat (length (omap id outs)), h) /\
     forall (i c : Z) (x y : Z),
       0 <= i -> c = i * 2 + 1 \/ c = i * 2 + 2 ->
       l !! Z.to_nat i = Some x -> l !! Z.to_nat c = Some y -> x <= y) /\
  (exists outs h l,
     MaxHeap.run ops MaxHeap.__init__ = Ret (outs, h) /\
     Heap.rep h l /\
     MaxHeap.size h =
       Ret (Z.of_nat (length (Heap.pushed ops)) -
            Z.of_nat (length (omap id outs)), h) /\
     forall (i c : Z) (x y : Z),
       0 <= i -> c = i * 2 + 1 \/ c = i * 2 + 2 ->
       l !! Z.to_nat i = Some x -> l !! Z.to_nat c = Some y -> y <= x).
Proof.
  assert (H : forall le_op lt_op : Z -> Z -> bool,
             (forall x y, Heap.le le_op x y \/ Heap.le le_op y x) ->
             (forall x y z, Heap.le le_op x y -> Heap.le le_op y z ->
                            Heap.le le_op x z) ->
             (forall x y, lt_op x y = negb (le_op y x)) ->
             exists outs h l,
               Heap.run le_op lt_op ops Heap.__init__ = Ret (outs, h) /\
               Heap.rep h l /\
               Heap.size h =
                 Ret (Z.of_nat (length (Heap.pushed ops)) -
                      Z.of_nat (length (omap id outs)), h) /\
               forall (i c : Z) (x y : Z),
                 0 <= i -> c = i * 2 + 1 \/ c = i * 2 + 2 ->
                 l !! Z.to_nat i = Some x -> l !! Z.to_nat c = Some y ->
                 Heap.le le_op x y).
  { intros le_op lt_op Htot Htrans Hlt.
    destruct (HeapFacts.run_spec le_op lt_op Htot Htrans Hlt ops
                Heap.__init__ [] HeapFacts.heap_rep_init
                (HeapFacts.heap_nil le_op))
      as (outs & h & l & E & R & Hh & P).
    exists outs, h, l. split; [exact E|]. split; [exact R|]. split.
    - unfold Heap.size. rewrite (HeapFacts.data_size h l R).
      apply Permutation_length in P. simpl in P. rewrite length_app in P.
      unfold Heap.len. do 2 f_equal. lia.
    - intros i c x y Hi Hc Hx Hy.
      apply lookup_lt_Some in Hy as Hlt'.
      assert (Hp : (c - 1) / 2 = i) by (Z.div_mod_to_equations; lia).
      specialize (Hh c). rewrite Hp in Hh. unfold Heap.at_ in Hh.
      rewrite Hx, Hy in Hh. apply Hh. unfold Heap.len. lia. }
  split.
  - destruct (H Z.leb Z.ltb MinHeapFacts.leb_total MinHeapFacts.leb_trans
                MinHeapFacts.ltb_spec) as (outs & h & l & E & R & Hs & Ho).
    exists outs, h, l. repeat (split; [assumption|]).
    intros i c x y Hi Hc Hx Hy.
    pose proof (Ho i c x y Hi Hc Hx Hy) as Hle. unfold Heap.le in Hle. lia.
  - destruct (H Z.geb Z.gtb MaxHeapFacts.geb_total MaxHeapFacts.geb_trans
                MaxHeapFacts.gtb_spec) as (outs & h & l & E & R & Hs & Ho).
    exists outs, h, l. repeat (split; [assumption|]).
    intros i c x y Hi Hc Hx Hy.
    pose proof (Ho i c x y Hi Hc Hx Hy) as Hle. unfold Heap.le in Hle. lia.
Qed.

(** X10: any integers [vs], repeated ones included, pushed onto a new
    [MinHeap] (resp. [MaxHeap]) and popped as many times come out in
    non-decreasing (resp. non-increasing) order, each as often as it was
    pushed. *)
Theorem heap_sorts_with_repeats (vs : list Z) :
  (exists out h,
     (MinHeap.push_all vs ;; repeat_call (length vs) MinHeap.pop)
       MinHeap.__init__ = Ret (Some <$> out, h) /\
     out ≡ₚ vs /\ StronglySorted Z.le out) /\
  (exists out h,
     (MaxHeap.push_all vs ;; repeat_call (length vs) MaxHeap.pop)
       MaxHeap.__init__ = Ret (Some <$> out, h) /\
     out ≡ₚ vs /\ StronglySorted Z.ge out).
Proof.
  split.
  - destruct (HeapFacts.push_pop_sorted Z.leb Z.ltb MinHeapFacts.leb_total
                MinHeapFacts.leb_trans MinHeapFacts.ltb_spec vs)
      as (out & h & E & P & Hs).
    exists out, h. split; [exact E|]. split; [exact P|].
    apply (StronglySorted_mono (Heap.le Z.leb)); [|exact Hs].
    unfold Heap.le. intros x y Hxy. lia.
  - destruct (HeapFacts.push_pop_sorted Z.geb Z.gtb MaxHeapFacts.geb_total
                MaxHeapFacts.geb_trans MaxHeapFacts.gtb_spec vs)
      as (out & h & E & P & Hs).
    exists out, h. split; [exact E|]. split; [exact P|].
    apply (StronglySorted_mono (Heap.le Z.geb)); [|exact Hs].
    unfold Heap.le. intros x y Hxy. lia.
Qed.

Module HeapMore.
Section Facts.
Import Heap.
Variable le_op lt_op : Z -> Z -> bool.
Local Abbreviation le := (Heap.le le_op).
Local Abbreviation heap := (Heap.heap le_op).
Local Abbreviation push := (Heap.push le_op).
Local Abbreviation pop := (Heap.pop lt_op).
Local Abbreviation insert := (HeapRun.insert le_op).
Local Abbreviation do_call := (HeapRun.do_call le_op lt_op).
Local Abbreviation calls := (HeapRun.calls le_op lt_op).
Local Abbreviation model_call := (HeapRun.model_call le_op).
Local Abbreviation model := (HeapRun.model le_op).

Hypothesis le_total : forall x y, le x y \/ le y x.
Hypothesis le_trans : forall x y z, le x y -> le y z -> le x z.
Hypothesis le_antisym : forall x y, le x y -> le y x -> x = y.
Hypothesis lt_op_spec : forall x y, lt_op x y = negb (le_op y x).

Lemma insert_perm (v : Z) (l : list Z) : insert v l ≡ₚ v :: l.
Proof.
  induction l as [|x l IH]; simpl; [reflexivity|].
  destruct (le_op v x); [reflexivity|].
  rewrite IH. apply Permutation_swap.
Qed.

Lemma insert_sorted (v : Z) (l : list Z) :
  StronglySorted le l -> StronglySorted le (insert v l).
Proof.
  induction 1 as [|x l Hs IH Hx]; simpl.
  - repeat constructor.
  - destruct (le_op v x) eqn:E.
    + constructor; [now constructor|].
      constructor; [exact E|].
      eapply Forall_impl; [exact Hx|]. intros y Hy.
      now apply le_trans with x.
    + constructor; [exact IH|].
      rewrite insert_perm. constructor; [|exact Hx].
      destruct (le_total x v) as [H|H]; [exact H|].
      unfold Heap.le in H. congruence.
Qed.

(** The root of a heap is the head of its sorted arrangement. *)
Lemma root_is_head (lh lm : list Z) (x : Z) :
  heap lh -> lh ≡ₚ x :: lm -> StronglySorted le (x :: lm) ->
  at_ lh 0 = x.
Proof.
  intros Hh P Hs.
  assert (Hl : 0 < len lh).
  { apply Permutation_length in P. unfold len. simpl in P. lia. }
  apply le_antisym.
  - assert (Hin : x ∈ lh) by (rewrite P; left).
    apply (HeapFacts.elem_of_at lh x) in Hin as (i & Hi & <-).
    now apply (HeapFacts.heap_root le_op le_total le_trans).
  - assert (Hin : at_ lh 0 ∈ x :: lm).
    { rewrite <- P. apply list_elem_of_lookup. exists (Z.to_nat 0).
      apply HeapFacts.lookup_at. lia. }
    apply StronglySorted_inv in Hs as [_ Hx].
    apply elem_of_cons in Hin as [->|Hin].
    + destruct (le_total x x); assumption.
    + rewrite Forall_forall in Hx. now apply Hx.
Qed.

Lemma heap_calls_model (cs : list HeapRun.call) :
  forall (h : t) (lh lm : list Z),
    rep h lh -> heap lh -> lh ≡ₚ lm -> StronglySorted le lm ->
    result (calls cs h) = Ret (model cs lm).
Proof.
  induction cs as [|c cs IH]; intros h lh lm Hr Hh P Hs; [reflexivity|].
  simpl.
  assert (Hstep : forall (x : reply) (h' : t) (lh' lm' : list Z),
             do_call c h = Ret (x, h') ->
             model_call c lm = (x, lm') ->
             rep h' lh' -> heap lh' -> lh' ≡ₚ lm' ->
             StronglySorted le lm' ->
             result
               (bind (do_call c)
                  (fun x => bind (calls cs) (fun xs => ret (x :: xs))) h)
             = Ret ((model_call c lm).1 :: model cs (model_call c lm).2)).
  { intros x h' lh' lm' E Em Hr' Hh' P' Hs'.
    rewrite (bind_ret _ _ _ _ _ E), Em. simpl.
    specialize (IH h' lh' lm' Hr' Hh' P' Hs'). unfold bind, ret.
    destruct (HeapRun.calls le_op lt_op cs h') as [[xs h'']| |];
      simpl in *; congruence. }
  assert (Hlen : len lh = Z.of_nat (length lm)).
  { unfold len. now rewrite P. }
  destruct c as [v| | |].
  - destruct (HeapFacts.heap_push_spec le_op le_total le_trans v h lh Hr Hh)
      as (h' & lh' & E & Hr' & Hh' & P').
    apply (Hstep (Value None) h' lh' (insert v lm));
      [|reflexivity|exact Hr'|exact Hh'| |now apply insert_sorted].
    + unfold HeapRun.do_call. now rewrite (bind_ret _ _ _ _ _ E).
    + rewrite P', insert_perm. now constructor.
  - destruct lm as [|x lm].
    + assert (E : pop h = Ret (None, h)).
      { apply HeapFacts.pop_empty. rewrite (HeapFacts.rep_size h lh Hr).
        simpl in Hlen. lia. }
      apply (Hstep (Value None) h lh []);
        [|reflexivity|exact Hr|exact Hh|exact P|exact Hs].
      unfold HeapRun.do_call. now rewrite (bind_ret _ _ _ _ _ E).
    + destruct (HeapFacts.heap_pop_spec le_op lt_op le_total le_trans
                  lt_op_spec h lh Hr Hh) as (h' & lh' & E & Hr' & Hh' & P').
      { simpl in Hlen. lia. }
      rewrite (root_is_head lh lm x Hh P Hs) in E, P'.
      apply (Hstep (Value (Some x)) h' lh' lm);
        [|reflexivity|exact Hr'|exact Hh'| |].
      * unfold HeapRun.do_call. now rewrite (bind_ret _ _ _ _ _ E).
      * rewrite P in P'. now apply Permutation_cons_inv in P'.
      * now apply StronglySorted_inv in Hs as [? _].
  - destruct lm as [|x lm].
    + assert (E : peek h = Ret (None, h)).
      { apply HeapFacts.peek_empty. rewrite (HeapFacts.rep_size h lh Hr).
        simpl in Hlen. lia. }
      apply (Hstep (Value None) h lh []);
        [|reflexivity|exact Hr|exact Hh|exact P|exact Hs].
      unfold HeapRun.do_call. now rewrite (bind_ret _ _ _ _ _ E).
    + assert (E : peek h = Ret (Some x, h)).
      { rewrite <- (root_is_head lh lm x Hh P Hs).
        apply HeapFacts.peek_spec; [exact Hr|]. simpl in Hlen. lia. }
      apply (Hstep (Value (Some x)) h lh (x :: lm));
        [|reflexivity|exact Hr|exact Hh|exact P|exact Hs].
      unfold HeapRun.do_call. now rewrite (bind_ret _ _ _ _ _ E).
  - apply (Hstep (Count (Z.of_nat (length lm))) h lh lm);
      [|reflexivity|exact Hr|exact Hh|exact P|exact Hs].
    unfold HeapRun.do_call, Heap.size.
    rewrite (bind_ret _ _ _ _ _ (HeapFacts.data_size h lh Hr)).
    now rewrite Hlen.
Qed.

(** [push(None)] compares [None] with the parent of the new slot. *)
Lemma push_none_raises (h : t) (l : list Z) :
  rep h l -> l <> [] -> push None h = Raise TypeError.
Proof.
  intros Hr Hne. pose proof Hr as [Hwf Hc].
  assert (Hl : 0 < len l).
  { destruct l; [done|]. unfold len. simpl. lia. }
  destruct (ArrayListFacts.add_spec None (_data h) Hwf)
    as (a & E & W & Hs & C).
  pose proof (HeapFacts.rep_size h l Hr) as Hsz.
  unfold Heap.push.
  rewrite (bind_ret _ _ _ _ _ (HeapFacts.data_ret _ h _ _ E)).
  unfold bind at 1. unfold data at 1, on_field, ArrayList.size, gets.
  cbn [_data]. rewrite Hs, Hsz.
  replace (len l + 1 - 1) with (len l) by lia.
  unfold _sift_up.
  destruct (Z.to_nat (len l)) as [|fuel] eqn:Ef; [lia|].
  rewrite HeapFacts.sift_up_loop_S.
  destruct (len l >? 0) eqn:Eg; [|lia].
  assert (Hp : 0 <= (len l - 1) / 2 < len l)
    by (Z.div_mod_to_equations; lia).
  assert (G1 : data (ArrayList.get ((len l - 1) / 2)) (mk a) =
               Ret (Some (at_ l ((len l - 1) / 2)), mk a)).
  { apply HeapFacts.data_ret. cbn [_data].
    apply ArrayListFacts.get_ok; [lia|]. rewrite C, Hc.
    rewrite lookup_app_l by (rewrite length_fmap; unfold len in *; lia).
    rewrite list_lookup_fmap, HeapFacts.lookup_at by lia. reflexivity. }
  assert (G2 : data (ArrayList.get (len l)) (mk a) = Ret (None, mk a)).
  { apply HeapFacts.data_ret. cbn [_data].
    apply ArrayListFacts.get_ok; [lia|]. rewrite C, Hc.
    apply list_lookup_middle. rewrite length_fmap. unfold len. lia. }
  rewrite (bind_ret _ _ _ _ _ G1), (bind_ret _ _ _ _ _ G2). reflexivity.
Qed.

Lemma push_none_empty (h : t) :
  rep h [] -> exists h', push None h = Ret (tt, h').
Proof.
  intros Hr. pose proof Hr as [Hwf Hc].
  destruct (ArrayListFacts.add_spec None (_data h) Hwf)
    as (a & E & W & Hs & C).
  pose proof (HeapFacts.rep_size h [] Hr) as Hsz.
  exists (mk a). unfold Heap.push.
  rewrite (bind_ret _ _ _ _ _ (HeapFacts.data_ret _ h _ _ E)).
  unfold bind at 1. unfold data at 1, on_field, ArrayList.size, gets.
  cbn [_data]. rewrite Hs, Hsz. reflexivity.
Qed.

End Facts.
End HeapMore.

Lemma Zle_antisym_leb (x y : Z) :
  Heap.le Z.leb x y -> Heap.le Z.leb y x -> x = y.
Proof. unfold Heap.le. lia. Qed.

Lemma Zge_antisym_geb (x y : Z) :
  Heap.le Z.geb x y -> Heap.le Z.geb y x -> x = y.
Proof. unfold Heap.le. lia. Qed.

(** X11: any sequence of [push], [pop], [peek] and [size] calls on a new
    [MinHeap] (resp. [MaxHeap]) returns, and answers what the same calls
    answer on a list kept sorted ascending (resp. descending) whose head is
    popped and peeked; [pop] and [peek] answer [None] when it is empty. *)
Theorem heap_refines_sorted_list (cs : list HeapRun.call) :
  result (HeapRun.calls Z.leb Z.ltb cs MinHeap.__init__) =
    Ret (HeapRun.model Z.leb cs []) /\
  result (HeapRun.calls Z.geb Z.gtb cs MaxHeap.__init__) =
    Ret (HeapRun.model Z.geb cs []).
Proof.
  split.
  - apply (HeapMore.heap_calls_model Z.leb Z.ltb MinHeapFacts.leb_total
             MinHeapFacts.leb_trans Zle_antisym_leb MinHeapFacts.ltb_spec
             cs Heap.__init__ [] []);
      [apply HeapFacts.heap_rep_init|apply HeapFacts.heap_nil
      |reflexivity|constructor].
  - apply (HeapMore.heap_calls_model Z.geb Z.gtb MaxHeapFacts.geb_total
             MaxHeapFacts.geb_trans Zge_antisym_geb MaxHeapFacts.gtb_spec
             cs Heap.__init__ [] []);
      [apply HeapFacts.heap_rep_init|apply HeapFacts.heap_nil
      |reflexivity|constructor].
Qed.

(** X12: [push(None)] on a [MinHeap] or [MaxHeap] that holds at least one
    integer raises [TypeError], from the comparison of [None] with the
    parent in [_sift_up]; on an empty heap it returns, since nothing is
    compared. *)
Theorem heap_push_none (h : Heap.t) (l : list Z) :
  Heap.rep h l ->
  (l <> [] ->
   MinHeap.push None h = Raise TypeError /\
   MaxHeap.push None h = Raise TypeError) /\
  (l = [] ->
   (exists h', MinHeap.push None h = Ret (tt, h')) /\
   (exists h', MaxHeap.push None h = Ret (tt, h'))).
Proof.
  intros Hr. split.
  - intros Hne. split; now apply (HeapMore.push_none_raises _ h l).
  - intros ->. split; now apply HeapMore.push_none_empty.
Qed.

Lemma heap_push_none_witness :
  let h := Heap.mk (ArrayList.mk 4 1 [Some 7; None; None; None]) in
  Heap.rep h [7] /\
  MinHeap.push None h = Raise TypeError /\
  MaxHeap.push None h = Raise TypeError.
Proof.
  intros h.
  assert (H : Heap.rep h [7]).
  { split; [unfold ArrayList.wf; simpl; lia|reflexivity]. }
  split; [exact H|].
  destruct (heap_push_none h [7] H) as [Hraise _].
  apply Hraise. discriminate.
Defined.

Module KthLargestFacts.
Import KthLargest.

Lemma kth_loop_S (fuel : nat) (nums : list Z) (k i : Z) :
  loop (S fuel) nums k i =
    if i <? Z.of_nat (length nums) then
      x <- py_getitem nums i ;;
      MinHeap.push (Some x) ;;
      size <- MinHeap.size ;;
      when (size >? k) (MinHeap.pop ;; ret tt) ;;
      loop fuel nums k (i + 1)
    else ret tt.
Proof. reflexivity. Qed.

(** The heap holds the [min k i] greatest of the first [i] numbers, [d]
    the others. *)
Lemma kth_loop_spec (nums : list Z) (k : Z) (fuel : nat) :
  forall (i : Z) (h : Heap.t) (l d : list Z),
    Heap.rep h l -> Heap.heap Z.leb l ->
    0 <= i <= Z.of_nat (length nums) ->
    Z.of_nat (length nums) - i <= Z.of_nat fuel ->
    take (Z.to_nat i) nums ≡ₚ l ++ d ->
    (forall y x, y ∈ d -> x ∈ l -> y <= x) ->
    Z.of_nat (length l) = Z.min (Z.max k 0) i ->
    exists h' l' d',
      loop fuel nums k i h = Ret (tt, h') /\
      Heap.rep h' l' /\ Heap.heap Z.leb l' /\
      nums ≡ₚ l' ++ d' /\
      (forall y x, y ∈ d' -> x ∈ l' -> y <= x) /\
      Z.of_nat (length l') = Z.min (Z.max k 0) (Z.of_nat (length nums)).
Proof.
  assert (Hdone : forall (i : Z) (h : Heap.t) (l d : list Z),
             Heap.rep h l -> Heap.heap Z.leb l ->
             0 <= i <= Z.of_nat (length nums) ->
             Z.of_nat (length nums) <= i ->
             take (Z.to_nat i) nums ≡ₚ l ++ d ->
             (forall y x, y ∈ d -> x ∈ l -> y <= x) ->
             Z.of_nat (length l) = Z.min (Z.max k 0) i ->
             exists h' l' d',
               Ret (tt, h) = Ret (tt, h') /\
               Heap.rep h' l' /\ Heap.heap Z.leb l' /\
               nums ≡ₚ l' ++ d' /\
               (forall y x, y ∈ d' -> x ∈ l' -> y <= x) /\
               Z.of_nat (length l') =
                 Z.min (Z.max k 0) (Z.of_nat (length nums))).
  { intros i h l d Hr Hh Hi Hge P Ho Hlen. exists h, l, d.
    split; [reflexivity|]. split; [exact Hr|]. split; [exact Hh|].
    rewrite take_ge in P by lia.
    split; [exact P|]. split; [exact Ho|]. lia. }
  induction fuel as [|fuel IH]; intros i h l d Hr Hh Hi Hf P Ho Hlen.
  - simpl. destruct (i <? Z.of_nat (length nums)) eqn:E; [lia|].
    apply (Hdone i h l d); auto; lia.
  - rewrite kth_loop_S. destruct (i <? Z.of_nat (length nums)) eqn:E;
      [|apply (Hdone i h l d); auto; lia].
    destruct (lookup_lt_is_Some_2 nums (Z.to_nat i)) as [x Hx]; [lia|].
    rewrite (bind_ret _ _ _ _ _
               (ArrayListFacts.py_getitem_ok nums i x h ltac:(lia) Hx)).
    destruct (HeapFacts.heap_push_spec Z.leb MinHeapFacts.leb_total
                MinHeapFacts.leb_trans x h l Hr Hh)
      as (h1 & l1 & E1 & R1 & H1 & P1).
    rewrite (bind_ret _ _ _ _ _ E1).
    unfold Heap.size.
    rewrite (bind_ret _ _ _ _ _ (HeapFacts.data_size h1 l1 R1)).
    assert (Hl1 : Heap.len l1 = Z.of_nat (length l) + 1).
    { unfold Heap.len. rewrite P1. simpl. lia. }
    assert (Htake : take (Z.to_nat (i + 1)) nums ≡ₚ x :: l ++ d).
    { replace (Z.to_nat (i + 1)) with (S (Z.to_nat i)) by lia.
      rewrite (take_S_r nums _ x Hx), P. symmetry.
      apply Permutation_cons_append. }
    assert (Hd : Z.of_nat (length l) < k -> d = []).
    { intros Hlt. apply Permutation_length in P.
      rewrite length_take, length_app in P.
      destruct d; [reflexivity|]. simpl in P. lia. }
    unfold when. rewrite Hl1.
    destruct (Z.of_nat (length l) + 1 >? k) eqn:Ek.
    + destruct (HeapFacts.heap_pop_spec Z.leb Z.ltb MinHeapFacts.leb_total
                  MinHeapFacts.leb_trans MinHeapFacts.ltb_spec h1 l1 R1 H1)
        as (h2 & l2 & E2 & R2 & H2 & P2); [lia|].
      unfold bind at 1 2. rewrite E2. unfold ret at 1.
      set (m := Heap.at_ l1 0) in *.
      assert (Hmin : forall b, b ∈ l1 -> m <= b).
      { intros b Hb. apply (HeapFacts.elem_of_at l1 b) in Hb as (j & Hj & <-).
        pose proof (HeapFacts.heap_root Z.leb MinHeapFacts.leb_total
                      MinHeapFacts.leb_trans l1 H1 j Hj) as Hle.
        unfold Heap.le in Hle. fold m in Hle. lia. }
      apply (IH (i + 1) h2 l2 (m :: d)); auto; try lia.
      * rewrite Htake. change (x :: l ++ d) with ((x :: l) ++ d).
        rewrite <- P1, P2. simpl. apply Permutation_middle.
      * intros y b Hy Hb.
        assert (Hb1 : b ∈ l1) by (rewrite P2; now right).
        apply elem_of_cons in Hy as [->|Hy]; [now apply Hmin|].
        destruct (decide (m = x)) as [Hmx|Hmx].
        -- assert (Hperm : l2 ≡ₚ l).
           { rewrite P1, <- Hmx in P2. now apply Permutation_cons_inv in P2. }
           apply Ho; [exact Hy|]. now rewrite <- Hperm.
        -- assert (Hm : m ∈ l).
           { assert (Hm1 : m ∈ l1) by (rewrite P2; left).
             rewrite P1 in Hm1. apply elem_of_cons in Hm1 as [?|?]; [done|].
             assumption. }
           pose proof (Ho y m Hy Hm). pose proof (Hmin b Hb1). lia.
      * apply Permutation_length in P2. rewrite P1 in P2. simpl in P2. lia.
    + unfold ret at 1. unfold bind at 1.
      rewrite Hd in Htake by lia.
      apply (IH (i + 1) h1 l1 []); auto; try lia.
      * rewrite Htake, P1. reflexivity.
      * intros y b Hy. inversion Hy.
      * rewrite P1. simpl. lia.
Qed.

Lemma kth_run_spec (nums : list Z) (k : Z) :
  exists h l d,
    loop (length nums) nums k 0 Heap.__init__ = Ret (tt, h) /\
    Heap.rep h l /\ Heap.heap Z.leb l /\
    nums ≡ₚ l ++ d /\
    (forall y x, y ∈ d -> x ∈ l -> y <= x) /\
    Z.of_nat (length l) = Z.min (Z.max k 0) (Z.of_nat (length nums)).
Proof.
  apply (kth_loop_spec nums k (length nums) 0 Heap.__init__ [] []).
  - apply HeapFacts.heap_rep_init.
  - apply HeapFacts.heap_nil.
  - lia.
  - lia.
  - reflexivity.
  - intros y x Hy. inversion Hy.
  - simpl. lia.
Qed.

End KthLargestFacts.

(** X13: for [1 <= k <= len(nums)], [kth_largest_in_array(nums, k)] returns
    the [k]-th largest number: [nums] splits into [k] numbers of which the
    result is the least, and the others, none of which is greater than the
    result. *)
Theorem kth_largest_correct (nums : list Z) (k : Z) :
  1 <= k <= Z.of_nat (length nums) ->
  exists m big small,
    KthLargest.kth_largest_in_array nums k = Ret (Some m) /\
    nums ≡ₚ big ++ small /\
    Z.of_nat (length big) = k /\
    m ∈ big /\
    (forall x, x ∈ big -> m <= x) /\
    (forall y, y ∈ small -> y <= m).
Proof.
  intros Hk.
  destruct (KthLargestFacts.kth_run_spec nums k)
    as (h & l & d & E & R & Hh & P & Ho & Hlen).
  assert (Hl : 0 < Heap.len l) by (unfold Heap.len; lia).
  assert (Hin : Heap.at_ l 0 ∈ l).
  { apply list_elem_of_lookup. exists (Z.to_nat 0).
    apply HeapFacts.lookup_at. lia. }
  exists (Heap.at_ l 0), l, d.
  split; [|split; [exact P|split; [lia|split; [exact Hin|split]]]].
  - unfold KthLargest.kth_largest_in_array.
    rewrite (bind_ret _ _ _ _ _ E), (HeapFacts.peek_spec h l R Hl).
    reflexivity.
  - intros x Hx. apply (HeapFacts.elem_of_at l x) in Hx as (j & Hj & <-).
    pose proof (HeapFacts.heap_root Z.leb MinHeapFacts.leb_total
                  MinHeapFacts.leb_trans l Hh j Hj) as Hle.
    unfold Heap.le in Hle. lia.
  - intros y Hy. now apply Ho.
Qed.

Lemma kth_largest_correct_witness :
  1 <= 2 <= Z.of_nat (length [3; 1; 4; 1; 5]) /\
  exists m big small,
    KthLargest.kth_largest_in_array [3; 1; 4; 1; 5] 2 = Ret (Some m) /\
    [3; 1; 4; 1; 5] ≡ₚ big ++ small /\
    Z.of_nat (length big) = 2 /\
    m ∈ big /\
    (forall x, x ∈ big -> m <= x) /\
    (forall y, y ∈ small -> y <= m).
Proof.
  assert (H : 1 <= 2 <= Z.of_nat (length [3; 1; 4; 1; 5])) by (simpl; lia).
  split; [exact H|]. exact (kth_largest_correct [3; 1; 4; 1; 5] 2 H).
Defined.

(** X14: [kth_largest_in_array(nums, k)] never raises: it returns [None]
    when [k <= 0] or [nums] is empty, and the least number of [nums] when
    [k] is greater than [len(nums)]. *)
Theorem kth_largest_edges (nums : list Z) (k : Z) :
  (k <= 0 \/ nums = [] ->
   KthLargest.kth_largest_in_array nums k = Ret None) /\
  (Z.of_nat (length nums) < k -> nums <> [] ->
   exists m,
     KthLargest.kth_largest_in_array nums k = Ret (Some m) /\
     m ∈ nums /\ forall x, x ∈ nums -> m <= x).
Proof.
  destruct (KthLargestFacts.kth_run_spec nums k)
    as (h & l & d & E & R & Hh & P & Ho & Hlen).
  unfold KthLargest.kth_largest_in_array. rewrite (bind_ret _ _ _ _ _ E).
  split.
  - intros Hz.
    assert (Hl : Z.of_nat (length l) = 0).
    { destruct Hz as [Hz| ->]; [lia|simpl in Hlen; lia]. }
    rewrite HeapFacts.peek_empty; [reflexivity|].
    rewrite (HeapFacts.rep_size h l R). unfold Heap.len. lia.
  - intros Hk Hne.
    assert (Hn : 0 < Z.of_nat (length nums)).
    { destruct nums; [done|simpl; lia]. }
    assert (Hl : 0 < Heap.len l) by (unfold Heap.len; lia).
    assert (Hd : d = []).
    { apply Permutation_length in P. rewrite length_app in P.
      destruct d; [reflexivity|simpl in P; lia]. }
    subst d. rewrite app_nil_r in P.
    exists (Heap.at_ l 0). rewrite (HeapFacts.peek_spec h l R Hl).
    split; [reflexivity|]. split.
    + rewrite P. apply list_elem_of_lookup. exists (Z.to_nat 0).
      apply HeapFacts.lookup_at. lia.
    + intros x Hx. rewrite P in Hx.
      apply (HeapFacts.elem_of_at l x) in Hx as (j & Hj & <-).
      pose proof (HeapFacts.heap_root Z.leb MinHeapFacts.leb_total
                    MinHeapFacts.leb_trans l Hh j Hj) as Hle.
      unfold Heap.le in Hle. lia.
Qed.

Lemma kth_largest_edges_witness :
  KthLargest.kth_largest_in_array [3; 1; 4] 0 = Ret None /\
  exists m,
    KthLargest.kth_largest_in_array [3; 1; 4] 7 = Ret (Some m) /\
    m ∈ [3; 1; 4] /\ forall x, x ∈ [3; 1; 4] -> m <= x.
Proof.
  split.
  - apply (kth_largest_edges [3; 1; 4] 0). left. lia.
  - apply (kth_largest_edges [3; 1; 4] 7); [simpl; lia|discriminate].
Defined.

Module ValidParenthesesFacts.
Import ValidParentheses.

Lemma vp_loop_S (fuel : nat) (s : list ascii) (i : Z) :
  loop (S fuel) s i =
    if i <? Z.of_nat (length s) then
      ch <- py_getitem s i ;;
      match dict_get pairs ch with
      | Some opener =>
          top <- Stack.pop ;;
          if mismatch top opener then ret false
          else loop fuel s (i + 1)
      | None =>
          Stack.push (Some ch) ;;
          loop fuel s (i + 1)
      end
    else Stack.is_empty.
Proof. reflexivity. Qed.

Lemma vp_loop_check (s : list ascii) (fuel : nat) :
  forall (i : Z) (stack : Stack.t ascii) (st : list ascii),
    Stack.rep stack (Some <$> reverse st) ->
    0 <= i <= Z.of_nat (length s) ->
    Z.of_nat (length s) - i <= Z.of_nat fuel ->
    result (loop fuel s i stack) = Ret (check (drop (Z.to_nat i) s) st).
Proof.
  assert (Hdone : forall (i : Z) (stack : Stack.t ascii) (st : list ascii),
             Stack.rep stack (Some <$> reverse st) ->
             Z.of_nat (length s) <= i ->
             result (Stack.is_empty stack) =
               Ret (check (drop (Z.to_nat i) s) st)).
  { intros i stack st Hr Hge. rewrite drop_ge by lia.
    rewrite (StackMore.stack_is_empty_spec stack _ Hr). simpl.
    destruct st as [|c st]; [reflexivity|].
    rewrite reverse_cons, fmap_app. now destruct (Some <$> reverse st). }
  induction fuel as [|fuel IH]; intros i stack st Hr Hi Hf.
  - simpl. destruct (i <? Z.of_nat (length s)) eqn:E; [lia|].
    apply Hdone; [exact Hr|lia].
  - rewrite vp_loop_S. destruct (i <? Z.of_nat (length s)) eqn:E;
      [|apply Hdone; [exact Hr|lia]].
    destruct (lookup_lt_is_Some_2 s (Z.to_nat i)) as [ch Hch]; [lia|].
    rewrite (drop_S s ch (Z.to_nat i) Hch).
    replace (S (Z.to_nat i)) with (Z.to_nat (i + 1)) by lia.
    rewrite (bind_ret _ _ _ _ _
               (ArrayListFacts.py_getitem_ok s i ch stack ltac:(lia) Hch)).
    cbn [check]. destruct (dict_get pairs ch) as [opener|].
    + destruct st as [|top st].
      * rewrite (bind_ret _ _ _ _ _ (StackMore.stack_pop_empty stack Hr)).
        reflexivity.
      * rewrite reverse_cons, fmap_app in Hr. simpl in Hr.
        destruct (StackFacts.stack_pop_spec (Some top) stack _ Hr)
          as (stack' & E' & Hr').
        rewrite (bind_ret _ _ _ _ _ E'). simpl.
        destruct (Ascii.eqb top opener); simpl; [|reflexivity].
        apply IH; [exact Hr'|lia|lia].
    + destruct (StackFacts.stack_push_spec (Some ch) stack _ Hr)
        as (stack' & E' & Hr').
      rewrite (bind_ret _ _ _ _ _ E').
      apply IH; [|lia|lia].
      now rewrite reverse_cons, fmap_app.
Qed.

Lemma dict_get_pairs (c o : ascii) :
  dict_get pairs c = Some o <-> (c, o) ∈ pairs.
Proof.
  unfold pairs. simpl. split.
  - destruct (Ascii.eqb_spec c ")"%char) as [->|N1].
    { intros [= <-]. repeat constructor. }
    destruct (Ascii.eqb_spec c "]"%char) as [->|N2].
    { intros [= <-]. repeat constructor. }
    destruct (Ascii.eqb_spec c "}"%char) as [->|N3].
    { intros [= <-]. repeat constructor. }
    discriminate.
  - intros H. repeat (apply elem_of_cons in H as [[= -> ->]|H];
                      [reflexivity|]).
    inversion H.
Qed.

Lemma opener_not_key (c o : ascii) :
  (c, o) ∈ pairs -> dict_get pairs o = None.
Proof.
  unfold pairs. intros H.
  repeat (apply elem_of_cons in H as [[= -> ->]|H]; [reflexivity|]).
  inversion H.
Qed.

Lemma balanced_insert (x : list ascii) :
  balanced x ->
  forall u v w, x = u ++ v -> balanced w -> balanced (u ++ w ++ v).
Proof.
  induction 1 as [|o c b Hp Hb IH|b1 b2 H1 IH1 H2 IH2]; intros u v w Hx Hw.
  - symmetry in Hx. apply app_eq_nil in Hx as [-> ->].
    simpl. now rewrite app_nil_r.
  - destruct u as [|o' u].
    + simpl in *. subst v. apply balanced_app; [exact Hw|].
      now apply balanced_wrap.
    + simpl in Hx. injection Hx as <- Hx.
      destruct v as [|c' v _] using rev_ind.
      * rewrite app_nil_r in *. subst u.
        change (balanced ((o :: b ++ [c]) ++ w)).
        apply balanced_app; [|exact Hw]. now apply balanced_wrap.
      * rewrite app_assoc in Hx. apply app_inj_tail in Hx as [Hb' <-].
        replace ((o :: u) ++ w ++ v ++ [c])
          with (o :: (u ++ w ++ v) ++ [c])
          by (simpl; now rewrite <- !app_assoc).
        apply balanced_wrap; [exact Hp|]. now apply IH.
  - apply app_eq_inv in Hx as [(k & -> & ->)|(k & -> & ->)].
    + replace (u ++ w ++ k ++ b2) with ((u ++ w ++ k) ++ b2)
        by now rewrite <- !app_assoc.
      apply balanced_app; [|exact H2]. now apply IH1.
    + rewrite <- app_assoc. apply balanced_app; [exact H1|]. now apply IH2.
Qed.

Lemma check_sound (s : list ascii) :
  forall st, check s st = true -> balanced (reverse st ++ s).
Proof.
  induction s as [|ch s IH]; intros st; cbn [check].
  - destruct st; [|discriminate]. intros _. simpl. constructor.
  - destruct (dict_get pairs ch) as [opener|] eqn:Ed.
    + destruct st as [|top st]; [discriminate|].
      destruct (Ascii.eqb_spec top opener) as [->|]; [|discriminate].
      intros Hc. apply IH in Hc. rewrite reverse_cons, <- app_assoc.
      apply (balanced_insert _ Hc (reverse st) s [opener; ch] eq_refl).
      apply (balanced_wrap opener ch []); [|constructor].
      now apply dict_get_pairs.
    + intros Hc. apply IH in Hc.
      now rewrite reverse_cons, <- app_assoc in Hc.
Qed.

Lemma check_complete (b : list ascii) :
  balanced b -> forall s st, check (b ++ s) st = check s st.
Proof.
  induction 1 as [|o c b Hp Hb IH|b1 b2 H1 IH1 H2 IH2]; intros s st.
  - reflexivity.
  - cbn [app check]. rewrite (opener_not_key c o Hp), <- app_assoc, IH.
    cbn [app check]. apply dict_get_pairs in Hp. rewrite Hp.
    now rewrite Ascii.eqb_refl.
  - now rewrite <- app_assoc, IH1, IH2.
Qed.

End ValidParenthesesFacts.

(** X15: [valid_parentheses(s)] never raises, and returns [True] exactly
    when [s] is a string of well-nested round, square and curly brackets
    (any other character makes it [False]). *)
Theorem valid_parentheses_correct (s : list ascii) :
  exists b,
    ValidParentheses.valid_parentheses s = Ret b /\
    (b = true <-> ValidParentheses.balanced s).
Proof.
  exists (ValidParentheses.check s []). split.
  - unfold ValidParentheses.valid_parentheses.
    rewrite (ValidParenthesesFacts.vp_loop_check s (length s) 0
               Stack.__init__ []); [reflexivity| |lia|lia].
    apply StackFacts.stack_rep_init.
  - split.
    + intros H. now apply ValidParenthesesFacts.check_sound in H.
    + intros H.
      pose proof (ValidParenthesesFacts.check_complete s H [] []) as E.
      now rewrite app_nil_r in E.
Qed.

Module MedianFinderFacts.
Import MedianFinder.

Lemma on_low_ret {A} (m : M Heap.t A) (s : t) (x : A) (h : Heap.t) :
  m (low s) = Ret (x, h) -> on_low m s = Ret (x, mk h (high s)).
Proof. unfold on_low. now intros ->. Qed.

Lemma on_high_ret {A} (m : M Heap.t A) (s : t) (x : A) (h : Heap.t) :
  m (high s) = Ret (x, h) -> on_high m s = Ret (x, mk (low s) h).
Proof. unfold on_high. now intros ->. Qed.

Lemma max_root (L : list Z) (a : Z) :
  Heap.heap Z.geb L -> a ∈ L -> a <= Heap.at_ L 0.
Proof.
  intros Hh Ha. apply (HeapFacts.elem_of_at L a) in Ha as (j & Hj & <-).
  pose proof (HeapFacts.heap_root Z.geb MaxHeapFacts.geb_total
                MaxHeapFacts.geb_trans L Hh j Hj) as Hle.
  unfold Heap.le in Hle. lia.
Qed.

Lemma min_root (H : list Z) (b : Z) :
  Heap.heap Z.leb H -> b ∈ H -> Heap.at_ H 0 <= b.
Proof.
  intros Hh Hb. apply (HeapFacts.elem_of_at H b) in Hb as (j & Hj & <-).
  pose proof (HeapFacts.heap_root Z.leb MinHeapFacts.leb_total
                MinHeapFacts.leb_trans H Hh j Hj) as Hle.
  unfold Heap.le in Hle. lia.
Qed.

Lemma root_in (l : list Z) : l <> [] -> Heap.at_ l 0 ∈ l.
Proof.
  intros Hne. apply list_elem_of_lookup. exists (Z.to_nat 0).
  apply HeapFacts.lookup_at. destruct l; [done|]. unfold Heap.len.
  simpl. lia.
Qed.

(** The second half of [add_num]: moving one number across when the
    sizes are out of balance. *)
Definition rebalance : M t unit :=
  low_size <- on_low MaxHeap.size ;;
  high_size <- on_high MinHeap.size ;;
  if low_size >? high_size + 1 then
    x <- on_low MaxHeap.pop ;;
    on_high (MinHeap.push x)
  else
    high_size <- on_high MinHeap.size ;;
    low_size <- on_low MaxHeap.size ;;
    if high_size >? low_size then
      x <- on_high MinHeap.pop ;;
      on_low (MaxHeap.push x)
    else ret tt.

Lemma rebalance_spec (s : t) (L H : list Z) :
  Heap.rep (low s) L -> Heap.heap Z.geb L ->
  Heap.rep (high s) H -> Heap.heap Z.leb H ->
  (forall a b, a ∈ L -> b ∈ H -> a <= b) ->
  (length L + 1 = length H \/ length L = length H \/
   length L = length H + 1 \/ length L = length H + 2)%nat ->
  exists s' L' H',
    rebalance s = Ret (tt, s') /\ inv s' L' H' /\ L' ++ H' ≡ₚ L ++ H.
Proof.
  intros RL HL RH HH Ho Hsz. destruct s as [lo hi]. simpl in *.
  unfold rebalance.
  rewrite (bind_ret _ _ _ _ _
             (on_low_ret _ (mk lo hi) _ _ (HeapFacts.data_size lo L RL))).
  rewrite (bind_ret _ _ _ _ _
             (on_high_ret _ (mk lo hi) _ _ (HeapFacts.data_size hi H RH))).
  unfold Heap.len.
  destruct (Z.of_nat (length L) >? Z.of_nat (length H) + 1) eqn:E1.
  - destruct (HeapFacts.heap_pop_spec Z.geb Z.gtb MaxHeapFacts.geb_total
                MaxHeapFacts.geb_trans MaxHeapFacts.gtb_spec lo L RL HL)
      as (lo' & L' & Ep & RL' & HL' & PL); [unfold Heap.len; lia|].
    rewrite (bind_ret _ _ _ _ _ (on_low_ret _ (mk lo hi) _ _ Ep)).
    destruct (HeapFacts.heap_push_spec Z.leb MinHeapFacts.leb_total
                MinHeapFacts.leb_trans (Heap.at_ L 0) hi H RH HH)
      as (hi' & H' & Eq & RH' & HH' & PH).
    cbn [low high]. rewrite (on_high_ret _ (mk lo' hi) _ _ Eq). simpl.
    exists (mk lo' hi'), L', H'. split; [reflexivity|]. split.
    + split; [exact RL'|]. split; [exact HL'|]. split; [exact RH'|].
      split; [exact HH'|]. split.
      * apply Permutation_length in PL, PH. simpl in *. lia.
      * intros a b Ha Hb. rewrite PH in Hb.
        assert (Ha' : a ∈ L) by (rewrite PL; now right).
        apply elem_of_cons in Hb as [->|Hb]; [now apply max_root|].
        now apply Ho.
    + etrans; [apply Permutation_app_head, PH|].
      etrans; [|apply Permutation_app_tail; symmetry; exact PL].
      symmetry. apply Permutation_middle.
  - rewrite (bind_ret _ _ _ _ _
               (on_high_ret _ (mk lo hi) _ _ (HeapFacts.data_size hi H RH))).
    rewrite (bind_ret _ _ _ _ _
               (on_low_ret _ (mk lo hi) _ _ (HeapFacts.data_size lo L RL))).
    unfold Heap.len.
    destruct (Z.of_nat (length H) >? Z.of_nat (length L)) eqn:E2.
    + destruct (HeapFacts.heap_pop_spec Z.leb Z.ltb MinHeapFacts.leb_total
                  MinHeapFacts.leb_trans MinHeapFacts.ltb_spec hi H RH HH)
        as (hi' & H' & Ep & RH' & HH' & PH); [unfold Heap.len; lia|].
      rewrite (bind_ret _ _ _ _ _ (on_high_ret _ (mk lo hi) _ _ Ep)).
      destruct (HeapFacts.heap_push_spec Z.geb MaxHeapFacts.geb_total
                  MaxHeapFacts.geb_trans (Heap.at_ H 0) lo L RL HL)
        as (lo' & L' & Eq & RL' & HL' & PL).
      cbn [low high]. rewrite (on_low_ret _ (mk lo hi') _ _ Eq). simpl.
      exists (mk lo' hi'), L', H'. split; [reflexivity|]. split.
      * split; [exact RL'|]. split; [exact HL'|]. split; [exact RH'|].
        split; [exact HH'|]. split.
        -- apply Permutation_length in PL, PH. simpl in *. lia.
        -- intros a b Ha Hb. rewrite PL in Ha.
           assert (Hb' : b ∈ H) by (rewrite PH; now right).
           apply elem_of_cons in Ha as [->|Ha]; [now apply min_root|].
           now apply Ho.
      * etrans; [apply Permutation_app_tail, PL|].
        etrans; [|apply Permutation_app_head; symmetry; exact PH].
        apply Permutation_middle.
    + exists (mk lo hi), L, H. split; [reflexivity|]. split; [|reflexivity].
      split; [exact RL|]. split; [exact HL|]. split; [exact RH|].
      split; [exact HH|]. split; [lia|exact Ho].
Qed.

Lemma add_num_unfold (num : Z) :
  add_num num =
    (size <- on_low MaxHeap.size ;;
     b <- (if size =? 0 then ret true
           else
             top <- on_low MaxHeap.peek ;;
             py_compare Z.leb (Some num) top) ;;
     (if b then on_low (MaxHeap.push (Some num))
      else on_high (MinHeap.push (Some num))) ;;
     rebalance).
Proof. reflexivity. Qed.

Lemma add_num_spec (num : Z) (s : t) (L H : list Z) :
  inv s L H ->
  exists s' L' H',
    add_num num s = Ret (tt, s') /\ inv s' L' H' /\
    L' ++ H' ≡ₚ num :: L ++ H.
Proof.
  intros (RL & HL & RH & HH & Hsz & Ho). destruct s as [lo hi]. simpl in *.
  rewrite add_num_unfold.
  rewrite (bind_ret _ _ _ _ _
             (on_low_ret _ (mk lo hi) _ _ (HeapFacts.data_size lo L RL))).
  assert (Hb : exists b : bool,
             (if Heap.len L =? 0 then ret true
              else
                top <- on_low MaxHeap.peek ;;
                py_compare Z.leb (Some num) top) (mk lo hi)
             = Ret (b, mk lo hi) /\
             (b = true -> L = [] \/ num <= Heap.at_ L 0) /\
             (b = false -> L <> [] /\ Heap.at_ L 0 < num)).
  { destruct (Heap.len L =? 0) eqn:E.
    - exists true. split; [reflexivity|]. split; [|discriminate].
      intros _. left. destruct L; [reflexivity|].
      unfold Heap.len in E. simpl in E. lia.
    - assert (Hl : 0 < Heap.len L) by (unfold Heap.len in *; lia).
      rewrite (bind_ret _ _ _ _ _
                 (on_low_ret _ (mk lo hi) _ _ (HeapFacts.peek_spec lo L RL Hl))).
      exists (num <=? Heap.at_ L 0). split; [reflexivity|]. split.
      + intros Hle. right. lia.
      + intros Hgt. split; [|lia]. intros ->. unfold Heap.len in Hl.
        simpl in Hl. lia. }
  destruct Hb as (b & Eb & Ht & Hf).
  rewrite (bind_ret _ _ _ _ _ Eb).
  destruct b.
  - destruct (HeapFacts.heap_push_spec Z.geb MaxHeapFacts.geb_total
                MaxHeapFacts.geb_trans num lo L RL HL)
      as (lo' & L' & Eq & RL' & HL' & PL).
    rewrite (bind_ret _ _ _ _ _ (on_low_ret _ (mk lo hi) _ _ Eq)).
    destruct (rebalance_spec (mk lo' hi) L' H RL' HL' RH HH)
      as (s' & L'' & H'' & E' & Hinv & P').
    + intros a c Ha Hc. rewrite PL in Ha.
      apply elem_of_cons in Ha as [->|Ha]; [|now apply Ho].
      destruct (Ht eq_refl) as [->|Hle].
      * destruct Hsz as [Hsz|Hsz]; [|discriminate].
        destruct H; [inversion Hc|discriminate].
      * assert (Hne : L <> []).
        { intros ->. destruct Hsz as [Hsz|Hsz]; [|discriminate].
          destruct H; [inversion Hc|discriminate]. }
        pose proof (Ho _ c (root_in L Hne) Hc). lia.
    + apply Permutation_length in PL. simpl in PL. lia.
    + exists s', L'', H''. split; [exact E'|]. split; [exact Hinv|].
      rewrite P', PL. reflexivity.
  - destruct (Hf eq_refl) as [Hne Hgt].
    destruct (HeapFacts.heap_push_spec Z.leb MinHeapFacts.leb_total
                MinHeapFacts.leb_trans num hi H RH HH)
      as (hi' & H' & Eq & RH' & HH' & PH).
    rewrite (bind_ret _ _ _ _ _ (on_high_ret _ (mk lo hi) _ _ Eq)).
    destruct (rebalance_spec (mk lo hi') L H' RL HL RH' HH')
      as (s' & L'' & H'' & E' & Hinv & P').
    + intros a c Ha Hc. rewrite PH in Hc.
      apply elem_of_cons in Hc as [->|Hc]; [|now apply Ho].
      pose proof (max_root L a HL Ha). lia.
    + apply Permutation_length in PH. simpl in PH. lia.
    + exists s', L'', H''. split; [exact E'|]. split; [exact Hinv|].
      rewrite P', PH. symmetry. apply Permutation_middle.
Qed.

Lemma median_inv_init : inv __init__ [] [].
Proof.
  split; [apply HeapFacts.heap_rep_init|]. split; [apply HeapFacts.heap_nil|].
  split; [apply HeapFacts.heap_rep_init|]. split; [apply HeapFacts.heap_nil|].
  split; [now left|]. intros a b Ha. inversion Ha.
Qed.

Lemma add_all_spec (nums : list Z) :
  forall (s : t) (L H : list Z),
    inv s L H ->
    exists s' L' H',
      for_each add_num nums s = Ret (tt, s') /\ inv s' L' H' /\
      L' ++ H' ≡ₚ (L ++ H) ++ nums.
Proof.
  induction nums as [|num nums IH]; intros s L H Hinv; simpl.
  - exists s, L, H. rewrite app_nil_r. auto.
  - destruct (add_num_spec num s L H Hinv) as (s1 & L1 & H1 & E1 & I1 & P1).
    destruct (IH s1 L1 H1 I1) as (s2 & L2 & H2 & E2 & I2 & P2).
    exists s2, L2, H2. rewrite (bind_ret _ _ _ _ _ E1).
    split; [exact E2|]. split; [exact I2|].
    rewrite P2, P1. simpl. apply Permutation_middle.
Qed.

End MedianFinderFacts.

(** X16: after [add_num] has been called with each of [nums] on a new
    [MedianFinder], the numbers are split between [low] and [high] so that
    [low] holds as many as [high] or one more and no number of [low] is
    greater than one of [high]; [low.peek()] is then the greatest number of
    [low] and [high.peek()] the least of [high], the middle of [nums]. *)
Theorem median_finder_halves (nums : list Z) :
  exists s L H,
    for_each MedianFinder.add_num nums MedianFinder.__init__ = Ret (tt, s) /\
    Heap.rep (MedianFinder.low s) L /\ Heap.rep (MedianFinder.high s) H /\
    L ++ H ≡ₚ nums /\
    (length L = length H \/ length L = S (length H)) /\
    (forall a b, a ∈ L -> b ∈ H -> a <= b) /\
    (L <> [] ->
     exists m, MaxHeap.peek (MedianFinder.low s) =
                 Ret (Some m, MedianFinder.low s) /\
               m ∈ L /\ forall a, a ∈ L -> a <= m) /\
    (H <> [] ->
     exists m, MinHeap.peek (MedianFinder.high s) =
                 Ret (Some m, MedianFinder.high s) /\
               m ∈ H /\ forall b, b ∈ H -> m <= b).
Proof.
  destruct (MedianFinderFacts.add_all_spec nums MedianFinder.__init__ [] []
              MedianFinderFacts.median_inv_init)
    as (s & L & H & E & (RL & HL & RH & HH & Hsz & Ho) & P).
  exists s, L, H. split; [exact E|]. split; [exact RL|]. split; [exact RH|].
  split; [exact P|]. split; [exact Hsz|]. split; [exact Ho|]. split.
  - intros Hne. exists (Heap.at_ L 0). split.
    + apply HeapFacts.peek_spec; [exact RL|].
      destruct L; [done|]. unfold Heap.len. simpl. lia.
    + split; [now apply MedianFinderFacts.root_in|].
      intros a Ha. now apply MedianFinderFacts.max_root.
  - intros Hne. exists (Heap.at_ H 0). split.
    + apply HeapFacts.peek_spec; [exact RH|].
      destruct H; [done|]. unfold Heap.len. simpl. lia.
    + split; [now apply MedianFinderFacts.root_in|].
      intros b Hb. now apply MedianFinderFacts.min_root.
Qed.

Module GraphFacts.
Section Facts.
Import Graph.
Context {V : Type}.
Local Abbreviation t := (Graph.t V).
Local Abbreviation new := (@ArrayList.new V).

Lemma py_index_cases {St A} (l : list A) (u : Z) (s : St) :
  let len := Z.of_nat (length l) in
  (- len <= u < len /\
   py_index l u s = Ret (Z.to_nat (if u <? 0 then u + len else u), s)) \/
  (~ (- len <= u < len) /\ py_index l u s = Raise IndexError).
Proof.
  intros len. unfold py_index. fold len.
  destruct (u <? 0) eqn:E1.
  - destruct (u + len <? 0) eqn:E2; simpl.
    + right. split; [lia|reflexivity].
    + destruct (u + len >=? len) eqn:E3; [lia|].
      left. split; [lia|reflexivity].
  - destruct (u <? 0) eqn:E2; [lia|]. simpl.
    destruct (u >=? len) eqn:E3.
    + right. split; [lia|reflexivity].
    + left. split; [lia|reflexivity].
Qed.

Lemma graph_init_loop_spec (n0 : Z) (fuel : nat) :
  forall i : Z,
    0 <= i <= n0 -> (Z.to_nat (n0 - i) <= fuel)%nat ->
    __init__loop fuel n0 i
      (mk n0 (replicate (Z.to_nat i) (Some new) ++
              replicate (Z.to_nat (n0 - i)) None))
    = Ret (tt, mk n0 (replicate (Z.to_nat n0) (Some new))).
Proof.
  induction fuel as [|fuel IH]; intros i Hi Hf.
  - assert (i = n0) as -> by lia. simpl.
    destruct (n0 <? n0) eqn:E; [lia|].
    replace (n0 - n0) with 0 by lia. simpl. now rewrite app_nil_r.
  - cbn [__init__loop]. destruct (i <? n0) eqn:E.
    + assert (Hs : set_adj i new
                (mk n0 (replicate (Z.to_nat i) (Some new) ++
                        replicate (Z.to_nat (n0 - i)) None))
              = Ret (tt, mk n0 (replicate (Z.to_nat (i + 1)) (Some new) ++
                                replicate (Z.to_nat (n0 - (i + 1))) None))).
      { unfold set_adj, gets, modify, bind. cbn [adj Graph.n].
        rewrite ArrayListFacts.py_setitem_ok.
        2:{ rewrite length_app, !length_replicate. lia. }
        do 3 f_equal.
        replace (Z.to_nat (n0 - i)) with (S (Z.to_nat (n0 - (i + 1)))) by lia.
        replace (Z.to_nat (i + 1)) with (S (Z.to_nat i)) by lia.
        rewrite insert_app_r_alt by (rewrite length_replicate; lia).
        rewrite length_replicate, Nat.sub_diag. cbn [replicate].
        change (<[0%nat:=Some new]>
                  (None :: replicate (Z.to_nat (n0 - (i + 1))) None))
          with ([Some new] ++ replicate (Z.to_nat (n0 - (i + 1))) None).
        rewrite app_assoc. f_equal.
        change (Some new :: replicate (Z.to_nat i) (Some new))
          with (replicate (S (Z.to_nat i)) (Some new)).
        now rewrite replicate_S_end. }
      rewrite (bind_ret _ _ _ _ _ Hs). apply IH; lia.
    + assert (i = n0) as -> by lia.
      replace (n0 - n0) with 0 by lia. simpl. now rewrite app_nil_r.
Qed.

Lemma graph_init_spec (n0 : Z) :
  __init__ n0 = Ret (mk n0 (replicate (Z.to_nat n0) (Some new))).
Proof.
  unfold __init__, py_repeat. destruct (Z.le_gt_cases 0 n0) as [Hn|Hn].
  - pose proof (graph_init_loop_spec n0 (Z.to_nat n0) 0) as H.
    rewrite Z.sub_0_r in H. change (Z.to_nat 0) with 0%nat in H.
    cbn [replicate app] in H.
    rewrite H; [reflexivity|lia|lia].
  - replace (Z.to_nat n0) with 0%nat by lia. cbn [__init__loop replicate].
    destruct (0 <? n0) eqn:E; [lia|reflexivity].
Qed.

(** What every graph keeps: slot [w] holds an [ArrayList] whose elements
    are the neighbours given to node [w] so far. *)
Definition graph_inv (n0 : Z) (es : list (Z * option V)) (g : t) : Prop :=
  Graph.n g = n0 /\
  length (adj g) = Z.to_nat n0 /\
  forall w : Z, 0 <= w < n0 ->
    exists a, adj g !! Z.to_nat w = Some (Some a) /\
              ArrayList.wf a /\
              ArrayList.contents a = neighbours n0 w es.

Lemma graph_inv_init (n0 : Z) :
  graph_inv n0 [] (mk n0 (replicate (Z.to_nat n0) (Some new))).
Proof.
  split; [reflexivity|]. split; [apply length_replicate|].
  intros w Hw. exists new. split.
  - apply lookup_replicate_2. lia.
  - split; [apply ArrayListFacts.wf_init|reflexivity].
Qed.

Lemma neighbours_snoc (n0 w u : Z) (v : option V) (es : list (Z * option V)) :
  neighbours n0 w (es ++ [(u, v)]) =
    neighbours n0 w es ++
    (if decide (u = w \/ u = w - n0) then [v] else []).
Proof.
  unfold neighbours. rewrite filter_app, fmap_app. f_equal.
  rewrite filter_cons. cbn [fst]. destruct (decide (u = w \/ u = w - n0));
    reflexivity.
Qed.

Lemma add_edge_spec (n0 u : Z) (v : option V) (es : list (Z * option V))
  (g : t) :
  graph_inv n0 es g ->
  (- n0 <= u < n0 ->
   exists g', add_edge u v g = Outcome (Ret (tt, g')) /\
              graph_inv n0 (es ++ [(u, v)]) g') /\
  (~ (- n0 <= u < n0) -> add_edge u v g = Outcome (Raise IndexError)).
Proof.
  intros (Hn & Hlen & Hw). unfold add_edge.
  destruct (py_index_cases (adj g) u g) as [[Hu E]|[Hu E]]; rewrite E.
  - rewrite Hlen in *. split; [|lia]. intros _.
    set (w := if u <? 0 then u + Z.of_nat (Z.to_nat n0) else u).
    assert (Hwr : 0 <= w < n0) by (unfold w; destruct (u <? 0) eqn:E1; lia).
    destruct (Hw w Hwr) as (a & La & Wa & Ca). rewrite La.
    destruct (ArrayListFacts.add_spec v a Wa) as (a' & Ea & Wa' & _ & Ca').
    rewrite Ea. eexists. split; [reflexivity|].
    split; [exact Hn|]. split; [cbn [adj]; now rewrite length_insert|].
    intros w' Hw'. cbn [adj]. rewrite neighbours_snoc.
    destruct (decide (w' = w)) as [->|Hne].
    + exists a'. split.
      * apply list_lookup_insert_eq. lia.
      * split; [exact Wa'|]. rewrite Ca', Ca.
        destruct (decide (u = w \/ u = w - n0)) as [_|Hno]; [reflexivity|].
        exfalso. apply Hno. unfold w. destruct (u <? 0) eqn:E1; lia.
    + destruct (Hw w' Hw') as (b & Lb & Wb & Cb). exists b. split.
      * rewrite list_lookup_insert_ne by lia. exact Lb.
      * split; [exact Wb|]. rewrite Cb.
        destruct (decide (u = w' \/ u = w' - n0)) as [Hyes|_];
          [|now rewrite app_nil_r].
        exfalso. apply Hne. unfold w. destruct (u <? 0) eqn:E1; lia.
  - rewrite Hlen in Hu. split; [|reflexivity]. intros Hr. exfalso.
    apply Hu. lia.
Qed.

Lemma reachable_graph_inv (n0 : Z) (es : list (Z * option V)) (g : t) :
  reachable n0 es g -> graph_inv n0 es g.
Proof.
  induction 1 as [g E|u v es g g' _ IH E].
  - rewrite graph_init_spec in E. injection E as <-. apply graph_inv_init.
  - destruct (add_edge_spec n0 u v es g IH) as [Hin Hout].
    destruct (decide (- n0 <= u < n0)) as [Hu|Hu].
    + destruct (Hin Hu) as (g'' & E' & I'). rewrite E' in E.
      injection E as <-. exact I'.
    + rewrite (Hout Hu) in E. discriminate.
Qed.

End Facts.
End GraphFacts.

(** X17: [Graph(n)] returns for every integer [n]: its [adj] list has [n]
    slots (none when [n] is negative), each holding a new empty
    [ArrayList] of the default capacity, and no slot is left [None]. *)
Theorem graph_init (V : Type) (n0 : Z) :
  exists g : Graph.t V,
    Graph.__init__ n0 = Ret g /\
    Graph.n g = n0 /\
    Z.of_nat (length (Graph.adj g)) = Z.max 0 n0 /\
    forall w : nat, (w < length (Graph.adj g))%nat ->
      Graph.adj g !! w = Some (Some ArrayList.new).
Proof.
  eexists. split; [apply GraphFacts.graph_init_spec|].
  split; [reflexivity|]. cbn [Graph.adj]. rewrite length_replicate.
  split; [lia|]. intros w Hw. now apply lookup_replicate_2.
Qed.

(** X18: in a graph built by [Graph(n)] and the calls [add_edge(u, v)]
    that returned, the adjacency list of each node [w] holds, in the order
    of the calls, the [v] of the calls whose [u] was [w] or [w - n] (a
    negative [u] counts from the back); a further [add_edge(u, v)] returns
    when [-n <= u < n] and raises [IndexError] otherwise, and never fails
    on a [None] slot. *)
Theorem graph_adjacency (V : Type) (n0 : Z) (es : list (Z * option V))
  (g : Graph.t V) :
  Graph.reachable n0 es g ->
  Graph.n g = n0 /\
  Z.of_nat (length (Graph.adj g)) = Z.max 0 n0 /\
  (forall w : Z, 0 <= w < n0 ->
     exists a, Graph.adj g !! Z.to_nat w = Some (Some a) /\
               result (ArrayList.to_list a) = Ret (Graph.neighbours n0 w es)) /\
  (forall (u : Z) (v : option V),
     (- n0 <= u < n0 ->
      exists g', Graph.add_edge u v g = Graph.Outcome (Ret (tt, g'))) /\
     (~ (- n0 <= u < n0) ->
      Graph.add_edge u v g = Graph.Outcome (Raise IndexError))).
Proof.
  intros Hr. apply GraphFacts.reachable_graph_inv in Hr as Hinv.
  pose proof Hinv as (Hn & Hlen & Hw).
  split; [exact Hn|]. split; [lia|]. split.
  - intros w Hwr. destruct (Hw w Hwr) as (a & La & Wa & Ca).
    exists a. split; [exact La|].
    rewrite (ArrayListFacts.to_list_spec a Wa). simpl. now rewrite Ca.
  - intros u v.
    destruct (GraphFacts.add_edge_spec n0 u v es g Hinv) as [Hin Hout].
    split; [|exact Hout]. intros Hu. destruct (Hin Hu) as (g' & E & _).
    now exists g'.
Qed.

Lemma graph_adjacency_witness :
  let a0 := ArrayList.mk 4 0 [None; None; None; None] in
  let a1 := ArrayList.mk 4 1 [Some 5; None; None; None] in
  let g := Graph.mk 2 [Some a0; Some a1] in
  Graph.reachable 2 [(-1, Some 5)] g /\
  Graph.n g = 2 /\
  Z.of_nat (length (Graph.adj g)) = Z.max 0 2 /\
  (forall w : Z, 0 <= w < 2 ->
     exists a, Graph.adj g !! Z.to_nat w = Some (Some a) /\
               result (ArrayList.to_list a) =
                 Ret (Graph.neighbours 2 w [(-1, Some 5)])) /\
  (forall (u : Z) (v : option Z),
     (- 2 <= u < 2 ->
      exists g', Graph.add_edge u v g = Graph.Outcome (Ret (tt, g'))) /\
     (~ (- 2 <= u < 2) ->
      Graph.add_edge u v g = Graph.Outcome (Raise IndexError))).
Proof.
  intros a0 a1 g.
  assert (H : Graph.reachable 2 [(-1, Some 5)] g).
  { apply (Graph.reach_add_edge 2 (-1) (Some 5) []
             (Graph.mk 2 [Some a0; Some a0])); [|reflexivity].
    apply Graph.reach_init. reflexivity. }
  split; [exact H|]. exact (graph_adjacency Z 2 [(-1, Some 5)] g H).
Defined.
